(** * N-1 versioning: offset resolution over a registry with cache and retry

    A shallow embedding of
    - [lib/modules/versioning/index.ts] ([get], [groupVersionsBySemverLevel],
      [getVersionFromSemverGroups], [getNewValue]) and
    - [lib/util/registry.ts] ([isRetryableError],
      [retryWithExponentialBackoff], [registry.getPkgReleases]),
    followed by the properties the specification states about them.

    Conventions.  JavaScript numbers that the code uses as counters, offsets
    and version components are integers, modelled by [Z].  [undefined] and
    [null] are modelled by [None].  An [async] function is a state-passing
    function over a [World] that holds the clock, the memory cache and the
    list of calls made to the datasource; a rejected promise is [Throw].
    Log calls have no influence on results and are left out. *)

From Stdlib Require Import ZArith Decimal DecimalString DecimalPos DecimalZ.
From Stdlib Require Import QArith Qround.
From Stdlib Require Import Ascii String.
From Stdlib Require Import List Permutation Sorted Lia Bool.
From stdpp Require Import base option list sorting strings gmap.

Local Open Scope string_scope.
Local Open Scope list_scope.
Local Open Scope Z_scope.

(** ** JavaScript primitives used by the code *)

Module Js.

(** Truthiness of a string value ([""] is falsy). *)
Definition truthyStr (s : string) : bool := negb (String.eqb s "").

(** Truthiness of a possibly-undefined string. *)
Definition truthyOptStr (o : option string) : bool :=
  match o with Some s => truthyStr s | None => false end.

(** Truthiness of a possibly-undefined number (0 is falsy). *)
Definition truthyOptNum (o : option Z) : bool :=
  match o with Some z => negb (z =? 0) | None => false end.

(** Template-literal rendering of a possibly-undefined string. *)
Definition tmplStr (o : option string) : string :=
  match o with Some s => s | None => "undefined" end.

(** Template-literal rendering of an integer: [`${n}`], the decimal numeral
    (integers below [10^21] in magnitude, which are printed in full). *)
Definition numberToString (z : Z) : string :=
  NilEmpty.string_of_int (Z.to_int z).

(** A decimal digit character, as a constructor of [Decimal.uint]. *)
Definition digitOf (c : ascii) : option (uint -> uint) :=
  match c with
  | "0"%char => Some D0 | "1"%char => Some D1 | "2"%char => Some D2
  | "3"%char => Some D3 | "4"%char => Some D4 | "5"%char => Some D5
  | "6"%char => Some D6 | "7"%char => Some D7 | "8"%char => Some D8
  | "9"%char => Some D9 | _ => None
  end.

(** The longest prefix of decimal digits of a string. *)
Fixpoint takeDigits (s : string) : uint :=
  match s with
  | EmptyString => Nil
  | String c r =>
      match digitOf c with
      | Some d => d (takeDigits r)
      | None => Nil
      end
  end.

(** White space skipped by [parseInt] (the ASCII part of StrWhiteSpaceChar). *)
Definition isWhite (c : ascii) : bool :=
  let n := nat_of_ascii c in
  (Nat.eqb n 32 || (Nat.leb 9 n && Nat.leb n 13))%bool.

Fixpoint skipWhite (s : string) : string :=
  match s with
  | String c r => if isWhite c then skipWhite r else s
  | EmptyString => s
  end.

(** [parseInt(s, 10)]; [None] is NaN. *)
Definition parseInt (s : string) : option Z :=
  let s1 := skipWhite s in
  let '(neg, s2) :=
    match s1 with
    | String "-"%char r => (true, r)
    | String "+"%char r => (false, r)
    | _ => (false, s1)
    end in
  match takeDigits s2 with
  | Nil => None
  | d => Some (if neg then - Z.of_uint d else Z.of_uint d)
  end.

(** [parseInt(x, 10)] of a destructured array element, which is
    [undefined] when the array is too short. *)
Definition parseIntOpt (o : option string) : option Z := parseInt (tmplStr o).

(** [parseInt(...) === n] for an integer [n]: NaN equals nothing. *)
Definition numStrictEq (p : option Z) (n : Z) : bool :=
  match p with Some z => z =? n | None => false end.

(** [s.split('.')] *)
Fixpoint splitDot (s : string) : list string :=
  match s with
  | EmptyString => [EmptyString]
  | String c r =>
      if Ascii.eqb c "."%char then EmptyString :: splitDot r
      else match splitDot r with
           | h :: t => String c h :: t
           | [] => [String c EmptyString]
           end
  end.

(** [hay.includes(needle)] *)
Fixpoint includes (needle hay : string) : bool :=
  (String.prefix needle hay ||
   match hay with
   | EmptyString => false
   | String _ r => includes needle r
   end)%bool.

(** [xs.includes(x)] on an array of strings, of numbers. *)
Definition arrIncludesStr (xs : list string) (x : string) : bool :=
  existsb (String.eqb x) xs.
Definition arrIncludesNum (xs : list Z) (x : Z) : bool :=
  existsb (Z.eqb x) xs.

(** [Array.prototype.sort(cmp)]: a stable sort.  For a consistent comparator
    every conforming engine returns this list. *)
Section Sort.
Context {A : Type} (cmp : A -> A -> Z).

Fixpoint insertSorted (x : A) (l : list A) : list A :=
  match l with
  | [] => [x]
  | y :: t => if cmp x y <? 0 then x :: y :: t else y :: insertSorted x t
  end.

Definition sort (l : list A) : list A :=
  fold_left (fun acc x => insertSorted x acc) l [].
End Sort.

(** An ordinary object with string keys: own properties in insertion order. *)
Definition Obj (V : Type) : Type := list (string * V).

Section Obj.
Context {V : Type}.

Fixpoint objGet (o : Obj V) (k : string) : option V :=
  match o with
  | [] => None
  | (k', v) :: t => if String.eqb k k' then Some v else objGet t k
  end.

(** [o[k] = f(o[k])] for a key that exists, in place. *)
Fixpoint objAlter (f : V -> V) (o : Obj V) (k : string) : Obj V :=
  match o with
  | [] => []
  | (k', v) :: t =>
      if String.eqb k k' then (k', f v) :: t else (k', v) :: objAlter f t k
  end.

(** [o[k] = v] for a key that does not exist yet. *)
Definition objAdd (o : Obj V) (k : string) (v : V) : Obj V := o ++ [(k, v)].

(** A property key that is an array index: the canonical decimal form of
    an integer in [0, 2^32 - 2]. *)
Definition arrayIndexOf (k : string) : option Z :=
  match parseInt k with
  | Some z =>
      if (String.eqb (numberToString z) k && (0 <=? z)
          && (z <? 4294967295))%bool
      then Some z else None
  | None => None
  end.

Definition isArrayIndex (k : string) : bool :=
  match arrayIndexOf k with Some _ => true | None => false end.

Definition indexCompare (a b : string) : Z :=
  match arrayIndexOf a, arrayIndexOf b with
  | Some x, Some y => x - y
  | _, _ => 0
  end.

(** [Object.keys(o)]: array-index keys in ascending numeric order, then the
    other keys in insertion order. *)
Definition objKeys (o : Obj V) : list string :=
  let ks := map fst o in
  sort indexCompare (List.filter isArrayIndex ks)
    ++ List.filter (fun k => negb (isArrayIndex k)) ks.
End Obj.

End Js.

(** ** Data model *)

(** A release as reported by a registry.  The version may be missing or not
    a string at all ([None]); it may be the empty string. *)
Record Release := mkRelease {
  version : option string;
  releaseTimestamp : option string
}.

(** [ReleaseResult]: [releases] may be [undefined]. *)
Record ReleaseResult := mkReleaseResult {
  releases : option (list Release)
}.

(** The argument of the datasource lookup. *)
Record GetPkgReleasesConfig := mkLookup {
  lookupDatasource : string;
  lookupPackageName : string;
  lookupVersioning : string
}.

(** A thrown error object, with the properties [isRetryableError] reads. *)
Record JsError := mkError {
  code : option string;
  statusCode : option Z;
  name : option string;
  message : option string;
  type : option string
}.

(** A thrown value: an error object, or [undefined]. *)
Inductive Thrown :=
| ThrownUndefined
| ThrownError (e : JsError).

(** The [TypeError] of a property read on [undefined]. *)
Definition typeError : JsError :=
  {| code := None; statusCode := None; name := Some "TypeError";
     message := Some "Cannot read properties of undefined"; type := None |}.

(** The double quote character, for messages. *)
Definition dquote : string := String "034"%char EmptyString.

(** The outcome of a call: a value, or a thrown value (a rejected promise). *)
Inductive Result (A : Type) :=
| Ok (a : A)
| Throw (t : Thrown).
Arguments Ok {A} a.
Arguments Throw {A} t.

(** [new RegistryFetchError(originalError, datasource, packageName)] of
    [lib/types/errors/n-minus-one-errors.ts].  The message is built from
    [originalError.message]: a property read, which throws when the value
    caught is [undefined]. *)
Definition newRegistryFetchError (originalError : Thrown)
    (datasource packageName : option string) : Result JsError :=
  match originalError with
  | ThrownUndefined => Throw (ThrownError typeError)
  | ThrownError e =>
      Ok {| code := None; statusCode := None; name := Some "Error";
            message :=
              Some ("Failed to fetch registry data" +:+
                    (if Js.truthyOptStr packageName
                     then " for package " +:+ dquote +:+ Js.tmplStr packageName
                          +:+ dquote
                     else EmptyString) +:+
                    (if Js.truthyOptStr datasource
                     then " from datasource " +:+ dquote
                          +:+ Js.tmplStr datasource +:+ dquote
                     else EmptyString) +:+
                    ": " +:+ Js.tmplStr (message e));
            type := None |}
  end.

(** ** The world: clock, memory cache, and what happened so far *)

Record CacheEntry := mkEntry {
  value : ReleaseResult;
  expiresAt : Z
}.

Record World := mkWorld {
  now : Z;                                   (* milliseconds *)
  cache : gmap (string * string) CacheEntry; (* namespace, key *)
  calls : list GetPkgReleasesConfig;         (* datasource lookups made *)
  sleeps : list Z                            (* delays waited, in order *)
}.

(** An asynchronous computation. *)
Definition M (A : Type) : Type := World -> Result A * World.

Definition ret {A} (a : A) : M A := fun w => (Ok a, w).
Definition throw {A} (t : Thrown) : M A := fun w => (Throw t, w).
Definition bind {A B} (m : M A) (k : A -> M B) : M B :=
  fun w => match m w with
           | (Ok a, w1) => k a w1
           | (Throw t, w1) => (Throw t, w1)
           end.
(** [try { m } catch (error) { h error }] *)
Definition tryCatch {A} (m : M A) (h : Thrown -> M A) : M A :=
  fun w => match m w with
           | (Ok a, w1) => (Ok a, w1)
           | (Throw t, w1) => h t w1
           end.

Notation "'let*' x ':=' m 'in' k" := (bind m (fun x => k))
  (at level 10, x name, m at level 100, k at level 200).

(** Modelled from the spec: the memory cache [util/cache/memory] is not among
    the sources.  It is a key to release-set store with a time-to-live: an
    entry is created by [set], read until [expiresAt], then treated as
    absent. *)
Module memCache.
Definition get (ns key : string) : M (option ReleaseResult) :=
  fun w =>
    (Ok match cache w !! (ns, key) with
        | Some e => if now w <? expiresAt e then Some (value e) else None
        | None => None
        end, w).

Definition set (ns key : string) (v : ReleaseResult) (ttlMinutes : Z) : M unit :=
  fun w =>
    (Ok tt,
     {| now := now w;
        cache := <[(ns, key) := {| value := v;
                                   expiresAt := now w + ttlMinutes * 60000 |}]>
                   (cache w);
        calls := calls w;
        sleeps := sleeps w |}).
End memCache.

(** ** [lib/util/registry.ts] *)

Record RetryConfig := mkRetry {
  maxAttempts : option Z;
  initialDelay : option Z;
  maxDelay : option Z;
  backoffMultiplier : option Z
}.

Definition DEFAULT_maxAttempts : Z := 3.
Definition DEFAULT_initialDelay : Z := 1000.
Definition DEFAULT_maxDelay : Z := 30000.
Definition DEFAULT_backoffMultiplier : Z := 2.

Definition RETRYABLE_ERROR_CODES : list string :=
  ["ECONNRESET"; "ETIMEDOUT"; "ENOTFOUND"; "ECONNREFUSED"; "EHOSTUNREACH";
   "ENETUNREACH"; "EADDRINUSE"; "ECONNABORTED"; "EPIPE"].

Definition RETRYABLE_STATUS_CODES : list Z := [408; 429; 500; 502; 503; 504].

Definition optStrIs (o : option string) (s : string) : bool :=
  match o with Some x => String.eqb x s | None => false end.

(** [isRetryableError] on an error object. *)
Definition isRetryableObject (error : JsError) : bool :=
  if (Js.truthyOptStr (code error) &&
      match code error with
      | Some c => Js.arrIncludesStr RETRYABLE_ERROR_CODES c
      | None => false
      end)%bool then true
  else if (Js.truthyOptNum (statusCode error) &&
           match statusCode error with
           | Some n => Js.arrIncludesNum RETRYABLE_STATUS_CODES n
           | None => false
           end)%bool then true
  else if (optStrIs (name error) "TimeoutError" ||
           match message error with
           | Some m => Js.includes "timeout" m
           | None => false
           end)%bool then true
  else if (optStrIs (name error) "NetworkError" ||
           optStrIs (type error) "network")%bool then true
  else false.

(** [isRetryableError(error: any)]: reading [error.code] of [undefined]
    throws. *)
Definition isRetryableError (error : Thrown) : Result bool :=
  match error with
  | ThrownUndefined => Throw (ThrownError typeError)
  | ThrownError e => Ok (isRetryableObject e)
  end.

(** [sleep(ms)]: the clock advances and the delay is recorded. *)
Definition sleep (ms : Z) : M unit :=
  fun w => (Ok tt, {| now := now w + Z.max 0 ms; cache := cache w;
                      calls := calls w; sleeps := sleeps w ++ [ms] |}).

Section Retry.
Context {T : Type}.
Variable fn : M T.
Variable config : option RetryConfig.

Definition cfgMaxAttempts : Z :=
  default DEFAULT_maxAttempts (c ← config; maxAttempts c).
Definition cfgInitialDelay : Z :=
  default DEFAULT_initialDelay (c ← config; initialDelay c).
Definition cfgMaxDelay : Z :=
  default DEFAULT_maxDelay (c ← config; maxDelay c).
Definition cfgBackoffMultiplier : Z :=
  default DEFAULT_backoffMultiplier (c ← config; backoffMultiplier c).

(** The delay waited after the failed attempt number [attempt]. *)
Definition delayAfter (attempt : Z) : Z :=
  Z.min (cfgInitialDelay * cfgBackoffMultiplier ^ (attempt - 1)) cfgMaxDelay.

(** The [for] loop, entered with [attempt]; [remaining] counts the
    iterations left, [maxAttempts - attempt + 1].  When none is left the
    loop exits and [lastError] is thrown. *)
Fixpoint retryLoop (remaining : nat) (attempt : Z) (lastError : Thrown)
  : M T :=
  match remaining with
  | O => throw lastError
  | S r =>
      tryCatch fn (fun error =>
        match isRetryableError error with
        | Throw t => throw t
        | Ok retryable =>
            if (negb retryable || (attempt =? cfgMaxAttempts))%bool
            then throw error
            else let* _ := sleep (delayAfter attempt) in
                 retryLoop r (attempt + 1) error
        end)
  end.

Definition retryWithExponentialBackoff : M T :=
  retryLoop (Z.to_nat cfgMaxAttempts) 1 ThrownUndefined.
End Retry.

(** The datasource behind the registry ([modules/datasource] is not among the
    sources): what the [n]-th lookup overall answers for a given request. *)
Definition Datasource : Type :=
  nat -> GetPkgReleasesConfig -> Result (option ReleaseResult).

Section Registry.
Variable datasource : Datasource.

(** [getPkgReleases(config)] of the datasource module: one lookup. *)
Definition getPkgReleases (c : GetPkgReleasesConfig)
  : M (option ReleaseResult) :=
  fun w => (datasource (length (calls w)) c,
            {| now := now w; cache := cache w;
               calls := calls w ++ [c]; sleeps := sleeps w |}).

(** [registry.getPkgReleases(config, retryConfig)].  Called without a
    configuration object, building the log context reads
    [config.datasource] of [undefined]. *)
Definition registry_getPkgReleases (c : option GetPkgReleasesConfig)
    (retryConfig : option RetryConfig) : M (option ReleaseResult) :=
  match c with
  | None => throw (ThrownError typeError)
  | Some c => retryWithExponentialBackoff (getPkgReleases c) retryConfig
  end.
End Registry.

(** ** [lib/modules/versioning/index.ts] *)

(** The versioning capability ([./types] is not among the sources; the
    signatures are those of the specification's interface section, plus
    [isVersion], which the grouping code calls).  [isValid] may throw: the
    filter guards it with [try]/[catch]. *)
Record VersioningApi := mkApi {
  isValid : string -> Result bool;
  isVersion : string -> bool;
  isStable : string -> bool;
  sortVersions : string -> string -> Z;
  getMajor : string -> Z;
  getMinor : string -> Z;
  getPatch : string -> Z
}.

Record Constraints := mkConstraints {
  allowedVersions : option string;
  offset : option Z;
  offsetLevel : option string;
  ignorePrerelease : option bool
}.

Record Config := mkConfig {
  datasource : option string;
  packageName : option string;
  versioning : string;
  constraints : option Constraints
}.

Record GetNewValueConfig := mkArgs {
  currentValue : string;
  rangeStrategy : string;
  currentVersion : string;
  config : Config
}.

(** [defaultVersioning.id] *)
Definition defaultVersioningId : string := "semver-coerced".

(** The error [get] throws; none of its properties is read by the code. *)
Definition unknownVersioning (id : string) : JsError :=
  {| code := None; statusCode := None; name := Some "Error";
     message := Some id; type := None |}.

(** Modelled from the spec: [Versioning.safeParse] ([./schema] is not among
    the sources) succeeds exactly on the registered scheme ids; a request for
    an unregistered id is a hard failure. *)
Definition get (versionings : gmap string VersioningApi)
    (versioning : option string) : Result VersioningApi :=
  let id := default defaultVersioningId versioning in
  match versionings !! id with
  | Some api => Ok api
  | None => Throw (ThrownError (unknownVersioning id))
  end.

Definition Groups : Type := Js.Obj (list string).

Section Grouping.
Variable versioning : VersioningApi.

(** The key of a version at a level; [None] is the [continue] of an
    unknown level. *)
Definition groupKeyOf (level : string) (version : string) : option string :=
  let major := getMajor versioning version in
  if String.eqb level "major" then Some (Js.numberToString major)
  else
    let minor := getMinor versioning version in
    if String.eqb level "minor"
    then Some (Js.numberToString major +:+ "." +:+ Js.numberToString minor)
    else if String.eqb level "patch"
    then let patch := getPatch versioning version in
         Some (Js.numberToString major +:+ "." +:+ Js.numberToString minor
               +:+ "." +:+ Js.numberToString patch)
    else None.

(** [if (!groups[groupKey]) groups[groupKey] = []; groups[groupKey].push(version)] *)
Definition pushVersion (groups : Groups) (groupKey version : string) : Groups :=
  match Js.objGet groups groupKey with
  | Some _ => Js.objAlter (fun members => members ++ [version]) groups groupKey
  | None => Js.objAdd groups groupKey [version]
  end.

(** One iteration of the loop over [versions]. *)
Definition groupStep (level : string) (groups : Groups) (version : string)
  : Groups :=
  if negb (isVersion versioning version) then groups
  else match groupKeyOf level version with
       | Some groupKey => pushVersion groups groupKey version
       | None => groups
       end.

Definition sortGroup (members : list string) : list string :=
  if (1 <? Z.of_nat (length members))
  then Js.sort (sortVersions versioning) members
  else members.

Definition groupVersionsBySemverLevel (versions : list string)
    (level : string) : Groups :=
  match versions with
  | [] => []
  | _ =>
      let groups := fold_left (groupStep level) versions [] in
      map (fun kv => (fst kv, sortGroup (snd kv))) groups
  end.

(** [groups[k][groups[k].length - 1]] *)
Definition latestOf (groups : Groups) (k : string) : option string :=
  members ← Js.objGet groups k; last members.

(** The comparator of the group keys.  Every key compared comes from
    [Object.keys(groups)] and every group is non-empty, so both latest
    members are defined (lemma [latestOf_defined]). *)
Definition compareGroups (groups : Groups) (a b : string) : Z :=
  match latestOf groups a, latestOf groups b with
  | Some aLatest, Some bLatest => sortVersions versioning aLatest bLatest
  | _, _ => 0
  end.

Definition sameMajor (currentMajor : Z) (key : string) : bool :=
  let parts := Js.splitDot key in
  Js.numStrictEq (Js.parseIntOpt (parts !! 0%nat)) currentMajor.

Definition sameMajorMinor (currentMajor currentMinor : Z) (key : string)
  : bool :=
  let parts := Js.splitDot key in
  (Js.numStrictEq (Js.parseIntOpt (parts !! 0%nat)) currentMajor &&
   Js.numStrictEq (Js.parseIntOpt (parts !! 1%nat)) currentMinor)%bool.

Definition filterGroupKeys (level currentVersion : string)
    (groupKeys : list string) : list string :=
  if String.eqb level "minor" then
    let currentMajor := getMajor versioning currentVersion in
    List.filter (sameMajor currentMajor) groupKeys
  else if String.eqb level "patch" then
    let currentMajor := getMajor versioning currentVersion in
    let currentMinor := getMinor versioning currentVersion in
    List.filter (sameMajorMinor currentMajor currentMinor) groupKeys
  else groupKeys.

(** The result is [None] for [null], and for the [undefined] that an empty
    target group would give. *)
Definition getVersionFromSemverGroups (groups : Groups) (offset : Z)
    (level currentVersion : string) : option string :=
  let groupKeys := Js.sort (compareGroups groups) (Js.objKeys groups) in
  if Z.of_nat (length groupKeys) =? 0 then None
  else
    let filteredGroupKeys := filterGroupKeys level currentVersion groupKeys in
    if Z.of_nat (length filteredGroupKeys) =? 0 then None
    else
      let targetGroupIndex := Z.of_nat (length filteredGroupKeys) - 1 + offset in
      if ((targetGroupIndex <? 0) ||
          (Z.of_nat (length filteredGroupKeys) <=? targetGroupIndex))%bool
      then None
      else
        key ← filteredGroupKeys !! Z.to_nat targetGroupIndex;
        latestOf groups key.
End Grouping.

Section GetNewValue.
(** The registered schemes ([./api] is not among the sources). *)
Variable versionings : gmap string VersioningApi.
(** The imported [registry] object, called with one argument or, in the
    compatibility branch, with none. *)
Variable registry : option GetPkgReleasesConfig -> M (option ReleaseResult).

Definition cacheNamespace : string := "n-minus-one-versions".

Definition cacheKeyOf (c : Config) : string :=
  Js.tmplStr (datasource c) +:+ "-" +:+ Js.tmplStr (packageName c)
    +:+ "-" +:+ versioning c.

(** [versions?.releases?.length], as a truth value. *)
Definition hasReleases (versions : option ReleaseResult) : bool :=
  match versions ≫= releases with
  | Some (_ :: _) => true
  | _ => false
  end.

(** The first two checks; [true] is the early [return currentValue]. *)
Definition offsetRejected (c : Config) : bool :=
  match constraints c ≫= offset with
  | Some o => 0 <? o
  | None => false
  end.

Definition offsetLevelRejected (c : Config) : bool :=
  match constraints c ≫= offsetLevel with
  | Some l =>
      (Js.truthyStr l && negb (Js.arrIncludesStr ["major"; "minor"; "patch"] l))%bool
  | None => false
  end.

(** The request object [{ datasource, packageName, versioning }]. *)
Definition lookupOf (c : Config) : GetPkgReleasesConfig :=
  {| lookupDatasource := Js.tmplStr (datasource c);
     lookupPackageName := Js.tmplStr (packageName c);
     lookupVersioning := versioning c |}.

(** The body of the [try] block. *)
Definition fetchVersions (c : Config) : M (option ReleaseResult) :=
  let cacheKey := cacheKeyOf c in
  if (negb (Js.truthyOptStr (datasource c)) ||
      negb (Js.truthyOptStr (packageName c)))%bool
  then registry None
  else
    let* cachedVersions := memCache.get cacheNamespace cacheKey in
    match cachedVersions with
    | Some cached => ret (Some cached)
    | None =>
        let* versions := registry (Some (lookupOf c)) in
        match versions with
        | Some v =>
            if hasReleases versions
            then let* _ := memCache.set cacheNamespace cacheKey v 15 in
                 ret versions
            else ret versions
        | None => ret versions
        end
    end.

(** The callback of the first [filter], with its [try]/[catch]. *)
Definition keepVersion (api : VersioningApi) (version : option string) : bool :=
  match version with
  | None => false
  | Some v =>
      if negb (Js.truthyStr v) then false
      else match isValid api v with
           | Ok valid => valid
           | Throw _ => false
           end
  end.

(** [releases.map(r => r.version).filter(...)], then the pre-release
    filter unless [ignorePrerelease] is [false]. *)
Definition filterVersions (api : VersioningApi) (c : Config)
    (rels : list Release) : list string :=
  let filteredVersions :=
    omap (fun v => if keepVersion api v then v else None) (map version rels) in
  let ignorePre :=
    match constraints c ≫= ignorePrerelease with
    | Some false => false
    | _ => true
    end in
  if ignorePre then List.filter (isStable api) filteredVersions
  else filteredVersions.

Definition sortedVersionsOf (api : VersioningApi) (c : Config)
    (rels : list Release) : list string :=
  Js.sort (sortVersions api) (filterVersions api c rels).

(** Everything after the [try] block.  [None] is [undefined]. *)
Definition selectVersion (api : VersioningApi) (a : GetNewValueConfig)
    (versions : option ReleaseResult) : option string :=
  let c := config a in
  if negb (hasReleases versions) then Some (currentValue a)
  else
    let rels := default [] (versions ≫= releases) in
    let filteredVersions := filterVersions api c rels in
    if Z.of_nat (length filteredVersions) =? 0 then Some (currentValue a)
    else
      let sortedVersions := Js.sort (sortVersions api) filteredVersions in
      if Z.of_nat (length sortedVersions) =? 0 then Some (currentValue a)
      else
        let offset := default 0 (constraints c ≫= offset) in
        let offsetLevel := constraints c ≫= offsetLevel in
        if offset =? 0 then last sortedVersions
        else if (Js.truthyOptStr offsetLevel && negb (offset =? 0))%bool then
          let level := Js.tmplStr offsetLevel in
          let groups := groupVersionsBySemverLevel api sortedVersions level in
          let result :=
            getVersionFromSemverGroups api groups offset level
              (currentVersion a) in
          match result with
          | Some r => if Js.truthyStr r then Some r else Some (currentValue a)
          | None => Some (currentValue a)
          end
        else
          let targetIndex := Z.of_nat (length sortedVersions) - 1 + offset in
          if ((targetIndex <? 0) ||
              (Z.of_nat (length sortedVersions) <=? targetIndex))%bool
          then Some (currentValue a)
          else sortedVersions !! Z.to_nat targetIndex.

Definition getNewValue (a : GetNewValueConfig) : M (option string) :=
  let c := config a in
  match get versionings (Some (versioning c)) with
  | Throw t => throw t
  | Ok api =>
      if offsetRejected c then ret (Some (currentValue a))
      else if offsetLevelRejected c then ret (Some (currentValue a))
      else
        fun w =>
          match fetchVersions c w with
          | (Throw error, w1) =>
              match newRegistryFetchError error (datasource c) (packageName c)
              with
              | Throw t => (Throw t, w1)
              | Ok registryError => (Ok (Some (currentValue a)), w1)
              end
          | (Ok versions, w1) => (Ok (selectVersion api a versions), w1)
          end
  end.
End GetNewValue.

(** The [registry] object of [lib/util/registry.ts], as [getNewValue] calls
    it: without a retry configuration. *)
Definition realRegistry (ds : Datasource)
    : option GetPkgReleasesConfig → M (option ReleaseResult) :=
  fun c => registry_getPkgReleases ds c None.

(** [getNewValue] over that registry. *)
Definition getNewValueWith (versionings : gmap string VersioningApi)
    (ds : Datasource) : GetNewValueConfig -> M (option string) :=
  getNewValue versionings (realRegistry ds).

(** The placeholder registry of the second [lib/util/registry.ts]: it
    resolves to a result without releases. *)
Definition stubRegistry
  : option GetPkgReleasesConfig → M (option ReleaseResult) :=
  fun _ => ret (Some {| releases := Some [] |}).

(** ** Values of type [unknown] *)

(** A JavaScript number: a finite double, known by the rational it denotes,
    or one of the three values that are not finite. *)
Inductive JsNumber :=
| Finite (q : Q)
| NaN
| PosInfinity
| NegInfinity.

(** A value as a configuration file gives it.  An object is the list of its
    own properties. *)
#[warnings="-register-all"]
Inductive JsValue :=
| JUndefined
| JNull
| JBool (b : bool)
| JNum (n : JsNumber)
| JStr (s : string)
| JArr (items : list JsValue)
| JObj (fields : list (string * JsValue)).

(** [Number.isInteger(n)] *)
Definition isInteger (n : JsNumber) : bool :=
  match n with
  | Finite q => Qeq_bool q (inject_Z (Qfloor q))
  | _ => false
  end.

(** [n > bound], for an integer bound. *)
Definition greaterThan (bound : Z) (n : JsNumber) : bool :=
  match n with
  | Finite q => negb (Qle_bool q (inject_Z bound))
  | PosInfinity => true
  | NegInfinity | NaN => false
  end.

(** [n === 0] *)
Definition isZero (n : JsNumber) : bool :=
  match n with Finite q => Qeq_bool q 0 | _ => false end.

(** Truthiness of a value. *)
Definition truthy (v : JsValue) : bool :=
  match v with
  | JUndefined | JNull => false
  | JBool b => b
  | JNum NaN => false
  | JNum n => negb (isZero n)
  | JStr s => Js.truthyStr s
  | JArr _ | JObj _ => true
  end.

(** [o[k]], which is [undefined] for a property that [o] does not have. *)
Definition getProp (fields : list (string * JsValue)) (k : string) : JsValue :=
  default JUndefined (Js.objGet fields k).

(** [k in o] *)
Definition hasProp (fields : list (string * JsValue)) (k : string) : bool :=
  match Js.objGet fields k with Some _ => true | None => false end.

(** [v !== undefined] *)
Definition defined (v : JsValue) : bool :=
  match v with JUndefined => false | _ => true end.

(** ** The part of zod that the schemas use

    A schema is known by its [safeParse]: [Some data] when the value is
    accepted, [None] when it is not.  The issues of a [ZodError] are not
    modelled. *)

Definition Schema : Type := JsValue → option JsValue.

(** [z.string()] *)
Definition zString : Schema :=
  fun v => match v with JStr _ => Some v | _ => None end.

(** [z.boolean()] *)
Definition zBoolean : Schema :=
  fun v => match v with JBool _ => Some v | _ => None end.

(** [z.number()] followed by checks such as [.int()] and [.max(0)]: the
    value is a number other than [NaN] and passes every check. *)
Definition zNumber (checks : list (JsNumber → bool)) : Schema :=
  fun v =>
    match v with
    | JNum NaN => None
    | JNum n => if forallb (fun check => check n) checks then Some v else None
    | _ => None
    end.

(** [.int()] *)
Definition zInt : JsNumber → bool := isInteger.

(** [.max(bound)] *)
Definition zMax (bound : Z) : JsNumber → bool :=
  fun n => negb (greaterThan bound n).

(** [z.enum([...])] *)
Definition zEnum (values : list string) : Schema :=
  fun v =>
    match v with
    | JStr s => if Js.arrIncludesStr values s then Some v else None
    | _ => None
    end.

(** [.optional()] *)
Definition zOptional (s : Schema) : Schema :=
  fun v => match v with JUndefined => Some JUndefined | _ => s v end.

(** [.nullable()] *)
Definition zNullable (s : Schema) : Schema :=
  fun v => match v with JNull => Some JNull | _ => s v end.

(** [z.array(s)] *)
Definition zArray (s : Schema) : Schema :=
  fun v =>
    match v with
    | JArr items => items' ← mapM s items; Some (JArr items')
    | _ => None
    end.

(** [z.union([s1, s2])]: the first option that accepts the value. *)
Definition zUnion (s1 s2 : Schema) : Schema :=
  fun v => match s1 v with Some d => Some d | None => s2 v end.

(** What an object schema does with the keys it does not declare:
    [z.object(...)] drops them, [.strict()] rejects them, [.passthrough()]
    keeps them. *)
Inductive UnknownKeys := Strip | Strict | Passthrough.

Definition Shape : Type := list (string * Schema).

(** The parse of one declared property.  The property is part of the data
    when the object has it or its parsed value is defined. *)
Definition parseProp (fields : list (string * JsValue))
    (ks : string * Schema) : option (option (string * JsValue)) :=
  d ← ks.2 (getProp fields ks.1);
  Some (if (hasProp fields ks.1 || defined d)%bool
        then Some (ks.1, d) else None).

Definition parseShape (shape : Shape) (fields : list (string * JsValue))
  : option (list (string * JsValue)) :=
  props ← mapM (parseProp fields) shape; Some (omap id props).

(** The properties whose keys the shape does not declare. *)
Definition unknownProps (shape : Shape) (fields : list (string * JsValue))
  : list (string * JsValue) :=
  List.filter (fun kv => negb (Js.arrIncludesStr (map fst shape) kv.1)) fields.

(** [z.object(shape)], with its policy for unknown keys. *)
Definition zObject (unknownKeys : UnknownKeys) (shape : Shape) : Schema :=
  fun v =>
    match v with
    | JObj fields =>
        data ← parseShape shape fields;
        match unknownKeys with
        | Strip => Some (JObj data)
        | Strict =>
            match unknownProps shape fields with
            | [] => Some (JObj data)
            | _ => None
            end
        | Passthrough => Some (JObj (data ++ unknownProps shape fields))
        end
    | _ => None
    end.

(** [.refine(check, ...)]: the check runs on the parsed data. *)
Definition zRefine (s : Schema) (check : JsValue → bool) : Schema :=
  fun v => d ← s v; if check d then Some d else None.

(** [data.key] *)
Definition prop (data : JsValue) (k : string) : JsValue :=
  match data with JObj fields => getProp fields k | _ => JUndefined end.

(** ** [lib/modules/versioning/constraints-schema.ts] *)

(** [data.offset === 0] *)
Definition strictlyZero (v : JsValue) : bool :=
  match v with JNum n => isZero n | _ => false end.

(** The callback of [.refine]: an [offsetLevel] needs an offset other than
    zero. *)
Definition levelHasOffset (data : JsValue) : bool :=
  if (truthy (prop data "offsetLevel") &&
      (negb (truthy (prop data "offset"))
       || strictlyZero (prop data "offset")))%bool
  then false else true.

Definition ConstraintsSchema : Schema :=
  zRefine
    (zObject Strict
       [("allowedVersions", zOptional zString);
        ("offset", zOptional (zNumber [zInt; zMax 0]));
        ("offsetLevel", zOptional (zEnum ["major"; "minor"; "patch"]));
        ("ignorePrerelease", zOptional zBoolean)])
    levelHasOffset.

(** A [ZodError]; its issues are not modelled. *)
Inductive ZodError := zodError.

(** [{ success, data?, error? }] *)
Record Validated := mkValidated {
  success : bool;
  data : option JsValue;
  error : option ZodError
}.

(** [schema.safeParse(v)], repackaged as the two functions do. *)
Definition repackage (result : option JsValue) : Validated :=
  match result with
  | Some d => {| success := true; data := Some d; error := None |}
  | None => {| success := false; data := None; error := Some zodError |}
  end.

Definition validateConstraints (constraints : JsValue) : Validated :=
  repackage (ConstraintsSchema constraints).

(** ** [lib/config/schemas/n-minus-one-schema.ts] *)

Definition ConstraintsConfigSchema : Schema :=
  zRefine
    (zObject Strict
       [("allowedVersions", zOptional zString);
        ("offset", zOptional (zNumber [zInt; zMax 0]));
        ("offsetLevel", zOptional (zEnum ["major"; "minor"; "patch"]));
        ("ignorePrerelease", zOptional zBoolean)])
    levelHasOffset.

(** [z.union([z.string(), z.array(z.string())]).optional()] *)
Definition stringOrStrings : Schema :=
  zOptional (zUnion zString (zArray zString)).

(** [z.array(z.string()).optional()] *)
Definition strings : Schema := zOptional (zArray zString).

(** The properties that [PackageRuleSchema] declares. *)
Definition packageRuleShape : Shape :=
    [("matchPackageNames", stringOrStrings);
     ("matchDepNames", stringOrStrings);
     ("matchPackagePatterns", stringOrStrings);
     ("matchDepPatterns", stringOrStrings);
     ("matchCurrentVersion", zOptional zString);
     ("matchCurrentValue", zOptional zString);
     ("matchDatasources", strings);
     ("matchCategories", strings);
     ("matchDepTypes", strings);
     ("matchFiles", strings);
     ("matchPaths", strings);
     ("matchSourceUrls", strings);
     ("matchUpdateTypes",
      zOptional (zArray (zEnum ["major"; "minor"; "patch"; "pin"; "digest";
                                "lockFileMaintenance"; "rollback"; "bump";
                                "replacement"])));
     ("matchConfidence",
      zOptional (zArray (zEnum ["low"; "neutral"; "high"; "very high"])));
     ("matchManagers", strings);
     ("matchLanguages", strings);
     ("matchBaseBranches", strings);
     ("matchFileNames", strings);
     ("constraints", zOptional ConstraintsConfigSchema);
     ("enabled", zOptional zBoolean);
     ("automerge", zOptional zBoolean);
     ("automergeType", zOptional (zEnum ["branch"; "pr"; "pr-comment"]));
     ("rangeStrategy",
      zOptional (zEnum ["auto"; "pin"; "bump"; "replace"; "widen";
                        "update-lockfile"; "in-range-only"]));
     ("semanticCommits", zOptional (zEnum ["auto"; "enabled"; "disabled"]));
     ("semanticCommitType", zOptional zString);
     ("semanticCommitScope", zOptional (zNullable zString));
     ("recreateClosed", zOptional zBoolean);
     ("rebaseWhen",
      zOptional (zEnum ["auto"; "never"; "conflicted"; "behind-base-branch"]));
     ("groupName", zOptional zString);
     ("groupSlug", zOptional zString);
     ("schedule", stringOrStrings);
     ("prPriority", zOptional (zNumber []));
     ("labels", strings);
     ("addLabels", strings);
     ("description", strings);
     ("excludePackageNames", strings);
     ("excludePackagePatterns", strings);
     ("extends", strings)].

Definition PackageRuleSchema : Schema := zObject Strip packageRuleShape.

Definition ConfigWithPackageRulesSchema : Schema :=
  zObject Passthrough
    [("packageRules", zOptional (zArray PackageRuleSchema))].

(** [{ success, data?, errors? }] of [validatePackageRules]; an error names
    the index of its rule. *)
Record ValidatedRules := mkValidatedRules {
  rulesSuccess : bool;
  rulesData : option (list JsValue);
  rulesErrors : option (list (Z * ZodError))
}.

(** One call of the [forEach] callback. *)
Definition validateRule (acc : list (Z * ZodError) * list JsValue)
    (rule : JsValue) (index : Z) : list (Z * ZodError) * list JsValue :=
  let '(errors, validatedRules) := acc in
  match PackageRuleSchema rule with
  | Some d => (errors, validatedRules ++ [d])
  | None => (errors ++ [(index, zodError)], validatedRules)
  end.

(** [packageRules.forEach((rule, index) => ...)] from [index] on. *)
Fixpoint forEachRule (rules : list JsValue) (index : Z)
    (acc : list (Z * ZodError) * list JsValue)
  : list (Z * ZodError) * list JsValue :=
  match rules with
  | [] => acc
  | rule :: rest => forEachRule rest (index + 1) (validateRule acc rule index)
  end.

Definition validatePackageRules (packageRules : JsValue) : ValidatedRules :=
  match packageRules with
  | JArr rules =>
      let '(errors, validatedRules) := forEachRule rules 0 ([], []) in
      if 0 <? Z.of_nat (length errors)
      then {| rulesSuccess := false; rulesData := None;
              rulesErrors := Some errors |}
      else {| rulesSuccess := true; rulesData := Some validatedRules;
              rulesErrors := None |}
  | _ =>
      {| rulesSuccess := false; rulesData := None;
         rulesErrors := Some [(-1, zodError)] |}
  end.

Definition validateConstraintsInRule (constraints : JsValue) : Validated :=
  repackage (ConstraintsConfigSchema constraints).

(** ** Notions used to state the properties *)

(** The releases of a fetch result; none when the result or its list is
    missing. *)
Definition fetchedReleases (versions : option ReleaseResult) : list Release :=
  default [] (versions ≫= releases).

(** The pre-release filter is off only for an explicit [false]. *)
Definition prereleaseKept (c : Config) : Prop :=
  constraints c ≫= ignorePrerelease = Some false.

(** An offset level of the configuration type: absent, or one of the three
    levels. *)
Definition allowedLevel (level : option string) : Prop :=
  level = None ∨ level = Some "major" ∨ level = Some "minor" ∨
  level = Some "patch".

(** The configuration names a package: both strings are present and not
    empty. *)
Definition namesPackage (c : Config) : Prop :=
  Js.truthyOptStr (datasource c) = true ∧
  Js.truthyOptStr (packageName c) = true.

(** The entry of a configuration's key, if any. *)
Definition cachedFor (w : World) (c : Config) : option CacheEntry :=
  cache w !! (cacheNamespace, cacheKeyOf c).

(** The retryable conditions, as the specification lists them. *)
Definition retryable (e : JsError) : Prop :=
  (∃ c, code e = Some c ∧ c ∈ RETRYABLE_ERROR_CODES) ∨
  (∃ n, statusCode e = Some n ∧ n ∈ RETRYABLE_STATUS_CODES) ∨
  name e = Some "TimeoutError" ∨
  (∃ m, message e = Some m ∧ Js.includes "timeout" m = true) ∨
  name e = Some "NetworkError" ∨
  type e = Some "network".

(** The last outcome of a run that has [remaining] attempts left and first
    meets the retryable errors [errs]: a success, an error that is not
    retryable, or the error of the last attempt allowed. *)
Definition settles (remaining : nat) (errs : list JsError)
    (final : Result (option ReleaseResult)) : Prop :=
  match final with
  | Ok _ => True
  | Throw ThrownUndefined => False
  | Throw (ThrownError e) =>
      isRetryableObject e = false ∨ S (length errs) = remaining
  end.

(** The characters of a rendered integer: digits and the sign. *)
Definition numeralChar (c : ascii) : bool :=
  match Js.digitOf c with
  | Some _ => true
  | None => Ascii.eqb c "-"%char
  end.

Fixpoint numeral (s : string) : bool :=
  match s with
  | EmptyString => true
  | String c r => (numeralChar c && numeral r)%bool
  end.

(** A text that does not continue a run of digits. *)
Definition stopsDigits (rest : string) : Prop :=
  match rest with
  | EmptyString => True
  | String c _ => Js.digitOf c = None
  end.

(** Every member of a group is one of the versions, is accepted by
    [isVersion], and has the key of its group; no group is empty. *)
Definition groupOk (api : VersioningApi) (level : string)
    (versions : list string) (kv : string * list string) : Prop :=
  kv.2 ≠ [] ∧
  Forall (fun v => v ∈ versions ∧ isVersion api v = true ∧
                   groupKeyOf api level v = Some kv.1) kv.2.

(** [x] is not after [y]. *)
Definition leBy {A} (cmp : A → A → Z) : relation A := fun x y => cmp x y ≤ 0.

(** A comparator is consistent on a list when, on its elements, swapping the
    arguments swaps the sign and "not after" is transitive. *)
Definition consistentOn {A} (cmp : A → A → Z) (l : list A) : Prop :=
  (∀ a b, a ∈ l → b ∈ l → (cmp a b < 0 ↔ 0 < cmp b a)) ∧
  (∀ a b c, a ∈ l → b ∈ l → c ∈ l →
     cmp a b ≤ 0 → cmp b c ≤ 0 → cmp a c ≤ 0).

(** The same, as a check that runs. *)
Definition consistentCheck {A} (cmp : A → A → Z) (l : list A) : bool :=
  forallb (fun a =>
    forallb (fun b =>
      Bool.eqb (cmp a b <? 0) (0 <? cmp b a) &&
      forallb (fun c =>
        implb ((cmp a b <=? 0) && (cmp b c <=? 0)) (cmp a c <=? 0)) l) l) l.

(** Equal versions have equal components. *)
Definition coherentOn (api : VersioningApi) (V : list string) : Prop :=
  ∀ a b, a ∈ V → b ∈ V → sortVersions api a b = 0 →
    getMajor api a = getMajor api b ∧ getMinor api a = getMinor api b ∧
    getPatch api a = getPatch api b.

Definition coherentCheck (api : VersioningApi) (V : list string) : bool :=
  forallb (fun a =>
    forallb (fun b =>
      implb (sortVersions api a b =? 0)
        ((getMajor api a =? getMajor api b) &&
         (getMinor api a =? getMinor api b) &&
         (getPatch api a =? getPatch api b))) V) V.

(** ** Grouped selection, as the specification words it

    A second definition of the grouped selection, written from the
    sentences of the specification (sections 4.5 and 4.6), to be compared
    with [getVersionFromSemverGroups] over [groupVersionsBySemverLevel]. *)

Module GroupedSpec.

Inductive Level := Major | Minor | Patch.

Definition levelName (l : Level) : string :=
  match l with Major => "major" | Minor => "minor" | Patch => "patch" end.

Section Spec.
Variable api : VersioningApi.
Variable l : Level.

(** The key of a version: the major component alone, ["<major>.<minor>"],
    or ["<major>.<minor>.<patch>"]. *)
Definition keyAt (v : string) : string :=
  match l with
  | Major => Js.numberToString (getMajor api v)
  | Minor => Js.numberToString (getMajor api v) +:+ "." +:+
             Js.numberToString (getMinor api v)
  | Patch => Js.numberToString (getMajor api v) +:+ "." +:+
             Js.numberToString (getMinor api v) +:+ "." +:+
             Js.numberToString (getPatch api v)
  end.

(** The group of a key: the versions with that key, in the order of the
    ascending list [V]. *)
Definition membersOf (V : list string) (k : string) : list string :=
  List.filter (fun v => String.eqb (keyAt v) k) V.

(** The groups partition the list: one key for each key that occurs. *)
Definition keysOf (V : list string) : list string :=
  remove_dups (map keyAt V).

(** The maximal member of a group is its last one. *)
Definition maximal (V : list string) (k : string) : option string :=
  last (membersOf V k).

(** Groups are ordered by comparing their maximal members. *)
Definition compareKeys (V : list string) (a b : string) : Z :=
  match maximal V a, maximal V b with
  | Some x, Some y => sortVersions api x y
  | _, _ => 0
  end.

Definition orderedKeys (V : list string) : list string :=
  Js.sort (compareKeys V) (keysOf V).

(** At the minor level only the groups of the current major are kept, at
    the patch level only those of the current major and minor. *)
Definition sibling (cur : string) (V : list string) (k : string) : bool :=
  match l, maximal V k with
  | Major, _ => true
  | Minor, Some v => getMajor api v =? getMajor api cur
  | Patch, Some v =>
      (getMajor api v =? getMajor api cur) &&
      (getMinor api v =? getMinor api cur)
  | _, None => false
  end.

(** The group at index [groupCount - 1 + offset] of the filtered key list
    gives its maximal member; an empty list or an index out of range gives no
    selection. *)
Definition select (o : Z) (cur : string) (V : list string) : option string :=
  let ks := List.filter (sibling cur V) (orderedKeys V) in
  let index := Z.of_nat (length ks) - 1 + o in
  if ((index <? 0) || (Z.of_nat (length ks) <=? index))%bool then None
  else k ← ks !! Z.to_nat index; maximal V k.
End Spec.

End GroupedSpec.

(** The versions that are grouped. *)
Definition grouped (api : VersioningApi) (V : list string) : list string :=
  List.filter (isVersion api) V.

(** A group exists when it has a member. *)
Definition nonempty (m : list string) : option (list string) :=
  match m with [] => None | _ => Some m end.

(** The time spent in [sleep] for a list of delays: a negative delay does
    not wait. *)
Definition totalWait (delays : list Z) : Z :=
  fold_right (fun d acc => Z.max 0 d + acc) 0 delays.

(** The outcome of a run whose last lookup answered [answer]: the answer
    itself, except that a rejection with [undefined] surfaces as the
    [TypeError] of reading [error.code]. *)
Definition surfaced (answer : Result (option ReleaseResult))
  : Result (option ReleaseResult) :=
  match answer with
  | Throw ThrownUndefined => Throw (ThrownError typeError)
  | _ => answer
  end.

(** The same arguments with another offset. *)
Definition withOffset (o : Z) (a : GetNewValueConfig) : GetNewValueConfig :=
  let c := config a in
  {| currentValue := currentValue a; rangeStrategy := rangeStrategy a;
     currentVersion := currentVersion a;
     config :=
       {| datasource := datasource c; packageName := packageName c;
          versioning := versioning c;
          constraints :=
            Some {| allowedVersions := constraints c ≫= allowedVersions;
                    offset := Some o;
                    offsetLevel := constraints c ≫= offsetLevel;
                    ignorePrerelease := constraints c ≫= ignorePrerelease |}
       |} |}.

(** The same arguments for another current version. *)
Definition withCurrentVersion (cur : string) (a : GetNewValueConfig)
  : GetNewValueConfig :=
  {| currentValue := currentValue a; rangeStrategy := rangeStrategy a;
     currentVersion := cur; config := config a |}.

(** What the sibling filters read of the current version: its major at the
    minor level, its major and its minor at the patch level, nothing
    otherwise. *)
Definition anchorOf (api : VersioningApi) (level : option string)
    (cur : string) : option Z * option Z :=
  match level with
  | Some l =>
      if String.eqb l "minor" then (Some (getMajor api cur), None)
      else if String.eqb l "patch"
      then (Some (getMajor api cur), Some (getMinor api cur))
      else (None, None)
  | None => (None, None)
  end.

(** Only identical versions compare as equal. *)
Definition strictOn {A} (cmp : A → A → Z) (l : list A) : Prop :=
  ∀ a b, a ∈ l → b ∈ l → cmp a b = 0 → a = b.

Definition strictCheck (cmp : string → string → Z) (l : list string) : bool :=
  forallb (fun a =>
    forallb (fun b => implb (cmp a b =? 0) (String.eqb a b)) l) l.

(** The constraints that [getNewValue] reads in validated data: the
    properties by name, an integer offset as the integer it denotes. *)
Definition constraintsOf (data : JsValue) : Constraints :=
  {| allowedVersions :=
       match prop data "allowedVersions" with JStr s => Some s | _ => None end;
     offset :=
       match prop data "offset" with
       | JNum (Finite q) => Some (Qfloor q)
       | _ => None
       end;
     offsetLevel :=
       match prop data "offsetLevel" with JStr s => Some s | _ => None end;
     ignorePrerelease :=
       match prop data "ignorePrerelease" with
       | JBool b => Some b
       | _ => None
       end |}.

(** The object that carries given constraints: one property for each
    field that is present, an integer offset as the number it is. *)
Definition objectOf (cs : Constraints) : JsValue :=
  JObj (omap id
    [(fun s => ("allowedVersions", JStr s)) <$> allowedVersions cs;
     (fun o => ("offset", JNum (Finite (inject_Z o)))) <$> offset cs;
     (fun l => ("offsetLevel", JStr l)) <$> offsetLevel cs;
     (fun b => ("ignorePrerelease", JBool b)) <$> ignorePrerelease cs]).

(** A schema that returns the value it accepts. *)
Definition faithful (s : Schema) : Prop := ∀ v d, s v = Some d → d = v.

(** The keys that [ConstraintsSchema] declares. *)
Definition constraintKeys : list string :=
  ["allowedVersions"; "offset"; "offsetLevel"; "ignorePrerelease"].

(** ** A concrete scheme for the scenarios *)

(** Modelled from the spec: the semver scheme ([./semver] is not among the
    sources).  A version is [major.minor.patch], optionally followed by
    [-] and a pre-release tag; it is stable when it has no tag; versions are
    ordered by their components, a pre-release before its release. *)
Module Semver.
Fixpoint allDigits (s : string) : bool :=
  match s with
  | EmptyString => true
  | String c r =>
      match Js.digitOf c with Some _ => allDigits r | None => false end
  end.

Definition number (s : string) : option Z :=
  if (Js.truthyStr s && allDigits s)%bool
  then Some (Z.of_uint (Js.takeDigits s)) else None.

(** The text before the first [-], and the text after it if any. *)
Fixpoint cutTag (s : string) : string * option string :=
  match s with
  | EmptyString => (EmptyString, None)
  | String c r =>
      if Ascii.eqb c "-"%char then (EmptyString, Some r)
      else let '(core, tag) := cutTag r in (String c core, tag)
  end.

Definition parse (v : string) : option (Z * Z * Z * option string) :=
  let '(core, tag) := cutTag v in
  match Js.splitDot core with
  | [a; b; c] =>
      major ← number a; minor ← number b; patch ← number c;
      Some (major, minor, patch, tag)
  | _ => None
  end.

Definition compareTags (a b : option string) : Z :=
  match a, b with
  | None, None => 0
  | None, Some _ => 1
  | Some _, None => -1
  | Some x, Some y =>
      match String.compare x y with Lt => -1 | Eq => 0 | Gt => 1 end
  end.

Definition compare (a b : string) : Z :=
  match parse a, parse b with
  | Some (ma, na, pa, ta), Some (mb, nb, pb, tb) =>
      if negb (ma =? mb) then ma - mb
      else if negb (na =? nb) then na - nb
      else if negb (pa =? pb) then pa - pb
      else compareTags ta tb
  | _, _ => 0
  end.

Definition component (f : Z * Z * Z * option string -> Z) (v : string) : Z :=
  match parse v with Some p => f p | None => 0 end.

Definition api : VersioningApi :=
  {| isValid := fun v => Ok (bool_decide (is_Some (parse v)));
     isVersion := fun v => bool_decide (is_Some (parse v));
     isStable := fun v =>
       match parse v with Some (_, _, _, None) => true | _ => false end;
     sortVersions := compare;
     getMajor := component (fun p => p.1.1.1);
     getMinor := component (fun p => p.1.1.2);
     getPatch := component (fun p => p.1.2) |}.
End Semver.

(** The registered schemes used in the scenarios. *)
Definition scenarioVersionings : gmap string VersioningApi :=
  {[ "semver" := Semver.api ]}.

Definition releasesOf (vs : list string) : ReleaseResult :=
  {| releases := Some (map (fun v => {| version := Some v;
                                         releaseTimestamp := None |}) vs) |}.

Definition emptyWorld : World :=
  {| now := 0; cache := ∅; calls := []; sleeps := [] |}.

Definition npmConfig (cs : option Constraints) : Config :=
  {| datasource := Some "npm"; packageName := Some "test-package";
     versioning := "semver"; constraints := cs |}.

Definition offsetOnly (o : Z) : Constraints :=
  {| allowedVersions := None; offset := Some o; offsetLevel := None;
     ignorePrerelease := None |}.

Definition offsetAt (o : Z) (level : string) : Constraints :=
  {| allowedVersions := None; offset := Some o; offsetLevel := Some level;
     ignorePrerelease := None |}.

(** A datasource that always answers with the same versions. *)
Definition constantDatasource (vs : list string) : Datasource :=
  fun _ _ => Ok (Some (releasesOf vs)).

Definition semverArgs (current : string) (c : Config) : GetNewValueConfig :=
  {| currentValue := current; rangeStrategy := "auto";
     currentVersion := current; config := c |}.

(** A registry that has no release for the package. *)
Definition emptyDatasource : Datasource :=
  fun _ _ => Ok (Some {| releases := Some [] |}).

Definition behindByOne : GetNewValueConfig :=
  semverArgs "1.0.0" (npmConfig (Some (offsetOnly (-1)))).

(** The world after a first resolution against the empty registry. *)
Definition afterEmptyFetch : World :=
  snd (getNewValueWith scenarioVersionings emptyDatasource behindByOne emptyWorld).

(** A scheme id that is not registered, with a positive offset. *)
Definition unregisteredAhead : GetNewValueConfig :=
  semverArgs "2.0.0"
    {| datasource := Some "npm"; packageName := Some "test-package";
       versioning := "unregistered"; constraints := Some (offsetOnly 1) |}.

(** Two packages whose keys coincide. *)
Definition collidingA : Config :=
  {| datasource := Some "a"; packageName := Some "b-c";
     versioning := "semver"; constraints := None |}.
Definition collidingB : Config :=
  {| datasource := Some "a-b"; packageName := Some "c";
     versioning := "semver"; constraints := None |}.

(** A registry with different releases for the two packages. *)
Definition perPackageDatasource : Datasource :=
  fun _ q =>
    if String.eqb (lookupPackageName q) "b-c"
    then Ok (Some (releasesOf ["1.0.0"; "2.0.0"]))
    else Ok (Some (releasesOf ["5.0.0"; "6.0.0"])).

Definition afterResolvingA : World :=
  snd (getNewValueWith scenarioVersionings perPackageDatasource
         (semverArgs "1.0.0" collidingA) emptyWorld).

(** A positive offset on a registered scheme. *)
Definition registeredAhead : GetNewValueConfig :=
  semverArgs "2.0.0" (npmConfig (Some (offsetAt 1 "major"))).

Definition threeMajors : Datasource :=
  constantDatasource ["1.0.0"; "2.0.0"; "3.0.0"].


Definition unorderedReleases : list string := ["1.0.0"; "3.0.0"; "2.1.0"].

(** An offset longer than the list, in grouped mode. *)
Definition farBehind : GetNewValueConfig :=
  semverArgs "3.0.0" (npmConfig (Some (offsetAt (-3) "major"))).

(** One behind the latest, among releases of which two are malformed. *)
Definition malformedReleases : list string :=
  ["1.0.0"; "invalid"; "2.0.0"; "not-a-version"; "3.0.0"].

(** One minor behind, within major 2. *)
Definition minorBehind : GetNewValueConfig :=
  semverArgs "2.5.0" (npmConfig (Some (offsetAt (-1) "minor"))).

Definition gappedMinors : Datasource :=
  constantDatasource ["1.0.0"; "1.1.0"; "1.3.0"; "2.0.0"; "2.2.0"; "2.5.0"].

(** A first resolution that fills the cache. *)
Definition twoReleases : ReleaseResult := releasesOf ["1.0.0"; "2.0.0"].

(** The registry times out twice, then answers. *)
Definition timedOut : JsError :=
  {| code := Some "ETIMEDOUT"; statusCode := None; name := Some "Error";
     message := Some "Request timeout"; type := None |}.

Definition flakyDatasource : Datasource :=
  fun n _ =>
    if (n <? 2)%nat then Throw (ThrownError timedOut)
    else Ok (Some twoReleases).

(** The first scenario of the specification. *)
Definition sixReleases : list string :=
  ["1.0.0"; "1.1.0"; "2.0.0"; "2.1.0"; "3.0.0"; "3.1.0"].

Definition majorBehind : GetNewValueConfig :=
  semverArgs "3.1.0" (npmConfig (Some (offsetAt (-1) "major"))).

(** A scheme whose [isValid] also accepts the range [=x.y.z], which is not
    a version. *)
Module Rangeish.
Definition parse (v : string) : option (Z * Z * Z * option string) :=
  match v with
  | String "="%char r => Semver.parse r
  | _ => Semver.parse v
  end.

Definition compare (a b : string) : Z :=
  match parse a, parse b with
  | Some (ma, na, pa, ta), Some (mb, nb, pb, tb) =>
      if negb (ma =? mb) then ma - mb
      else if negb (na =? nb) then na - nb
      else if negb (pa =? pb) then pa - pb
      else Semver.compareTags ta tb
  | _, _ => 0
  end.

Definition component (f : Z * Z * Z * option string -> Z) (v : string) : Z :=
  match parse v with Some p => f p | None => 0 end.

Definition api : VersioningApi :=
  {| isValid := fun v => Ok (bool_decide (is_Some (parse v)));
     isVersion := fun v => bool_decide (is_Some (Semver.parse v));
     isStable := fun v =>
       match parse v with Some (_, _, _, None) => true | _ => false end;
     sortVersions := compare;
     getMajor := component (fun p => p.1.1.1);
     getMinor := component (fun p => p.1.1.2);
     getPatch := component (fun p => p.1.2) |}.
End Rangeish.

Definition rangeishVersionings : gmap string VersioningApi :=
  {[ "semver" := Rangeish.api ]}.

Definition withRange : list string := ["1.0.0"; "2.0.0"; "=3.0.0"].

Definition rangeBehind : GetNewValueConfig :=
  semverArgs "=3.0.0" (npmConfig (Some (offsetAt (-1) "major"))).

(** ** Further scenarios *)

(** A retry configuration that allows no attempt. *)
Definition noAttempt : RetryConfig :=
  {| maxAttempts := Some 0; initialDelay := None; maxDelay := None;
     backoffMultiplier := None |}.

(** A datasource that rejects with [undefined]. *)
Definition rejectingDatasource : Datasource :=
  fun _ _ => Throw ThrownUndefined.

(** The request of the scenarios. *)
Definition npmLookup : GetPkgReleasesConfig := lookupOf (npmConfig None).

(** A configuration without a package name. *)
Definition unnamedBehind : GetNewValueConfig :=
  semverArgs "2.0.0"
    {| datasource := Some "npm"; packageName := None;
       versioning := "semver"; constraints := Some (offsetOnly (-1)) |}.

(** A level that is none of the three. *)
Definition microBehind : GetNewValueConfig :=
  semverArgs "2.0.0" (npmConfig (Some (offsetAt (-1) "micro"))).

(** The well-formed releases of [malformedReleases], latest first. *)
Definition shuffledReleases : list string := ["3.0.0"; "1.0.0"; "2.0.0"].

(** A current version whose major has no release. *)
Definition orphanBehind : GetNewValueConfig :=
  semverArgs "9.0.0" (npmConfig (Some (offsetAt (-1) "minor"))).

(** Constraints as a configuration file gives them. *)
Definition twoMajorsBehind : JsValue :=
  JObj [("offset", JNum (Finite (inject_Z (-2))));
        ("offsetLevel", JStr "major");
        ("ignorePrerelease", JBool true)].

(** The same, with the properties in another order. *)
Definition twoMajorsBehindShuffled : JsValue :=
  JObj [("ignorePrerelease", JBool true);
        ("offsetLevel", JStr "major");
        ("offset", JNum (Finite (inject_Z (-2))))].


(** Two rules, the second with a positive offset. *)
Definition reactRule : JsValue :=
  JObj [("matchPackageNames", JArr [JStr "react"]);
        ("constraints", JObj [("offset", JNum (Finite (inject_Z (-1))))])].

Definition vueRule : JsValue :=
  JObj [("matchPackageNames", JArr [JStr "vue"]);
        ("constraints", JObj [("offset", JNum (Finite (inject_Z 2)))])].

(** The properties of [reactRule], followed by one that the schema does not
    declare. *)
Definition reactFields : list (string * JsValue) :=
  [("matchPackageNames", JArr [JStr "react"]);
   ("constraints", JObj [("offset", JNum (Finite (inject_Z (-1))))])].

Definition annotatedFields : list (string * JsValue) :=
  reactFields ++ [("comment", JStr "pinned behind")].

(** ** Tactics *)

(** Walks down a chain of [if b then true else ...] that ends in [true]. *)
Ltac skipBranches :=
  repeat match goal with
         | |- (if ?b then true else _) = true =>
             first [ reflexivity | destruct b; [reflexivity|] ]
         end;
  try reflexivity.

(** Splits a conjunction into its conjuncts. *)
Ltac conjuncts := repeat match goal with |- _ ∧ _ => split end.

(** * Properties *)

(** ** The sort is a permutation *)

Section SortFacts.
Context {A : Type} (cmp : A -> A -> Z).

Lemma insertSorted_perm (x : A) (l : list A) :
  Js.insertSorted cmp x l ≡ₚ x :: l.
Proof.
  induction l as [|y t IH]; simpl; [done|].
  destruct (cmp x y <? 0); [done|].
  rewrite IH. apply perm_swap.
Qed.

Lemma sort_from_perm (l acc : list A) :
  fold_left (fun acc x => Js.insertSorted cmp x acc) l acc ≡ₚ acc ++ l.
Proof.
  revert acc. induction l as [|x l IH]; intros acc; simpl.
  - by rewrite app_nil_r.
  - rewrite IH, insertSorted_perm. simpl. apply Permutation_middle.
Qed.

Lemma sort_perm (l : list A) : Js.sort cmp l ≡ₚ l.
Proof. unfold Js.sort. by rewrite sort_from_perm. Qed.

Lemma sort_length (l : list A) : length (Js.sort cmp l) = length l.
Proof. by rewrite sort_perm. Qed.

Lemma sort_elem (x : A) (l : list A) : x ∈ Js.sort cmp l ↔ x ∈ l.
Proof. by rewrite sort_perm. Qed.
End SortFacts.

(** ** What the filter lets through *)

Section FilterFacts.
Variable api : VersioningApi.
Variable c : Config.

Lemma filterVersions_elem (rels : list Release) (v : string) :
  v ∈ filterVersions api c rels →
  (∃ rel, rel ∈ rels ∧ version rel = Some v) ∧
  v ≠ "" ∧ isValid api v = Ok true ∧
  (¬ prereleaseKept c → isStable api v = true).
Proof.
  unfold filterVersions, prereleaseKept.
  set (kept := omap _ _).
  assert (Hkept : ∀ v, v ∈ kept →
    (∃ rel, rel ∈ rels ∧ version rel = Some v) ∧
    v ≠ "" ∧ isValid api v = Ok true).
  { intros x Hx. apply list_elem_of_omap in Hx as (ov & Hov & Hk).
    apply list_elem_of_fmap in Hov as (rel & -> & Hrel).
    unfold keepVersion in Hk.
    destruct (version rel) as [s|] eqn:Hs; [|done].
    destruct (Js.truthyStr s) eqn:Ht; simpl in Hk; [|done].
    destruct (isValid api s) as [[]|] eqn:Hv; simpl in Hk; try done.
    injection Hk as <-. split; [by exists rel|]. split; [|done].
    intros ->. by vm_compute in Ht. }
  destruct (constraints c ≫= ignorePrerelease) as [[]|] eqn:Hi.
  - intros Hin. apply list_elem_of_In, filter_In in Hin as [Hin Hst].
    apply list_elem_of_In, Hkept in Hin as (? & ? & ?). by repeat split.
  - intros Hin. apply Hkept in Hin as (? & ? & ?). by repeat split.
  - intros Hin. apply list_elem_of_In, filter_In in Hin as [Hin Hst].
    apply list_elem_of_In, Hkept in Hin as (? & ? & ?). by repeat split.
Qed.

Lemma sortedVersionsOf_elem (rels : list Release) (v : string) :
  v ∈ sortedVersionsOf api c rels ↔ v ∈ filterVersions api c rels.
Proof. unfold sortedVersionsOf. apply sort_elem. Qed.

Lemma sortedVersionsOf_length (rels : list Release) :
  length (sortedVersionsOf api c rels) = length (filterVersions api c rels).
Proof. apply sort_length. Qed.
End FilterFacts.

(** ** Objects and their keys *)

Section ObjFacts.
Context {V : Type}.
Implicit Types (o : Js.Obj V) (k : string).

Lemma objGet_elem o k v : Js.objGet o k = Some v → (k, v) ∈ o.
Proof.
  induction o as [|[k' v'] t IH]; simpl; [done|].
  destruct (String.eqb k k') eqn:E.
  - apply String.eqb_eq in E as ->. intros [= ->]. apply list_elem_of_here.
  - intros H. apply list_elem_of_further. by apply IH.
Qed.

Lemma objGet_None o k : Js.objGet o k = None ↔ k ∉ map fst o.
Proof.
  induction o as [|[k' v'] t IH]; simpl.
  - split; [intros _; apply not_elem_of_nil | done].
  - destruct (String.eqb k k') eqn:E.
    + apply String.eqb_eq in E as ->. split; [done|].
      intros H. exfalso. apply H, list_elem_of_here.
    + apply String.eqb_neq in E. rewrite IH, not_elem_of_cons. tauto.
Qed.

Lemma objKeys_perm o : Js.objKeys o ≡ₚ map fst o.
Proof.
  unfold Js.objKeys. rewrite sort_perm.
  induction (map fst o) as [|k ks IH]; simpl; [done|].
  destruct (Js.isArrayIndex k); simpl.
  - by rewrite IH.
  - by rewrite <- Permutation_middle, IH.
Qed.

Lemma objKeys_length o : length (Js.objKeys o) = length o.
Proof. by rewrite objKeys_perm, length_map. Qed.

Lemma objKeys_elem o k : k ∈ Js.objKeys o ↔ k ∈ map fst o.
Proof. by rewrite objKeys_perm. Qed.
End ObjFacts.

Lemma List_filter_length {A} (f : A → bool) (l : list A) :
  (length (List.filter f l) ≤ length l)%nat.
Proof.
  induction l as [|x l IH]; simpl; [done|]. destruct (f x); simpl; lia.
Qed.

Lemma List_filter_elem {A} (f : A → bool) (l : list A) (x : A) :
  x ∈ List.filter f l ↔ x ∈ l ∧ f x = true.
Proof. by rewrite !list_elem_of_In, filter_In. Qed.

(** ** What the grouping builds *)

Section GroupFacts.
Variable api : VersioningApi.
Variable level : string.
Variable versions : list string.

Lemma pushVersion_ok (groups : Groups) (k v : string) :
  Forall (groupOk api level versions) groups →
  v ∈ versions → isVersion api v = true → groupKeyOf api level v = Some k →
  Forall (groupOk api level versions) (pushVersion groups k v).
Proof.
  intros Hg Hv Hi Hk. unfold pushVersion.
  destruct (Js.objGet groups k) as [m|] eqn:Hget.
  - clear Hget. induction Hg as [|[k' m'] t [Hne Hm] Ht IH]; simpl; [done|].
    destruct (String.eqb k k') eqn:E.
    + apply String.eqb_eq in E as <-. constructor; [|done].
      split; simpl in *; [by destruct m'|].
      apply Forall_app. split; [done|]. by repeat constructor.
    + constructor; [by split|done].
  - unfold Js.objAdd. apply Forall_app. split; [done|].
    constructor; [|done]. split; simpl; [done|]. by repeat constructor.
Qed.

Lemma pushVersion_length (groups : Groups) (k v : string) :
  (length (pushVersion groups k v) ≤ S (length groups))%nat.
Proof.
  unfold pushVersion. destruct (Js.objGet groups k).
  - assert (H : ∀ f, length (Js.objAlter f groups k) = length groups).
    { intros f. induction groups as [|[k' m'] t IH]; simpl; [done|].
      destruct (String.eqb k k'); simpl; by rewrite ?IH. }
    rewrite H. lia.
  - unfold Js.objAdd. rewrite length_app. simpl. lia.
Qed.

Lemma groupStep_ok (groups : Groups) (v : string) :
  Forall (groupOk api level versions) groups → v ∈ versions →
  Forall (groupOk api level versions) (groupStep api level groups v).
Proof.
  intros Hg Hv. unfold groupStep.
  destruct (isVersion api v) eqn:Hi; simpl; [|done].
  destruct (groupKeyOf api level v) as [k|] eqn:Hk; [|done].
  by apply pushVersion_ok.
Qed.

Lemma groupStep_length (groups : Groups) (v : string) :
  (length (groupStep api level groups v) ≤ S (length groups))%nat.
Proof.
  unfold groupStep. destruct (negb _); [lia|].
  destruct (groupKeyOf _ _ _); [apply pushVersion_length | lia].
Qed.

Lemma groupFold_ok (l : list string) (groups : Groups) :
  (∀ v, v ∈ l → v ∈ versions) → Forall (groupOk api level versions) groups →
  Forall (groupOk api level versions) (fold_left (groupStep api level) l groups).
Proof.
  revert groups. induction l as [|v l IH]; intros groups Hl Hg; simpl; [done|].
  apply IH.
  - intros x Hx. apply Hl. by apply list_elem_of_further.
  - apply groupStep_ok; [done|]. apply Hl, list_elem_of_here.
Qed.

Lemma groupFold_length (l : list string) (groups : Groups) :
  (length (fold_left (groupStep api level) l groups)
     ≤ length groups + length l)%nat.
Proof.
  revert groups. induction l as [|v l IH]; intros groups; simpl; [lia|].
  specialize (IH (groupStep api level groups v)).
  pose proof (groupStep_length groups v). lia.
Qed.

Lemma sortGroup_perm (members : list string) :
  sortGroup api members ≡ₚ members.
Proof. unfold sortGroup. destruct (_ <? _); [apply sort_perm | done]. Qed.

Lemma groups_ok :
  Forall (groupOk api level versions) (groupVersionsBySemverLevel api versions level).
Proof.
  unfold groupVersionsBySemverLevel.
  destruct versions as [|v0 vs] eqn:Hvs; [constructor|]. rewrite <- Hvs.
  apply Forall_fmap.
  eapply Forall_impl; [apply (groupFold_ok versions []); [done|constructor]|].
  intros [k m] [Hne Hm]. unfold groupOk, compose. simpl in *. split.
  - intros Hnil. apply Hne.
    apply Permutation_nil_r. by rewrite <- (sortGroup_perm m), Hnil.
  - by rewrite sortGroup_perm.
Qed.

Lemma groups_length :
  (length (groupVersionsBySemverLevel api versions level)
     ≤ length versions)%nat.
Proof.
  unfold groupVersionsBySemverLevel.
  destruct versions as [|v0 vs] eqn:Hvs; [simpl; lia|]. rewrite <- Hvs.
  rewrite length_map. apply (groupFold_length versions []).
Qed.

(** The latest member of every listed key is defined. *)
Lemma latestOf_defined (k : string) :
  k ∈ Js.objKeys (groupVersionsBySemverLevel api versions level) →
  is_Some (latestOf (groupVersionsBySemverLevel api versions level) k).
Proof.
  intros Hk. apply objKeys_elem in Hk. unfold latestOf.
  destruct (Js.objGet _ k) as [m|] eqn:Hget; simpl.
  - apply last_is_Some. apply objGet_elem in Hget.
    pose proof groups_ok as Hok. rewrite Forall_forall in Hok.
    by destruct (Hok _ Hget).
  - by apply objGet_None in Hget.
Qed.
End GroupFacts.

(** ** Rendering a number and reading it back *)

Section RenderParse.

Lemma takeDigits_rendered (d : uint) (rest : string) :
  stopsDigits rest →
  Js.takeDigits (NilEmpty.string_of_uint d +:+ rest) = d.
Proof.
  intros Hrest. induction d; simpl; rewrite ?IHd; try done.
  destruct rest as [|c r]; simpl in *; [done|]. by rewrite Hrest.
Qed.

Lemma numeral_rendered_uint (d : uint) :
  numeral (NilEmpty.string_of_uint d) = true.
Proof. induction d; simpl; by rewrite ?IHd. Qed.

Lemma parseInt_rendered_uint (d : uint) (rest : string) :
  d ≠ Nil → stopsDigits rest →
  Js.parseInt (NilEmpty.string_of_uint d +:+ rest) = Some (Z.of_uint d) ∧
  Js.parseInt (String "-" (NilEmpty.string_of_uint d +:+ rest))
    = Some (- Z.of_uint d).
Proof.
  intros Hd Hrest. pose proof (takeDigits_rendered d rest Hrest) as Htake.
  unfold Js.parseInt.
  destruct d; try done; simpl in *; injection Htake as Htake;
    rewrite Htake; by split.
Qed.

Lemma parseInt_numberToString (z : Z) (rest : string) :
  stopsDigits rest →
  Js.parseInt (Js.numberToString z +:+ rest) = Some z.
Proof.
  intros Hrest. unfold Js.numberToString.
  rewrite <- (DecimalZ.of_to z) at 2.
  destruct z as [|p|p]; simpl.
  - by apply (parseInt_rendered_uint (D0 Nil)).
  - by apply parseInt_rendered_uint;
      [apply DecimalPos.Unsigned.to_uint_nonnil|].
  - by apply (parseInt_rendered_uint (Pos.to_uint p));
      [apply DecimalPos.Unsigned.to_uint_nonnil|].
Qed.

Lemma numeral_numberToString (z : Z) : numeral (Js.numberToString z) = true.
Proof.
  unfold Js.numberToString.
  destruct (Z.to_int z); simpl; apply numeral_rendered_uint.
Qed.

(** Splitting at dots leaves a numeral in one piece. *)
Lemma splitDot_numeral (s : string) :
  numeral s = true → Js.splitDot s = [s].
Proof.
  induction s as [|c r IH]; simpl; [done|].
  intros [Hc Hr]%andb_true_iff. rewrite (IH Hr).
  destruct (Ascii.eqb c ".") eqn:E; [|done].
  apply Ascii.eqb_eq in E as ->. done.
Qed.

Lemma splitDot_numeral_dot (s rest : string) :
  numeral s = true →
  Js.splitDot (s +:+ "." +:+ rest) = s :: Js.splitDot rest.
Proof.
  induction s as [|c r IH]; simpl; [done|].
  intros [Hc Hr]%andb_true_iff. rewrite (IH Hr).
  destruct (Ascii.eqb c ".") eqn:E; [|done].
  apply Ascii.eqb_eq in E as ->. done.
Qed.

Lemma append_empty (s : string) : s +:+ "" = s.
Proof.
  induction s as [|c s IH]; [done|].
  change (String c s +:+ "") with (String c (s +:+ "")). by rewrite IH.
Qed.

Lemma parseInt_rendered (z : Z) :
  Js.parseIntOpt (Some (Js.numberToString z)) = Some z.
Proof.
  unfold Js.parseIntOpt. simpl.
  pose proof (parseInt_numberToString z EmptyString I) as H.
  by rewrite append_empty in H.
Qed.

End RenderParse.

(** ** What the selection returns *)

Section SelectFacts.
Variable api : VersioningApi.

Lemma getVersionFromSemverGroups_Some (groups : Groups) (o : Z)
    (level cur r : string) :
  getVersionFromSemverGroups api groups o level cur = Some r →
  ∃ k members,
    k ∈ filterGroupKeys api level cur
          (Js.sort (compareGroups api groups) (Js.objKeys groups)) ∧
    Js.objGet groups k = Some members ∧ last members = Some r ∧
    o ≤ 0 ∧ - o < Z.of_nat (length groups).
Proof.
  unfold getVersionFromSemverGroups.
  set (keys := Js.sort _ _). set (fk := filterGroupKeys _ _ _ _).
  destruct (Z.of_nat (length keys) =? 0) eqn:E0; [done|].
  destruct (Z.of_nat (length fk) =? 0) eqn:E1; [done|].
  destruct (_ || _)%bool eqn:E2; [done|].
  apply orb_false_iff in E2 as [Hlo Hhi].
  apply Z.ltb_ge in Hlo. apply Z.leb_gt in Hhi.
  destruct (fk !! Z.to_nat _) as [k|] eqn:Hk; simpl; [|done].
  unfold latestOf. destruct (Js.objGet groups k) as [m|] eqn:Hm; simpl; [|done].
  intros Hlast. exists k, m. repeat split; try done.
  - by eapply list_elem_of_lookup_2.
  - lia.
  - assert (length fk ≤ length groups)%nat; [|lia].
    subst fk keys. unfold filterGroupKeys.
    rewrite <- (objKeys_length groups),
      <- (sort_length (compareGroups api groups) (Js.objKeys groups)).
    repeat destruct (String.eqb _ _); try apply List_filter_length; lia.
Qed.

Variable a : GetNewValueConfig.

(** The selection yields the current value or one of the sorted versions,
    and in any case a defined string. *)
Lemma selectVersion_cases (versions : option ReleaseResult) :
  selectVersion api a versions = Some (currentValue a) ∨
  ∃ v, selectVersion api a versions = Some v ∧
       v ∈ sortedVersionsOf api (config a) (fetchedReleases versions).
Proof.
  unfold selectVersion, sortedVersionsOf, fetchedReleases.
  destruct (negb (hasReleases versions)); [by left|].
  set (fv := filterVersions _ _ _). set (sv := Js.sort _ fv).
  destruct (Z.of_nat (length fv) =? 0) eqn:E0; [by left|].
  destruct (Z.of_nat (length sv) =? 0) eqn:E1; [by left|].
  destruct (default 0 _ =? 0) eqn:Eo.
  { right. destruct (last sv) as [v|] eqn:Hl.
    - exists v. split; [done|]. by eapply last_Some_elem_of.
    - apply last_None in Hl. rewrite Hl in E1. done. }
  destruct (_ && _)%bool.
  - destruct (getVersionFromSemverGroups _ _ _ _ _) as [r|] eqn:Hr; [|by left].
    destruct (Js.truthyStr r); [|by left].
    right. exists r. split; [done|].
    apply getVersionFromSemverGroups_Some in Hr
      as (k & m & _ & Hget & Hlast & _).
    apply objGet_elem in Hget. apply last_Some_elem_of in Hlast.
    pose proof (groups_ok api (Js.tmplStr (constraints (config a) ≫= offsetLevel)) sv)
      as Hok.
    rewrite Forall_forall in Hok. destruct (Hok _ Hget) as [_ Hm].
    rewrite Forall_forall in Hm. by destruct (Hm _ Hlast).
  - destruct (_ || _)%bool eqn:E2; [by left|].
    apply orb_false_iff in E2 as [Hlo Hhi].
    apply Z.ltb_ge in Hlo. apply Z.leb_gt in Hhi.
    destruct (sv !! Z.to_nat _) as [v|] eqn:Hv.
    + right. exists v. split; [done|]. by eapply list_elem_of_lookup_2.
    + apply lookup_ge_None in Hv. lia.
Qed.

Lemma selectVersion_defined (versions : option ReleaseResult) :
  ∃ s, selectVersion api a versions = Some s.
Proof.
  destruct (selectVersion_cases versions) as [H|(v & H & _)]; eauto.
Qed.
End SelectFacts.

(** ** The resolver over any registry *)

Section Resolver.
Variable versionings : gmap string VersioningApi.
Variable registry : option GetPkgReleasesConfig → M (option ReleaseResult).

Lemma get_registered (id : string) (api : VersioningApi) :
  versionings !! id = Some api → get versionings (Some id) = Ok api.
Proof. unfold get. simpl. by intros ->. Qed.

(** The resolver, unfolded for a registered scheme. *)
Lemma getNewValue_registered (a : GetNewValueConfig) (api : VersioningApi)
    (w : World) :
  versionings !! versioning (config a) = Some api →
  getNewValue versionings registry a w =
    if (offsetRejected (config a) || offsetLevelRejected (config a))%bool
    then (Ok (Some (currentValue a)), w)
    else match fetchVersions registry (config a) w with
         | (Throw error, w1) =>
             match newRegistryFetchError error (datasource (config a))
                     (packageName (config a)) with
             | Throw t => (Throw t, w1)
             | Ok _ => (Ok (Some (currentValue a)), w1)
             end
         | (Ok versions, w1) => (Ok (selectVersion api a versions), w1)
         end.
Proof.
  intros Hreg. unfold getNewValue. rewrite (get_registered _ _ Hreg).
  destruct (offsetRejected _); [done|]. by destruct (offsetLevelRejected _).
Qed.
End Resolver.

(** ** Siblings: what the key filters let through *)

Section Siblings.
Variable api : VersioningApi.

Lemma minorKey_split (v : string) :
  Js.splitDot (Js.numberToString (getMajor api v) +:+ "." +:+
               Js.numberToString (getMinor api v))
  = [Js.numberToString (getMajor api v); Js.numberToString (getMinor api v)].
Proof.
  rewrite splitDot_numeral_dot by apply numeral_numberToString.
  by rewrite splitDot_numeral by apply numeral_numberToString.
Qed.

Lemma patchKey_split (v : string) :
  Js.splitDot (Js.numberToString (getMajor api v) +:+ "." +:+
               Js.numberToString (getMinor api v) +:+ "." +:+
               Js.numberToString (getPatch api v))
  = [Js.numberToString (getMajor api v); Js.numberToString (getMinor api v);
     Js.numberToString (getPatch api v)].
Proof.
  rewrite !splitDot_numeral_dot by apply numeral_numberToString.
  by rewrite splitDot_numeral by apply numeral_numberToString.
Qed.

Lemma numStrictEq_rendered (z n : Z) :
  Js.numStrictEq (Js.parseIntOpt (Some (Js.numberToString z))) n = (z =? n).
Proof. by rewrite parseInt_rendered. Qed.

(** A minor-level key passes the same-major filter exactly when its versions
    have that major. *)
Lemma sameMajor_minorKey (v k : string) (currentMajor : Z) :
  groupKeyOf api "minor" v = Some k →
  sameMajor currentMajor k = (getMajor api v =? currentMajor).
Proof.
  unfold groupKeyOf. simpl. intros [= <-]. unfold sameMajor.
  rewrite minorKey_split. simpl. apply numStrictEq_rendered.
Qed.

(** A patch-level key passes the same-major-and-minor filter exactly when its
    versions have that major and that minor. *)
Lemma sameMajorMinor_patchKey (v k : string) (currentMajor currentMinor : Z) :
  groupKeyOf api "patch" v = Some k →
  sameMajorMinor currentMajor currentMinor k =
    ((getMajor api v =? currentMajor) && (getMinor api v =? currentMinor))%bool.
Proof.
  unfold groupKeyOf. simpl. intros [= <-]. unfold sameMajorMinor.
  rewrite patchKey_split. simpl. by rewrite !numStrictEq_rendered.
Qed.

(** What a grouped selection returns: a grouped version whose key survived
    the sibling filter. *)
Lemma grouped_selection (versions : list string) (level cur r : string) (o : Z) :
  getVersionFromSemverGroups api
    (groupVersionsBySemverLevel api versions level) o level cur = Some r →
  r ∈ versions ∧ isVersion api r = true ∧
  ∃ k, groupKeyOf api level r = Some k ∧
       k ∈ filterGroupKeys api level cur
             (Js.sort (compareGroups api
                         (groupVersionsBySemverLevel api versions level))
                (Js.objKeys (groupVersionsBySemverLevel api versions level))).
Proof.
  intros (k & m & Hk & Hget & Hlast & _)%getVersionFromSemverGroups_Some.
  apply objGet_elem in Hget. apply last_Some_elem_of in Hlast.
  pose proof (groups_ok api level versions) as Hok.
  rewrite Forall_forall in Hok. destruct (Hok _ Hget) as [_ Hm].
  rewrite Forall_forall in Hm. destruct (Hm _ Hlast) as (? & ? & ?).
  simpl in *. eauto.
Qed.

Lemma grouped_minor_sibling (versions : list string) (cur r : string) (o : Z) :
  getVersionFromSemverGroups api
    (groupVersionsBySemverLevel api versions "minor") o "minor" cur = Some r →
  getMajor api r = getMajor api cur.
Proof.
  intros (_ & _ & k & Hkey & Hk)%grouped_selection.
  unfold filterGroupKeys in Hk. simpl in Hk.
  apply List_filter_elem in Hk as [_ Hk].
  rewrite (sameMajor_minorKey r k _ Hkey) in Hk. lia.
Qed.

Lemma grouped_patch_sibling (versions : list string) (cur r : string) (o : Z) :
  getVersionFromSemverGroups api
    (groupVersionsBySemverLevel api versions "patch") o "patch" cur = Some r →
  getMajor api r = getMajor api cur ∧ getMinor api r = getMinor api cur.
Proof.
  intros (_ & _ & k & Hkey & Hk)%grouped_selection.
  unfold filterGroupKeys in Hk. simpl in Hk.
  apply List_filter_elem in Hk as [_ Hk].
  rewrite (sameMajorMinor_patchKey r k _ _ Hkey) in Hk. lia.
Qed.

(** The selection in grouped mode, reduced to the grouped lookup. *)
Lemma selectVersion_grouped (a : GetNewValueConfig)
    (versions : option ReleaseResult) (o : Z) (level r : string) :
  constraints (config a) ≫= offset = Some o →
  constraints (config a) ≫= offsetLevel = Some level →
  o ≠ 0 → Js.truthyStr level = true →
  selectVersion api a versions = Some r → r ≠ currentValue a →
  getVersionFromSemverGroups api
    (groupVersionsBySemverLevel api
       (sortedVersionsOf api (config a) (fetchedReleases versions)) level)
    o level (currentVersion a) = Some r.
Proof.
  intros Ho Hl Hne Htruthy. unfold selectVersion, sortedVersionsOf, fetchedReleases.
  rewrite Ho, Hl. simpl. rewrite Htruthy. simpl.
  destruct (negb (hasReleases versions)); [congruence|].
  destruct (_ =? 0); [congruence|]. destruct (_ =? 0); [congruence|].
  destruct (o =? 0) eqn:Eo; [lia|]. simpl.
  destruct (getVersionFromSemverGroups _ _ _ _ _) as [x|]; [|congruence].
  destruct (Js.truthyStr x); congruence.
Qed.
End Siblings.

(** ** Selection by offset *)

Section OffsetFacts.
Variable api : VersioningApi.
Variable a : GetNewValueConfig.

Lemma no_releases_fetched (versions : option ReleaseResult) :
  hasReleases versions = false → fetchedReleases versions = [].
Proof.
  unfold hasReleases, fetchedReleases.
  by destruct (versions ≫= releases) as [[|? ?]|].
Qed.

Lemma sortedVersionsOf_nil : sortedVersionsOf api (config a) [] = [].
Proof.
  unfold sortedVersionsOf, filterVersions. simpl. by destruct (_ ≫= _) as [[]|].
Qed.


(** An offset at least as long as the list selects nothing. *)
Lemma selectVersion_beyond (versions : option ReleaseResult) :
  Z.of_nat (length (sortedVersionsOf api (config a) (fetchedReleases versions)))
    ≤ Z.abs (default 0 (constraints (config a) ≫= offset)) →
  selectVersion api a versions = Some (currentValue a).
Proof.
  unfold selectVersion. intros Hlen.
  destruct (negb (hasReleases versions)); [done|].
  fold (fetchedReleases versions).
  change (Js.sort (sortVersions api)
            (filterVersions api (config a) (fetchedReleases versions)))
    with (sortedVersionsOf api (config a) (fetchedReleases versions)) in *.
  set (sv := sortedVersionsOf _ _ _) in *.
  set (o := default 0 _) in *.
  destruct (_ =? 0); [done|].
  destruct (Z.of_nat (length sv) =? 0) eqn:E1; [done|].
  destruct (o =? 0) eqn:Eo; [lia|].
  destruct (_ && _)%bool.
  - destruct (getVersionFromSemverGroups _ _ _ _ _) as [r|] eqn:Hr; [|done].
    apply getVersionFromSemverGroups_Some in Hr as (_ & _ & _ & _ & _ & Ho & Hg).
    pose proof (groups_length api
      (Js.tmplStr (constraints (config a) ≫= offsetLevel)) sv). lia.
  - destruct (_ || _)%bool eqn:E2; [done|].
    apply orb_false_iff in E2 as [Hlo Hhi]. lia.
Qed.
End OffsetFacts.

Lemma allowedLevel_accepted (c : Config) :
  allowedLevel (constraints c ≫= offsetLevel) → offsetLevelRejected c = false.
Proof.
  unfold offsetLevelRejected. by intros [-> | [-> | [-> | ->]]].
Qed.

Lemma nonpositive_offset_accepted (c : Config) :
  default 0 (constraints c ≫= offset) ≤ 0 → offsetRejected c = false.
Proof.
  unfold offsetRejected. destruct (constraints c ≫= offset); simpl; [lia|done].
Qed.

(** C3 (as amended).  With a registered scheme, a configuration whose offset
    is greater than 0 makes [getNewValue] return the current value and leave
    the world as it was: no lookup is made, by the real registry or by any
    other.  Whether the scheme is registered or not, no lookup is made. *)
Theorem positive_offset_never_fetches
    (versionings : gmap string VersioningApi)
    (registry : option GetPkgReleasesConfig → M (option ReleaseResult))
    (ds : Datasource) (a : GetNewValueConfig) (w : World) (o : Z) :
  constraints (config a) ≫= offset = Some o → 0 < o →
  (∀ api, versionings !! versioning (config a) = Some api →
     getNewValue versionings registry a w = (Ok (Some (currentValue a)), w)) ∧
  snd (getNewValue versionings registry a w) = w ∧
  calls (snd (getNewValueWith versionings ds a w)) = calls w.
Proof.
  intros Ho Hpos.
  assert (Hrej : offsetRejected (config a) = true).
  { unfold offsetRejected. rewrite Ho. lia. }
  assert (Hw : ∀ reg, snd (getNewValue versionings reg a w) = w).
  { intros reg. unfold getNewValue.
    destruct (get versionings _); [|done]. by rewrite Hrej. }
  split; [|split].
  - intros api Hreg. rewrite (getNewValue_registered _ _ _ _ _ Hreg).
    by rewrite Hrej.
  - apply Hw.
  - unfold getNewValueWith. by rewrite Hw.
Qed.


(** C8.  For the filtered, sorted version list [V] and an offset with
    [|offset| ≥ length V], [getNewValue] returns the current value, in flat
    and in grouped mode. *)
Theorem offset_beyond_list_returns_current
    (versionings : gmap string VersioningApi)
    (registry : option GetPkgReleasesConfig → M (option ReleaseResult))
    (api : VersioningApi) (a : GetNewValueConfig) (w w1 : World)
    (versions : option ReleaseResult) :
  versionings !! versioning (config a) = Some api →
  fetchVersions registry (config a) w = (Ok versions, w1) →
  Z.of_nat (length (sortedVersionsOf api (config a) (fetchedReleases versions)))
    ≤ Z.abs (default 0 (constraints (config a) ≫= offset)) →
  fst (getNewValue versionings registry a w) = Ok (Some (currentValue a)).
Proof.
  intros Hreg Hfetch Hlen.
  rewrite (getNewValue_registered _ _ _ _ _ Hreg), Hfetch.
  destruct (_ || _)%bool; [done|]. simpl.
  by rewrite selectVersion_beyond.
Qed.

(** C10.  A returned string that differs from the current value is the
    version of one of the fetched releases and passed the filter: it is not
    empty, [isValid] accepts it and, unless [ignorePrerelease] is explicitly
    false, so does [isStable]. *)
Theorem result_is_a_fetched_version
    (versionings : gmap string VersioningApi)
    (registry : option GetPkgReleasesConfig → M (option ReleaseResult))
    (a : GetNewValueConfig) (w w' : World) (r : string) :
  getNewValue versionings registry a w = (Ok (Some r), w') →
  r ≠ currentValue a →
  ∃ api versions rel,
    get versionings (Some (versioning (config a))) = Ok api ∧
    fetchVersions registry (config a) w = (Ok versions, w') ∧
    rel ∈ fetchedReleases versions ∧ version rel = Some r ∧
    r ≠ "" ∧ isValid api r = Ok true ∧
    (constraints (config a) ≫= ignorePrerelease ≠ Some false →
     isStable api r = true).
Proof.
  unfold getNewValue.
  destruct (get versionings _) as [api|t] eqn:Hget; [|done].
  destruct (offsetRejected _); [intros [= -> _]; done|].
  destruct (offsetLevelRejected _); [intros [= -> _]; done|].
  destruct (fetchVersions _ _ w) as [[versions|t] w1] eqn:Hfetch;
    [|destruct (newRegistryFetchError _ _ _); [intros [= -> _]|]; done].
  intros [= Hsel ->] Hne.
  destruct (selectVersion_cases api a versions) as [H|(v & H & Hin)];
    [congruence|].
  assert (v = r) as -> by congruence.
  apply sortedVersionsOf_elem, filterVersions_elem in Hin
    as ((rel & Hrel & Hver) & Hnonempty & Hvalid & Hstable).
  exists api, versions, rel. by repeat split.
Qed.

(** C6.  In grouped mode at the minor level a returned version that differs
    from the current value has the major of the current version; at the patch
    level it has its major and its minor. *)
Theorem grouped_selection_stays_among_siblings
    (versionings : gmap string VersioningApi)
    (registry : option GetPkgReleasesConfig → M (option ReleaseResult))
    (a : GetNewValueConfig) (w w' : World) (r : string) (o : Z) :
  constraints (config a) ≫= offset = Some o → o ≠ 0 →
  getNewValue versionings registry a w = (Ok (Some r), w') →
  r ≠ currentValue a →
  ∃ api,
    get versionings (Some (versioning (config a))) = Ok api ∧
    (constraints (config a) ≫= offsetLevel = Some "minor" →
     getMajor api r = getMajor api (currentVersion a)) ∧
    (constraints (config a) ≫= offsetLevel = Some "patch" →
     getMajor api r = getMajor api (currentVersion a) ∧
     getMinor api r = getMinor api (currentVersion a)).
Proof.
  intros Ho Hnz. unfold getNewValue.
  destruct (get versionings _) as [api|t] eqn:Hget; [|done].
  destruct (offsetRejected _); [intros [= -> _]; done|].
  destruct (offsetLevelRejected _); [intros [= -> _]; done|].
  destruct (fetchVersions _ _ w) as [[versions|t] w1] eqn:Hfetch;
    [|destruct (newRegistryFetchError _ _ _); [intros [= -> _]|]; done].
  intros [= Hsel ->] Hne. exists api. split; [done|]. split; intros Hl.
  - eapply grouped_minor_sibling, selectVersion_grouped; eauto.
  - eapply grouped_patch_sibling, selectVersion_grouped; eauto.
Qed.

(** ** Retry with exponential backoff *)

Lemma arrIncludesStr_elem (xs : list string) (x : string) :
  Js.arrIncludesStr xs x = true ↔ x ∈ xs.
Proof.
  unfold Js.arrIncludesStr. rewrite existsb_exists, list_elem_of_In.
  split.
  - by intros (y & Hy & ->%String.eqb_eq).
  - intros Hx. exists x. by rewrite String.eqb_refl.
Qed.

Lemma arrIncludesNum_elem (xs : list Z) (x : Z) :
  Js.arrIncludesNum xs x = true ↔ x ∈ xs.
Proof.
  unfold Js.arrIncludesNum. rewrite existsb_exists, list_elem_of_In.
  split.
  - by intros (y & Hy & ->%Z.eqb_eq).
  - intros Hx. exists x. by rewrite Z.eqb_refl.
Qed.

Lemma optStrIs_eq (o : option string) (s : string) :
  optStrIs o s = true ↔ o = Some s.
Proof.
  unfold optStrIs. destruct o as [x|]; [|done].
  rewrite String.eqb_eq. naive_solver.
Qed.

Lemma retryable_code_truthy (c : string) :
  c ∈ RETRYABLE_ERROR_CODES → Js.truthyStr c = true.
Proof.
  intros Hc.
  assert (H : Forall (fun c => Js.truthyStr c = true) RETRYABLE_ERROR_CODES)
    by (repeat constructor).
  rewrite Forall_forall in H. by apply H.
Qed.

Lemma retryable_status_truthy (n : Z) :
  n ∈ RETRYABLE_STATUS_CODES → negb (n =? 0) = true.
Proof.
  intros Hn.
  assert (H : Forall (fun n => negb (n =? 0) = true) RETRYABLE_STATUS_CODES)
    by (repeat constructor).
  rewrite Forall_forall in H. by apply H.
Qed.

Lemma isRetryableObject_spec (e : JsError) :
  isRetryableObject e = true ↔ retryable e.
Proof.
  unfold isRetryableObject, retryable. destruct e as [c s n m t].
  cbn [code statusCode name message type]. split.
  - destruct (_ && _)%bool eqn:E1.
    { intros _. left. destruct c as [c|]; [|by rewrite andb_false_r in E1].
      apply andb_true_iff in E1 as [_ H%arrIncludesStr_elem]. eauto. }
    destruct (Js.truthyOptNum s && _)%bool eqn:E2.
    { intros _. right. left.
      destruct s as [s|]; [|by rewrite andb_false_r in E2].
      apply andb_true_iff in E2 as [_ H%arrIncludesNum_elem]. eauto. }
    destruct (optStrIs n "TimeoutError" || _)%bool eqn:E3.
    { intros _. apply orb_true_iff in E3 as [H%optStrIs_eq|H]; [eauto|].
      destruct m as [m|]; [|done]. do 3 right. left. eauto. }
    destruct (optStrIs n "NetworkError" || _)%bool eqn:E4; [|done].
    intros _. apply orb_true_iff in E4 as [H|H]; apply optStrIs_eq in H;
      eauto 10.
  - intros [(x & -> & Hx)|[(x & -> & Hx)|[-> |[(x & -> & Hx)|[-> | ->]]]]];
      cbn [Js.truthyOptStr Js.truthyOptNum].
    + by rewrite (retryable_code_truthy x Hx),
        (proj2 (arrIncludesStr_elem _ x) Hx).
    + rewrite (retryable_status_truthy x Hx),
        (proj2 (arrIncludesNum_elem _ x) Hx). skipBranches.
    + skipBranches.
    + rewrite Hx, orb_true_r. skipBranches.
    + skipBranches.
    + rewrite orb_true_r. skipBranches.
Qed.

Section RetryFacts.
Variable ds : Datasource.
Variable c : GetPkgReleasesConfig.
Variable cfg : option RetryConfig.

Lemma retryLoop_run (errs : list JsError) :
  ∀ (remaining : nat) (attempt : Z) (lastError : Thrown) (w : World)
    (final : Result (option ReleaseResult)),
  Z.of_nat remaining = cfgMaxAttempts cfg - attempt + 1 →
  (length errs < remaining)%nat →
  (∀ i e, errs !! i = Some e →
     ds (length (calls w) + i)%nat c = Throw (ThrownError e) ∧
     isRetryableObject e = true) →
  ds (length (calls w) + length errs)%nat c = final →
  settles remaining errs final →
  ∃ w', retryLoop (getPkgReleases ds c) cfg remaining attempt lastError w
          = (final, w') ∧
        calls w' = calls w ++ replicate (S (length errs)) c ∧
        sleeps w' = sleeps w ++
                    map (delayAfter cfg) (seqZ attempt (Z.of_nat (length errs))) ∧
        cache w' = cache w.
Proof.
  induction errs as [|e es IH];
    intros remaining attempt lastError w final Hrem Hlen Herrs Hfinal Hsettle.
  - destruct remaining as [|r]; [simpl in Hlen; lia|].
    simpl in *. rewrite Nat.add_0_r in Hfinal.
    unfold tryCatch, getPkgReleases at 1. rewrite Hfinal.
    destruct final as [v|[|e]]; [| done |].
    + eexists. split; [done|]. simpl. by rewrite app_nil_r.
    + simpl. destruct Hsettle as [Hno|Hlast].
      * rewrite Hno. simpl. eexists. split; [done|]. simpl.
        by rewrite app_nil_r.
      * simpl in Hlast.
        assert (E : (attempt =? cfgMaxAttempts cfg) = true)
          by (apply Z.eqb_eq; lia).
        rewrite E, orb_true_r. eexists. split; [done|]. simpl.
        by rewrite app_nil_r.
  - destruct remaining as [|r]; [simpl in Hlen; lia|].
    simpl in Hlen.
    destruct (Herrs 0%nat e eq_refl) as [Hds Hretry].
    rewrite Nat.add_0_r in Hds.
    cbn [retryLoop]. unfold tryCatch, getPkgReleases at 1. rewrite Hds.
    cbn [isRetryableError]. rewrite Hretry.
    assert (E : (attempt =? cfgMaxAttempts cfg) = false)
      by (apply Z.eqb_neq; lia).
    rewrite E. cbn [negb orb]. unfold bind, sleep at 1.
    match goal with
    | |- context [retryLoop _ _ r _ _ ?w2] => set (w1 := w2)
    end.
    destruct (IH r (attempt + 1) (ThrownError e) w1 final) as (w' & Hrun & Hc & Hs & Hm).
    + lia.
    + lia.
    + intros i x Hx. subst w1. simpl. rewrite length_app. simpl.
      replace (length (calls w) + 1 + i)%nat with (length (calls w) + S i)%nat
        by lia.
      by apply Herrs.
    + subst w1. simpl. rewrite length_app. simpl length.
      replace (length (calls w) + 1 + length es)%nat
        with (length (calls w) + S (length es))%nat by lia.
      done.
    + unfold settles in *. destruct final as [|[|x]]; try done.
      destruct Hsettle as [?|Hl]; [by left|right]. simpl in Hl. lia.
    + exists w'. split; [done|]. subst w1. simpl in *.
      rewrite Hc, Hs, Hm. rewrite <- !app_assoc. simpl.
      split; [done|]. split; [|done].
      rewrite (seqZ_cons attempt) by lia. simpl.
      do 4 f_equal. lia.
Qed.
End RetryFacts.

(** ** What the registry throws *)

Section RegistryThrows.
Context {T : Type}.
Variable fn : M T.
Variable cfg : option RetryConfig.

End RegistryThrows.




(** C5.  [registry.getPkgReleases] attempts the lookup again after each
    retryable error, [maxAttempts] times at most (3 by default), waiting
    [min (initialDelay * multiplier^(k-1)) maxDelay] milliseconds before the
    [k]-th retry: 1000 then 2000 by default, under a cap of 30000.  The run
    ends with the first success, with the first error that is not retryable
    (at once when it is the first attempt, [errs = []]), or, when the attempts
    are exhausted, with the error of the last one. *)
Theorem registry_retries_with_backoff
    (ds : Datasource) (c : GetPkgReleasesConfig) (cfg : option RetryConfig)
    (w : World) (errs : list JsError) (final : Result (option ReleaseResult)) :
  Z.of_nat (length errs) < cfgMaxAttempts cfg →
  (∀ i e, errs !! i = Some e →
     ds (length (calls w) + i)%nat c = Throw (ThrownError e) ∧ retryable e) →
  ds (length (calls w) + length errs)%nat c = final →
  match final with
  | Ok _ => True
  | Throw ThrownUndefined => False
  | Throw (ThrownError e) =>
      ¬ retryable e ∨ Z.of_nat (length errs) + 1 = cfgMaxAttempts cfg
  end →
  ∃ w',
    registry_getPkgReleases ds (Some c) cfg w = (final, w') ∧
    calls w' = calls w ++ replicate (S (length errs)) c ∧
    sleeps w' = sleeps w ++
      map (fun k => Z.min (cfgInitialDelay cfg * cfgBackoffMultiplier cfg ^ (k - 1))
                      (cfgMaxDelay cfg))
          (seqZ 1 (Z.of_nat (length errs))) ∧
    (cfg = None →
     cfgMaxAttempts cfg = 3 ∧ cfgMaxDelay cfg = 30000 ∧
     sleeps w' = sleeps w ++ take (length errs) [1000; 2000]).
Proof.
  intros Hlen Herrs Hfinal Hsettle.
  destruct (retryLoop_run ds c cfg errs (Z.to_nat (cfgMaxAttempts cfg)) 1
              ThrownUndefined w final) as (w' & Hrun & Hc & Hs & _).
  - lia.
  - lia.
  - intros i e He. destruct (Herrs i e He) as [? ?%isRetryableObject_spec]. done.
  - done.
  - unfold settles. destruct final as [|[|e]]; try done.
    destruct Hsettle as [Hno|Hlast]; [left|right; lia].
    destruct (isRetryableObject e) eqn:E; [|done].
    by apply isRetryableObject_spec in E.
  - exists w'. split; [done|]. split; [done|]. split; [done|].
    intros ->. split; [done|]. split; [done|]. rewrite Hs. f_equal.
    change (cfgMaxAttempts None) with 3 in Hlen.
    destruct errs as [|e1 [|e2 [|e3 es]]]; try done. simpl in Hlen. lia.
Qed.

(** ** The cache *)

Section CacheFacts.
Variable versionings : gmap string VersioningApi.
Variable ds : Datasource.

(** A miss followed by a successful lookup of a non-empty release set stores
    the set for 15 minutes. *)
Lemma fetchVersions_stores (c : Config) (w w0 : World) (rr : ReleaseResult) :
  namesPackage c →
  fst (memCache.get cacheNamespace (cacheKeyOf c) w) = Ok None →
  registry_getPkgReleases ds (Some (lookupOf c)) None w = (Ok (Some rr), w0) →
  hasReleases (Some rr) = true →
  fetchVersions (realRegistry ds) c w =
    (Ok (Some rr),
     {| now := now w0;
        cache := <[(cacheNamespace, cacheKeyOf c) :=
                     {| value := rr; expiresAt := now w0 + 15 * 60000 |}]>
                   (cache w0);
        calls := calls w0; sleeps := sleeps w0 |}).
Proof.
  intros [Hd Hp] Hmiss Hfetch Hhas. unfold fetchVersions.
  rewrite Hd, Hp. simpl. unfold bind at 1.
  unfold memCache.get in *. simpl in Hmiss. injection Hmiss as Hmiss.
  rewrite Hmiss. unfold bind at 1. unfold registry_getPkgReleases in Hfetch.
  rewrite Hfetch.
  rewrite Hhas. done.
Qed.

(** A live entry is served without any lookup. *)
Lemma fetchVersions_hit (c : Config) (w : World) (e : CacheEntry) :
  namesPackage c →
  cachedFor w c = Some e → now w < expiresAt e →
  fetchVersions (realRegistry ds) c w = (Ok (Some (value e)), w).
Proof.
  intros [Hd Hp] Hentry Hlive. unfold fetchVersions.
  rewrite Hd, Hp. simpl. unfold bind, memCache.get.
  unfold cachedFor in Hentry. rewrite Hentry.
  by replace (now w <? expiresAt e) with true by lia.
Qed.
End CacheFacts.

(** C4 (as amended).  When the configuration names a package, a lookup that
    succeeds with a non-empty release set is stored under the key of
    (datasource, packageName, scheme id) for 15 minutes from then; while that
    entry is live, a call for the same key selects from the stored set and
    leaves the world as it was (no lookup is made), so the same arguments
    give the same output. *)
Theorem fetched_releases_are_cached_for_the_ttl
    (versionings : gmap string VersioningApi) (ds : Datasource)
    (api : VersioningApi) (a : GetNewValueConfig) (w w0 : World)
    (rr : ReleaseResult) :
  versionings !! versioning (config a) = Some api →
  default 0 (constraints (config a) ≫= offset) ≤ 0 →
  allowedLevel (constraints (config a) ≫= offsetLevel) →
  namesPackage (config a) →
  fst (memCache.get cacheNamespace (cacheKeyOf (config a)) w) = Ok None →
  registry_getPkgReleases ds (Some (lookupOf (config a))) None w
    = (Ok (Some rr), w0) →
  hasReleases (Some rr) = true →
  ∃ w1,
    getNewValueWith versionings ds a w
      = (Ok (selectVersion api a (Some rr)), w1) ∧
    cachedFor w1 (config a)
      = Some {| value := rr; expiresAt := now w1 + 15 * 60000 |} ∧
    ∀ (a2 : GetNewValueConfig) (w2 : World),
      datasource (config a2) = datasource (config a) →
      packageName (config a2) = packageName (config a) →
      versioning (config a2) = versioning (config a) →
      default 0 (constraints (config a2) ≫= offset) ≤ 0 →
      allowedLevel (constraints (config a2) ≫= offsetLevel) →
      cachedFor w2 (config a) = cachedFor w1 (config a) →
      now w2 < now w1 + 15 * 60000 →
      getNewValueWith versionings ds a2 w2
        = (Ok (selectVersion api a2 (Some rr)), w2).
Proof.
  intros Hreg Ho Hl Hnames Hmiss Hfetch Hhas.
  pose proof (fetchVersions_stores ds _ _ _ _ Hnames Hmiss Hfetch Hhas) as Hst.
  eexists. split; [|split].
  - unfold getNewValueWith. rewrite (getNewValue_registered _ _ _ _ _ Hreg).
    rewrite nonpositive_offset_accepted, allowedLevel_accepted by done.
    simpl. fold (realRegistry ds). by rewrite Hst.
  - unfold cachedFor. simpl. by rewrite lookup_insert_eq.
  - intros a2 w2 Hd Hp Hv Ho2 Hl2 Hentry Hlive.
    assert (Hkey : cacheKeyOf (config a2) = cacheKeyOf (config a)).
    { unfold cacheKeyOf. by rewrite Hd, Hp, Hv. }
    unfold cachedFor in Hentry. simpl in Hentry.
    rewrite lookup_insert_eq in Hentry.
    unfold getNewValueWith. rewrite (getNewValue_registered _ _ a2 api).
    2:{ by rewrite Hv. }
    rewrite nonpositive_offset_accepted, allowedLevel_accepted by done.
    simpl. fold (realRegistry ds).
    rewrite (fetchVersions_hit ds (config a2) w2
               {| value := rr; expiresAt := now w0 + 15 * 60000 |}); try done.
    + destruct Hnames. split; by rewrite ?Hd, ?Hp.
    + unfold cachedFor. by rewrite Hkey.
Qed.

(** ** Scenarios *)

(** C4, as stated, fails: a lookup that succeeds with an empty release set is
    not stored, and the next call for the same key makes a second lookup. *)
Lemma empty_release_set_is_not_cached :
  registry_getPkgReleases emptyDatasource (Some (lookupOf (config behindByOne)))
    None emptyWorld
    = (Ok (Some {| releases := Some [] |}),
       {| now := 0; cache := ∅; calls := [lookupOf (config behindByOne)];
          sleeps := [] |}) ∧
  cachedFor afterEmptyFetch (config behindByOne) = None ∧
  calls afterEmptyFetch = [lookupOf (config behindByOne)] ∧
  calls (snd (getNewValueWith scenarioVersionings emptyDatasource behindByOne
                afterEmptyFetch))
    = [lookupOf (config behindByOne); lookupOf (config behindByOne)].
Proof. by vm_compute. Qed.

(** C3, as stated, fails: with a positive offset and a scheme id that is not
    registered, [getNewValue] does not return the current value; [get]
    throws. *)
Lemma positive_offset_unregistered_scheme_throws :
  constraints (config unregisteredAhead) ≫= offset = Some 1 ∧
  fst (getNewValueWith scenarioVersionings
         (constantDatasource ["1.0.0"; "2.0.0"; "3.0.0"])
         unregisteredAhead emptyWorld)
    = Throw (ThrownError (unknownVersioning "unregistered")) ∧
  fst (getNewValueWith scenarioVersionings
         (constantDatasource ["1.0.0"; "2.0.0"; "3.0.0"])
         unregisteredAhead emptyWorld)
    ≠ Ok (Some (currentValue unregisteredAhead)).
Proof. by vm_compute. Qed.

Lemma append_assoc (a b c : string) : (a +:+ b) +:+ c = a +:+ (b +:+ c).
Proof.
  induction a as [|x a IH]; [done|].
  change (String x (a +:+ b +:+ c)) with (String x a +:+ b +:+ c).
  change ((String x a +:+ b) +:+ c) with (String x ((a +:+ b) +:+ c)).
  by rewrite IH.
Qed.

(** C9.  The cache key is not injective: a dash that ends the datasource
    part can as well start the package part, so datasource [x] with package
    [y-z] and datasource [x-y] with package [z] have the same key; [a] with
    [b-c] and [a-b] with [c] are such a pair.  On its own the second package
    resolves to its latest release 6.0.0; after a resolution of the first it
    is served the first one's cached releases, resolves to 2.0.0, and no
    lookup is made for it. *)
Theorem cache_key_collision :
  (∀ (x y z v : string) (cs : option Constraints),
     cacheKeyOf {| datasource := Some x; packageName := Some (y +:+ "-" +:+ z);
                   versioning := v; constraints := cs |}
     = cacheKeyOf {| datasource := Some (x +:+ "-" +:+ y); packageName := Some z;
                     versioning := v; constraints := cs |}) ∧
  (datasource collidingA, packageName collidingA)
    ≠ (datasource collidingB, packageName collidingB) ∧
  cacheKeyOf collidingA = cacheKeyOf collidingB ∧
  fst (getNewValueWith scenarioVersionings perPackageDatasource
         (semverArgs "5.0.0" collidingB) emptyWorld) = Ok (Some "6.0.0") ∧
  calls afterResolvingA = [lookupOf collidingA] ∧
  getNewValueWith scenarioVersionings perPackageDatasource
    (semverArgs "5.0.0" collidingB) afterResolvingA
    = (Ok (Some "2.0.0"), afterResolvingA).
Proof.
  split.
  { intros x y z v cs. unfold cacheKeyOf. simpl.
    by rewrite !append_assoc. }
  split; [discriminate|].
  split; [reflexivity|].
  split; [by vm_compute|].
  split; by vm_compute.
Qed.

Lemma positive_offset_never_fetches_witness :
  (∀ api, scenarioVersionings !! versioning (config registeredAhead) = Some api →
     getNewValue scenarioVersionings (realRegistry threeMajors) registeredAhead
       emptyWorld = (Ok (Some (currentValue registeredAhead)), emptyWorld)) ∧
  snd (getNewValue scenarioVersionings (realRegistry threeMajors)
         registeredAhead emptyWorld) = emptyWorld ∧
  calls (snd (getNewValueWith scenarioVersionings threeMajors registeredAhead
                emptyWorld)) = calls emptyWorld.
Proof.
  apply (positive_offset_never_fetches scenarioVersionings
           (realRegistry threeMajors) threeMajors registeredAhead emptyWorld 1);
    [reflexivity | lia].
Defined.


Lemma offset_beyond_list_returns_current_witness :
  fst (getNewValue scenarioVersionings (realRegistry threeMajors) farBehind
         emptyWorld) = Ok (Some (currentValue farBehind)).
Proof.
  apply (offset_beyond_list_returns_current scenarioVersionings
           (realRegistry threeMajors) Semver.api farBehind emptyWorld
           (snd (fetchVersions (realRegistry threeMajors) (config farBehind)
                   emptyWorld))
           (Some (releasesOf ["1.0.0"; "2.0.0"; "3.0.0"]))).
  - reflexivity.
  - vm_compute. reflexivity.
  - vm_compute. discriminate.
Defined.

Lemma result_is_a_fetched_version_witness :
  ∃ api versions rel,
    get scenarioVersionings (Some (versioning (config behindByOne))) = Ok api ∧
    fetchVersions (realRegistry (constantDatasource malformedReleases))
      (config behindByOne) emptyWorld
    = (Ok versions,
       snd (getNewValueWith scenarioVersionings
              (constantDatasource malformedReleases) behindByOne emptyWorld)) ∧
    rel ∈ fetchedReleases versions ∧ version rel = Some "2.0.0" ∧
    "2.0.0" ≠ "" ∧ isValid api "2.0.0" = Ok true ∧
    (constraints (config behindByOne) ≫= ignorePrerelease ≠ Some false →
     isStable api "2.0.0" = true).
Proof.
  apply (result_is_a_fetched_version scenarioVersionings
           (realRegistry (constantDatasource malformedReleases)) behindByOne
           emptyWorld).
  - vm_compute. reflexivity.
  - vm_compute. discriminate.
Defined.

Lemma grouped_selection_stays_among_siblings_witness :
  ∃ api,
    get scenarioVersionings (Some (versioning (config minorBehind))) = Ok api ∧
    (constraints (config minorBehind) ≫= offsetLevel = Some "minor" →
     getMajor api "2.2.0" = getMajor api (currentVersion minorBehind)) ∧
    (constraints (config minorBehind) ≫= offsetLevel = Some "patch" →
     getMajor api "2.2.0" = getMajor api (currentVersion minorBehind) ∧
     getMinor api "2.2.0" = getMinor api (currentVersion minorBehind)).
Proof.
  apply (grouped_selection_stays_among_siblings scenarioVersionings
           (realRegistry gappedMinors) minorBehind emptyWorld
           (snd (getNewValueWith scenarioVersionings gappedMinors minorBehind
                   emptyWorld))
           "2.2.0" (-1)).
  - reflexivity.
  - lia.
  - vm_compute. reflexivity.
  - vm_compute. discriminate.
Defined.

Lemma fetched_releases_are_cached_for_the_ttl_witness :
  ∃ w1,
    getNewValueWith scenarioVersionings (constantDatasource ["1.0.0"; "2.0.0"])
      behindByOne emptyWorld
      = (Ok (selectVersion Semver.api behindByOne (Some twoReleases)), w1) ∧
    cachedFor w1 (config behindByOne)
      = Some {| value := twoReleases; expiresAt := now w1 + 15 * 60000 |} ∧
    ∀ (a2 : GetNewValueConfig) (w2 : World),
      datasource (config a2) = datasource (config behindByOne) →
      packageName (config a2) = packageName (config behindByOne) →
      versioning (config a2) = versioning (config behindByOne) →
      default 0 (constraints (config a2) ≫= offset) ≤ 0 →
      allowedLevel (constraints (config a2) ≫= offsetLevel) →
      cachedFor w2 (config behindByOne) = cachedFor w1 (config behindByOne) →
      now w2 < now w1 + 15 * 60000 →
      getNewValueWith scenarioVersionings
        (constantDatasource ["1.0.0"; "2.0.0"]) a2 w2
        = (Ok (selectVersion Semver.api a2 (Some twoReleases)), w2).
Proof.
  apply (fetched_releases_are_cached_for_the_ttl scenarioVersionings
           (constantDatasource ["1.0.0"; "2.0.0"]) Semver.api behindByOne
           emptyWorld
           (snd (registry_getPkgReleases (constantDatasource ["1.0.0"; "2.0.0"])
                   (Some (lookupOf (config behindByOne))) None emptyWorld))
           twoReleases).
  - reflexivity.
  - vm_compute. discriminate.
  - left. reflexivity.
  - split; reflexivity.
  - reflexivity.
  - vm_compute. reflexivity.
  - reflexivity.
Defined.

Lemma registry_retries_with_backoff_witness :
  ∃ w',
    registry_getPkgReleases flakyDatasource
      (Some (lookupOf (config behindByOne))) None emptyWorld
      = (Ok (Some twoReleases), w') ∧
    calls w' = calls emptyWorld ++ replicate 3 (lookupOf (config behindByOne)) ∧
    sleeps w' = sleeps emptyWorld ++
      map (fun k => Z.min (cfgInitialDelay None * cfgBackoffMultiplier None ^ (k - 1))
                      (cfgMaxDelay None))
          (seqZ 1 (Z.of_nat 2)) ∧
    (@None RetryConfig = None →
     cfgMaxAttempts None = 3 ∧ cfgMaxDelay None = 30000 ∧
     sleeps w' = sleeps emptyWorld ++ take 2 [1000; 2000]).
Proof.
  apply (registry_retries_with_backoff flakyDatasource
           (lookupOf (config behindByOne)) None emptyWorld
           [timedOut; timedOut] (Ok (Some twoReleases))).
  - vm_compute. reflexivity.
  - intros [|[|i]] e; simpl; intros [= <-]; (split; [reflexivity|]);
      left; exists "ETIMEDOUT"; (split; [reflexivity|]);
      apply list_elem_of_further, list_elem_of_here.
  - reflexivity.
  - exact I.
Defined.

(** ** Sorting with a consistent comparator *)

Lemma consistentCheck_sound {A} (cmp : A → A → Z) (l : list A) :
  consistentCheck cmp l = true → consistentOn cmp l.
Proof.
  unfold consistentCheck. rewrite forallb_forall. intros H. split.
  - intros a b Ha%list_elem_of_In Hb%list_elem_of_In.
    specialize (H a Ha). rewrite forallb_forall in H. specialize (H b Hb).
    apply andb_true_iff in H as [H _]. apply Bool.eqb_prop in H.
    destruct (Z.ltb_spec (cmp a b) 0), (Z.ltb_spec 0 (cmp b a));
      simplify_eq; split; lia.
  - intros a b c Ha%list_elem_of_In Hb%list_elem_of_In Hc%list_elem_of_In.
    specialize (H a Ha). rewrite forallb_forall in H. specialize (H b Hb).
    apply andb_true_iff in H as [_ H]. rewrite forallb_forall in H.
    specialize (H c Hc). intros Hab Hbc.
    destruct (cmp a b <=? 0) eqn:E1; [|lia].
    destruct (cmp b c <=? 0) eqn:E2; [|lia]. simpl in H. lia.
Qed.

Lemma consistentOn_subseteq {A} (cmp : A → A → Z) (l k : list A) :
  (∀ x, x ∈ k → x ∈ l) → consistentOn cmp l → consistentOn cmp k.
Proof. intros Hsub [Hanti Htrans]. split; eauto 10. Qed.

Lemma sort_snoc {A} (cmp : A → A → Z) (l : list A) (x : A) :
  Js.sort cmp (l ++ [x]) = Js.insertSorted cmp x (Js.sort cmp l).
Proof. unfold Js.sort. by rewrite fold_left_app. Qed.

Section SortOrder.
Context {A : Type} (cmp : A → A → Z).

Lemma insertSorted_elem (x y : A) (l : list A) :
  x ∈ Js.insertSorted cmp y l ↔ x = y ∨ x ∈ l.
Proof. by rewrite insertSorted_perm, elem_of_cons. Qed.

Lemma insertSorted_sorted (x : A) (l : list A) :
  consistentOn cmp (x :: l) →
  StronglySorted (leBy cmp) l →
  StronglySorted (leBy cmp) (Js.insertSorted cmp x l).
Proof.
  intros [Hanti Htrans] Hl.
  induction Hl as [|y t Ht IH Hy]; simpl.
  - repeat constructor.
  - assert (Hx : x ∈ x :: y :: t) by apply list_elem_of_here.
    assert (Hyin : y ∈ x :: y :: t) by (right; left).
    destruct (cmp x y <? 0) eqn:E.
    + apply Z.ltb_lt in E. constructor; [by constructor|].
      constructor; [unfold leBy; lia|].
      rewrite Forall_forall in Hy |- *. intros z Hz.
      unfold leBy in *. apply (Htrans x y z); try done.
      * by do 2 right.
      * lia.
      * by apply Hy.
    + apply Z.ltb_ge in E. constructor.
      * apply IH.
        -- intros a b Ha Hb. apply Hanti.
           ++ apply elem_of_cons in Ha as [->|Ha]; [done|by do 2 right].
           ++ apply elem_of_cons in Hb as [->|Hb]; [done|by do 2 right].
        -- intros a b c Ha Hb Hc. apply Htrans.
           ++ apply elem_of_cons in Ha as [->|Ha]; [done|by do 2 right].
           ++ apply elem_of_cons in Hb as [->|Hb]; [done|by do 2 right].
           ++ apply elem_of_cons in Hc as [->|Hc]; [done|by do 2 right].
      * rewrite Forall_forall in Hy |- *. intros z Hz.
        apply insertSorted_elem in Hz as [->|Hz]; [|by apply Hy].
        unfold leBy. pose proof (Hanti x y Hx Hyin). lia.
Qed.

Lemma sort_from_sorted (L l acc : list A) :
  consistentOn cmp L → (∀ x, x ∈ acc ++ l → x ∈ L) →
  StronglySorted (leBy cmp) acc →
  StronglySorted (leBy cmp)
    (fold_left (fun acc x => Js.insertSorted cmp x acc) l acc).
Proof.
  intros HL. revert acc. induction l as [|x l IH]; intros acc Hsub Hacc; simpl.
  - done.
  - apply IH.
    + intros y Hy. apply Hsub. rewrite elem_of_app in Hy |- *.
      destruct Hy as [Hy|Hy]; [|right; by right].
      apply insertSorted_elem in Hy as [->|Hy]; [right; left|by left].
    + apply insertSorted_sorted; [|done].
      apply (consistentOn_subseteq cmp L); [|done].
      intros y Hy. apply Hsub. rewrite elem_of_app.
      apply elem_of_cons in Hy as [->|Hy]; [right; left|by left].
Qed.

(** The sort returns an ascending list. *)
Lemma sort_sorted (l : list A) :
  consistentOn cmp l → StronglySorted (leBy cmp) (Js.sort cmp l).
Proof.
  intros Hl. apply (sort_from_sorted l); [done|done|constructor].
Qed.

Lemma insertSorted_last (x : A) (l : list A) :
  (∀ y, y ∈ l → ¬ cmp x y < 0) → Js.insertSorted cmp x l = l ++ [x].
Proof.
  induction l as [|y t IH]; intros H; simpl; [done|].
  assert (E : (cmp x y <? 0) = false).
  { apply Z.ltb_ge. pose proof (H y (list_elem_of_here _ _)). lia. }
  rewrite E, IH; [done|]. intros z Hz. apply H. by right.
Qed.

(** Sorting an ascending list changes nothing. *)
Lemma sort_sorted_id (l : list A) :
  consistentOn cmp l → StronglySorted (leBy cmp) l → Js.sort cmp l = l.
Proof.
  induction l as [|x l IH] using rev_ind; intros Hc Hl; [done|].
  rewrite sort_snoc.
  apply StronglySorted_app in Hl as (Hlx & Hl & _).
  rewrite IH; [| |done].
  - apply insertSorted_last. intros y Hy.
    specialize (Hlx y x Hy (list_elem_of_here _ _)). unfold leBy in Hlx.
    destruct Hc as [Hanti _].
    pose proof (Hanti x y). rewrite !elem_of_app, !list_elem_of_singleton in H.
    specialize (H (or_intror eq_refl) (or_introl Hy)). lia.
  - apply (consistentOn_subseteq cmp (l ++ [x])); [|done].
    intros y Hy. rewrite elem_of_app. by left.
Qed.

Lemma insertSorted_ext (cmp' : A → A → Z) (x : A) (l : list A) :
  (∀ y, y ∈ l → cmp x y = cmp' x y) →
  Js.insertSorted cmp x l = Js.insertSorted cmp' x l.
Proof.
  induction l as [|y t IH]; intros H; simpl; [done|].
  rewrite (H y) by left. rewrite IH; [done|]. intros z Hz. apply H. by right.
Qed.

(** Two comparators that agree on the elements sort alike. *)
Lemma sort_ext_on (cmp' : A → A → Z) (l : list A) :
  (∀ a b, a ∈ l → b ∈ l → cmp a b = cmp' a b) →
  Js.sort cmp l = Js.sort cmp' l.
Proof.
  induction l as [|x l IH] using rev_ind; intros H; [done|].
  rewrite !sort_snoc, IH.
  - apply insertSorted_ext. intros y Hy%sort_elem. apply H.
    + rewrite elem_of_app. right. left.
    + rewrite elem_of_app. by left.
  - intros a b Ha Hb. apply H; rewrite elem_of_app; by left.
Qed.

Lemma filter_sorted (f : A → bool) (l : list A) :
  StronglySorted (leBy cmp) l → StronglySorted (leBy cmp) (List.filter f l).
Proof.
  induction 1 as [|x l Hl IH Hx]; simpl; [constructor|].
  destruct (f x); [|done]. constructor; [done|].
  rewrite Forall_forall in Hx |- *. intros y Hy%List_filter_elem.
  apply Hx. by destruct Hy.
Qed.
End SortOrder.

Lemma coherentCheck_sound (api : VersioningApi) (V : list string) :
  coherentCheck api V = true → coherentOn api V.
Proof.
  unfold coherentCheck. rewrite forallb_forall.
  intros H a b Ha%list_elem_of_In Hb%list_elem_of_In E.
  specialize (H a Ha). rewrite forallb_forall in H. specialize (H b Hb).
  apply Z.eqb_eq in E. rewrite E in H. simpl in H.
  apply andb_true_iff in H as [[H1 H2]%andb_true_iff H3]. lia.
Qed.

(** ** Updating an object *)

Section ObjUpdates.
Context {V : Type}.
Implicit Types (o : Js.Obj V) (k : string).

Lemma objGet_objAlter (f : V → V) o k k' :
  Js.objGet (Js.objAlter f o k) k' =
    if String.eqb k' k then f <$> Js.objGet o k else Js.objGet o k'.
Proof.
  induction o as [|[k0 v0] t IH]; simpl.
  - by destruct (String.eqb k' k).
  - destruct (String.eqb k k0) eqn:E0; simpl.
    + apply String.eqb_eq in E0 as <-.
      destruct (String.eqb k' k) eqn:E1; [done|]. done.
    + destruct (String.eqb k' k0) eqn:E1.
      * apply String.eqb_eq in E1 as ->.
        rewrite String.eqb_sym in E0. by rewrite E0.
      * apply IH.
Qed.

Lemma objGet_objAdd o k v k' :
  Js.objGet (Js.objAdd o k v) k' =
    match Js.objGet o k' with
    | Some x => Some x
    | None => if String.eqb k' k then Some v else None
    end.
Proof.
  unfold Js.objAdd. induction o as [|[k0 v0] t IH]; simpl; [done|].
  by destruct (String.eqb k' k0).
Qed.

Lemma objAlter_keys (f : V → V) o k :
  map fst (Js.objAlter f o k) = map fst o.
Proof.
  induction o as [|[k0 v0] t IH]; simpl; [done|].
  destruct (String.eqb k k0); simpl; by rewrite ?IH.
Qed.

Lemma objGet_map (g : V → V) o k :
  Js.objGet (map (fun kv => (fst kv, g (snd kv))) o) k = g <$> Js.objGet o k.
Proof.
  induction o as [|[k0 v0] t IH]; simpl; [done|].
  by destruct (String.eqb k k0).
Qed.

Lemma objMap_keys (g : V → V) o :
  map fst (map (fun kv => (fst kv, g (snd kv))) o) = map fst o.
Proof. induction o as [|[k0 v0] t IH]; simpl; by rewrite ?IH. Qed.
End ObjUpdates.

(** ** The groups the code builds are the groups of the specification *)

Section GroupShape.
Import GroupedSpec.
Variable api : VersioningApi.
Variable l : Level.

Lemma groupKeyOf_keyAt (v : string) :
  groupKeyOf api (levelName l) v = Some (keyAt api l v).
Proof. by destruct l. Qed.

Lemma nonempty_snoc (m : list string) (v : string) :
  nonempty (m ++ [v]) = Some (m ++ [v]).
Proof. by destruct m. Qed.

Lemma nonempty_Some (m m' : list string) : nonempty m = Some m' → m = m'.
Proof. destruct m; [done|]. by intros [= <-]. Qed.

Lemma nonempty_None (m : list string) : nonempty m = None → m = [].
Proof. by destruct m. Qed.

Lemma nonempty_last (m : list string) : nonempty m ≫= last = last m.
Proof. by destruct m. Qed.

Lemma membersOf_snoc (W : list string) (v k : string) :
  membersOf api l (W ++ [v]) k =
    membersOf api l W k ++ (if String.eqb (keyAt api l v) k then [v] else []).
Proof. unfold membersOf. by rewrite List.filter_app. Qed.

Lemma membersOf_elem (W : list string) (v k : string) :
  v ∈ membersOf api l W k ↔ v ∈ W ∧ keyAt api l v = k.
Proof. unfold membersOf. by rewrite List_filter_elem, String.eqb_eq. Qed.

(** After the loop over [vs], the object holds one property for each key
    that occurs among the versions [isVersion] accepts, and its value lists
    the versions of that key in order. *)
Lemma groupFold_shape (vs : list string) :
  NoDup (map fst (fold_left (groupStep api (levelName l)) vs [])) ∧
  ∀ k, Js.objGet (fold_left (groupStep api (levelName l)) vs []) k
       = nonempty (membersOf api l (List.filter (isVersion api) vs) k).
Proof.
  induction vs as [|v vs [IHnd IH]] using rev_ind.
  { split; [constructor|done]. }
  rewrite fold_left_app, List.filter_app. simpl.
  set (G := fold_left (groupStep api (levelName l)) vs []) in *.
  set (W := List.filter (isVersion api) vs) in *.
  unfold groupStep. destruct (isVersion api v); simpl.
  2:{ by rewrite app_nil_r. }
  rewrite groupKeyOf_keyAt. unfold pushVersion.
  pose proof (IH (keyAt api l v)) as Hkv.
  destruct (Js.objGet G (keyAt api l v)) as [m|] eqn:Hget.
  - symmetry in Hkv. apply nonempty_Some in Hkv.
    split; [by rewrite objAlter_keys|].
    intros k. rewrite objGet_objAlter, membersOf_snoc.
    destruct (String.eqb k (keyAt api l v)) eqn:E.
    + apply String.eqb_eq in E as ->. rewrite String.eqb_refl, Hget. simpl.
      by rewrite Hkv, nonempty_snoc.
    + rewrite String.eqb_sym, E, app_nil_r. apply IH.
  - symmetry in Hkv. apply nonempty_None in Hkv.
    split.
    + unfold Js.objAdd. rewrite map_app. simpl. apply NoDup_app.
      split; [done|]. split; [|apply NoDup_singleton].
      intros k Hk ->%list_elem_of_singleton.
      by apply objGet_None in Hget.
    + intros k. rewrite objGet_objAdd, membersOf_snoc, IH.
      destruct (String.eqb k (keyAt api l v)) eqn:E.
      * apply String.eqb_eq in E as ->. by rewrite String.eqb_refl, Hkv.
      * rewrite String.eqb_sym, E, app_nil_r.
        by destruct (nonempty _).
Qed.

(** The early exit for an empty array returns what the loop would. *)
Lemma groupVersionsBySemverLevel_loop (vs : list string) (level : string) :
  groupVersionsBySemverLevel api vs level
    = map (fun kv => (fst kv, sortGroup api (snd kv)))
        (fold_left (groupStep api level) vs []).
Proof. by destruct vs. Qed.

Variable V : list string.
Hypothesis Vconsistent : consistentOn (sortVersions api) V.
Hypothesis Vsorted : StronglySorted (leBy (sortVersions api)) V.

Lemma grouped_elem (v : string) : v ∈ grouped api V → v ∈ V.
Proof. unfold grouped. rewrite List_filter_elem. by intros []. Qed.

Lemma sortGroup_members (k : string) :
  sortGroup api (membersOf api l (grouped api V) k) = membersOf api l (grouped api V) k.
Proof.
  unfold sortGroup. destruct (_ <? _); [|done].
  apply sort_sorted_id.
  - apply (consistentOn_subseteq _ V); [|done].
    intros v [Hv _]%membersOf_elem. by apply grouped_elem.
  - unfold membersOf, grouped. by do 2 apply filter_sorted.
Qed.

(** The object [groupVersionsBySemverLevel] returns. *)
Lemma groups_shape :
  NoDup (map fst (groupVersionsBySemverLevel api V (levelName l))) ∧
  ∀ k, Js.objGet (groupVersionsBySemverLevel api V (levelName l)) k
       = nonempty (membersOf api l (grouped api V) k).
Proof.
  rewrite groupVersionsBySemverLevel_loop. unfold grouped.
  destruct (groupFold_shape V) as [Hnd Hget].
  split; [by rewrite objMap_keys|].
  intros k. rewrite objGet_map, Hget.
  destruct (membersOf _ _ _ k) as [|x m] eqn:Hm; [done|]. simpl.
  f_equal. rewrite <- Hm. apply sortGroup_members.
Qed.

Lemma latestOf_maximal (k : string) :
  latestOf (groupVersionsBySemverLevel api V (levelName l)) k
    = maximal api l (grouped api V) k.
Proof.
  unfold latestOf, maximal. destruct groups_shape as [_ ->].
  apply nonempty_last.
Qed.

Lemma group_keys (k : string) :
  k ∈ map fst (groupVersionsBySemverLevel api V (levelName l))
    ↔ k ∈ keysOf api l (grouped api V).
Proof.
  unfold keysOf. rewrite elem_of_remove_dups.
  destruct groups_shape as [_ Hget]. split.
  - intros Hk.
    destruct (Js.objGet (groupVersionsBySemverLevel api V (levelName l)) k)
      as [m|] eqn:Hm.
    + rewrite Hget in Hm.
      destruct (membersOf api l (grouped api V) k) as [|v m'] eqn:Hv; [done|].
      assert (Hin : v ∈ membersOf api l (grouped api V) k) by (rewrite Hv; left).
      apply membersOf_elem in Hin as [? ?].
      apply list_elem_of_fmap. by exists v.
    + by apply objGet_None in Hm.
  - intros (v & -> & Hv)%list_elem_of_fmap. apply dec_stable. intros Hno.
    apply objGet_None in Hno. rewrite Hget in Hno.
    apply nonempty_None in Hno.
    assert (Hin : v ∈ membersOf api l (grouped api V) (keyAt api l v))
      by by apply membersOf_elem.
    rewrite Hno in Hin. by apply not_elem_of_nil in Hin.
Qed.

(** The maximal member of a key that occurs is a grouped version with that
    key. *)
Lemma maximal_of_key (k : string) :
  k ∈ keysOf api l (grouped api V) →
  ∃ v, maximal api l (grouped api V) k = Some v ∧ v ∈ V ∧ keyAt api l v = k.
Proof.
  unfold keysOf. rewrite elem_of_remove_dups, list_elem_of_fmap.
  intros (v & -> & Hv). unfold maximal.
  destruct (last _) as [x|] eqn:Hlast.
  - exists x. split; [done|].
    apply last_Some_elem_of, membersOf_elem in Hlast as [? ?].
    split; [by apply grouped_elem|done].
  - apply last_None in Hlast.
    assert (Hin : v ∈ membersOf api l (grouped api V) (keyAt api l v))
      by by apply membersOf_elem.
    rewrite Hlast in Hin. by apply not_elem_of_nil in Hin.
Qed.
End GroupShape.

Lemma List_filter_all {A} (l : list A) : List.filter (fun _ => true) l = l.
Proof. induction l as [|x l IH]; simpl; by rewrite ?IH. Qed.

Section Refinement.
Import GroupedSpec.
Variable api : VersioningApi.
Variable l : Level.
Variable V : list string.
Hypothesis Vconsistent : consistentOn (sortVersions api) V.
Hypothesis Vsorted : StronglySorted (leBy (sortVersions api)) V.
Hypothesis Vcoherent : coherentOn api V.

Lemma compareGroups_compareKeys (a b : string) :
  compareGroups api (groupVersionsBySemverLevel api V (levelName l)) a b
    = compareKeys api l (grouped api V) a b.
Proof.
  unfold compareGroups, compareKeys.
  by rewrite !(latestOf_maximal api l V Vconsistent Vsorted).
Qed.

Lemma keys_consistent :
  consistentOn (compareKeys api l (grouped api V))
    (keysOf api l (grouped api V)).
Proof.
  destruct Vconsistent as [Hanti Htrans]. split.
  - intros a b (x & Hx & HxV & _)%maximal_of_key (y & Hy & HyV & _)%maximal_of_key.
    unfold compareKeys. rewrite Hx, Hy. by apply Hanti.
  - intros a b c (x & Hx & HxV & _)%maximal_of_key
      (y & Hy & HyV & _)%maximal_of_key (z & Hz & HzV & _)%maximal_of_key.
    unfold compareKeys. rewrite Hx, Hy, Hz. by apply Htrans.
Qed.

(** Two groups whose maximal members do not differ are the same group. *)
Lemma keys_strict (a b : string) :
  a ∈ keysOf api l (grouped api V) → b ∈ keysOf api l (grouped api V) →
  leBy (compareKeys api l (grouped api V)) a b →
  leBy (compareKeys api l (grouped api V)) b a → a = b.
Proof.
  intros (x & Hx & HxV & <-)%maximal_of_key (y & Hy & HyV & <-)%maximal_of_key.
  unfold leBy, compareKeys. rewrite Hx, Hy. intros Hab Hba.
  destruct Vconsistent as [Hanti _]. pose proof (Hanti x y HxV HyV).
  assert (E : sortVersions api x y = 0) by lia.
  destruct (Vcoherent x y HxV HyV E) as (HM & Hm & Hp).
  unfold keyAt. by rewrite HM, Hm, Hp.
Qed.

Lemma objKeys_keysOf (k : string) :
  k ∈ Js.objKeys (groupVersionsBySemverLevel api V (levelName l))
    ↔ k ∈ keysOf api l (grouped api V).
Proof.
  rewrite objKeys_elem. by apply group_keys.
Qed.

(** The sorted group keys of the code are the ordered keys of the
    specification. *)
Lemma sorted_keys :
  Js.sort (compareGroups api (groupVersionsBySemverLevel api V (levelName l)))
    (Js.objKeys (groupVersionsBySemverLevel api V (levelName l)))
  = orderedKeys api l (grouped api V).
Proof.
  rewrite (sort_ext_on _ (compareKeys api l (grouped api V)))
    by (intros; apply compareGroups_compareKeys).
  unfold orderedKeys.
  apply (StronglySorted_unique_strong
           (leBy (compareKeys api l (grouped api V)))).
  - intros a b Ha%sort_elem%objKeys_keysOf Hb%sort_elem. by apply keys_strict.
  - apply sort_sorted.
    apply (consistentOn_subseteq _ (keysOf api l (grouped api V)));
      [|apply keys_consistent].
    by intros k Hk%objKeys_keysOf.
  - apply sort_sorted, keys_consistent.
  - rewrite !sort_perm, objKeys_perm.
    apply NoDup_Permutation.
    + by destruct (groups_shape api l V Vconsistent Vsorted).
    + apply NoDup_remove_dups.
    + intros k. by apply group_keys.
Qed.

(** The key filters of the code keep the sibling groups. *)
Lemma sibling_keys (cur : string) (ks : list string) :
  (∀ k, k ∈ ks → k ∈ keysOf api l (grouped api V)) →
  filterGroupKeys api (levelName l) cur ks
    = List.filter (sibling api l cur (grouped api V)) ks.
Proof.
  intros Hks. unfold filterGroupKeys. destruct l; simpl.
  - symmetry. rewrite <- (List_filter_all ks) at 2.
    by apply filter_ext_in.
  - apply filter_ext_in.
    intros k (v & Hv & _ & Hkey)%list_elem_of_In%Hks%maximal_of_key.
    unfold sibling. rewrite Hv.
    apply (sameMajor_minorKey api v). rewrite <- Hkey.
    apply (groupKeyOf_keyAt api Minor).
  - apply filter_ext_in.
    intros k (v & Hv & _ & Hkey)%list_elem_of_In%Hks%maximal_of_key.
    unfold sibling. rewrite Hv.
    apply (sameMajorMinor_patchKey api v). rewrite <- Hkey.
    apply (groupKeyOf_keyAt api Patch).
Qed.

(** The grouped lookup of the code is the selection of the specification
    over the versions that [isVersion] accepts. *)
Lemma grouped_refines (o : Z) (cur : string) :
  getVersionFromSemverGroups api
    (groupVersionsBySemverLevel api V (levelName l)) o (levelName l) cur
    = select api l o cur (grouped api V).
Proof.
  unfold getVersionFromSemverGroups, select.
  rewrite sorted_keys.
  rewrite sibling_keys by (intros k Hk%sort_elem; done).
  set (ks := orderedKeys api l (grouped api V)).
  set (fk := List.filter (sibling api l cur (grouped api V)) ks).
  destruct (Z.of_nat (length ks) =? 0) eqn:E0.
  { assert (Hfk : fk = []).
    { subst fk. destruct ks; [done|]. simpl in E0. lia. }
    rewrite Hfk. simpl. by destruct (_ || _)%bool. }
  destruct (Z.of_nat (length fk) =? 0) eqn:E1.
  { destruct fk; [|simpl in E1; lia]. simpl. by destruct (_ || _)%bool. }
  destruct (_ || _)%bool; [done|].
  destruct (fk !! _) as [k|]; simpl; [|done].
  apply (latestOf_maximal api l V Vconsistent Vsorted).
Qed.
End Refinement.

Lemma truthyStr_nonempty (s : string) : s ≠ "" → Js.truthyStr s = true.
Proof. by destruct s. Qed.

(** The selection of the specification returns one of the versions. *)
Lemma select_elem (api : VersioningApi) (l : GroupedSpec.Level) (o : Z)
    (cur r : string) (W : list string) :
  GroupedSpec.select api l o cur W = Some r → r ∈ W.
Proof.
  unfold GroupedSpec.select. destruct (_ || _)%bool; [done|].
  destruct (_ !! _) as [k|]; simpl; [|done].
  intros Hr%last_Some_elem_of. unfold GroupedSpec.membersOf in Hr.
  apply List_filter_elem in Hr. by destruct Hr.
Qed.

(** The selection after the fetch, in grouped mode. *)
Lemma selectVersion_refines (api : VersioningApi) (a : GetNewValueConfig)
    (versions : option ReleaseResult) (l : GroupedSpec.Level) (o : Z) :
  constraints (config a) ≫= offset = Some o → o ≠ 0 →
  constraints (config a) ≫= offsetLevel = Some (GroupedSpec.levelName l) →
  consistentOn (sortVersions api)
    (sortedVersionsOf api (config a) (fetchedReleases versions)) →
  coherentOn api (sortedVersionsOf api (config a) (fetchedReleases versions)) →
  selectVersion api a versions =
    Some (default (currentValue a)
            (GroupedSpec.select api l o (currentVersion a)
               (List.filter (isVersion api)
                  (sortedVersionsOf api (config a) (fetchedReleases versions))))).
Proof.
  intros Ho Hnz Hl Hcons Hcoh.
  assert (Hsorted : StronglySorted (leBy (sortVersions api))
            (sortedVersionsOf api (config a) (fetchedReleases versions))).
  { apply sort_sorted.
    apply (consistentOn_subseteq _
             (sortedVersionsOf api (config a) (fetchedReleases versions)));
      [|done].
    intros x Hx. by apply sortedVersionsOf_elem. }
  pose proof (grouped_refines api l _ Hcons Hsorted Hcoh o (currentVersion a))
    as Href.
  unfold selectVersion.
  destruct (hasReleases versions) eqn:Hh; simpl.
  2:{ rewrite (no_releases_fetched _ Hh), sortedVersionsOf_nil.
      unfold GroupedSpec.select. simpl. by destruct (_ || _)%bool. }
  fold (fetchedReleases versions).
  change (Js.sort (sortVersions api)
            (filterVersions api (config a) (fetchedReleases versions)))
    with (sortedVersionsOf api (config a) (fetchedReleases versions)) in *.
  rewrite <- (sortedVersionsOf_length api (config a)).
  set (sv := sortedVersionsOf api (config a) (fetchedReleases versions)) in *.
  destruct (Z.of_nat (length sv) =? 0) eqn:E0.
  { destruct sv; [|simpl in E0; lia].
    unfold GroupedSpec.select. simpl. by destruct (_ || _)%bool. }
  rewrite Ho, Hl. simpl.
  assert (E : (o =? 0) = false) by (apply Z.eqb_neq; lia). rewrite E.
  replace (Js.truthyStr (GroupedSpec.levelName l)) with true by by destruct l.
  simpl. rewrite Href. unfold grouped.
  destruct (GroupedSpec.select _ _ _ _ _) as [r|] eqn:Hr; [|done]. simpl.
  rewrite truthyStr_nonempty; [done|].
  apply select_elem, List_filter_elem in Hr as [Hr _].
  apply sortedVersionsOf_elem, filterVersions_elem in Hr. by destruct Hr as (_ & ? & _).
Qed.

(** C2 (as amended).  With an offset level and an offset other than 0,
    [getNewValue] groups, by the requested level, those of the sorted
    filtered versions that the scheme's [isVersion] accepts, orders the group
    keys by the groups' maximal members, keeps the sibling groups, selects
    the one at index [groupCount - 1 + offset] and returns its maximal
    member, or the current value when the filtered key list is empty or the
    index is out of range.  The comparator is taken to be consistent on the
    versions, and equal versions to have equal components.  For the releases
    1.0.0 to 3.1.0 of the scenario, current version 3.1.0, offset -1 and
    level major, the result is 2.1.0. *)
Theorem grouped_selection_refines_spec
    (versionings : gmap string VersioningApi)
    (registry : option GetPkgReleasesConfig → M (option ReleaseResult))
    (api : VersioningApi) (a : GetNewValueConfig) (w w1 : World)
    (versions : option ReleaseResult) (l : GroupedSpec.Level) (o : Z) :
  versionings !! versioning (config a) = Some api →
  constraints (config a) ≫= offset = Some o → o ≠ 0 →
  constraints (config a) ≫= offsetLevel = Some (GroupedSpec.levelName l) →
  fetchVersions registry (config a) w = (Ok versions, w1) →
  consistentOn (sortVersions api)
    (sortedVersionsOf api (config a) (fetchedReleases versions)) →
  coherentOn api (sortedVersionsOf api (config a) (fetchedReleases versions)) →
  fst (getNewValue versionings registry a w) =
    Ok (Some (default (currentValue a)
                (GroupedSpec.select api l o (currentVersion a)
                   (List.filter (isVersion api)
                      (sortedVersionsOf api (config a)
                         (fetchedReleases versions)))))) ∧
  fst (getNewValueWith scenarioVersionings (constantDatasource sixReleases)
         majorBehind emptyWorld) = Ok (Some "2.1.0").
Proof.
  intros Hreg Ho Hnz Hl Hfetch Hcons Hcoh. split; [|by vm_compute].
  rewrite (getNewValue_registered _ _ _ _ _ Hreg), Hfetch.
  rewrite (selectVersion_refines api a versions l o) by done.
  destruct (_ || _)%bool eqn:Hrej; [|done]. simpl. do 2 f_equal.
  destruct (GroupedSpec.select _ _ _ _ _) as [r|] eqn:Hr; [|done].
  exfalso. revert Hr. unfold GroupedSpec.select.
  set (ks := List.filter _ _).
  assert (Hpos : 0 < o).
  { apply orb_true_iff in Hrej as [Hrej|Hrej].
    - unfold offsetRejected in Hrej. rewrite Ho in Hrej. lia.
    - unfold offsetLevelRejected in Hrej. rewrite Hl in Hrej.
      by destruct l. }
  replace (Z.of_nat (length ks) <=? Z.of_nat (length ks) - 1 + o) with true
    by lia.
  by rewrite orb_true_r.
Qed.

Lemma grouped_selection_refines_spec_witness :
  fst (getNewValue scenarioVersionings
         (realRegistry (constantDatasource sixReleases)) majorBehind emptyWorld) =
    Ok (Some (default (currentValue majorBehind)
                (GroupedSpec.select Semver.api GroupedSpec.Major (-1)
                   (currentVersion majorBehind)
                   (List.filter (isVersion Semver.api)
                      (sortedVersionsOf Semver.api (config majorBehind)
                         (fetchedReleases (Some (releasesOf sixReleases)))))))) ∧
  fst (getNewValueWith scenarioVersionings (constantDatasource sixReleases)
         majorBehind emptyWorld) = Ok (Some "2.1.0").
Proof.
  apply (grouped_selection_refines_spec scenarioVersionings
           (realRegistry (constantDatasource sixReleases)) Semver.api
           majorBehind emptyWorld
           (snd (fetchVersions (realRegistry (constantDatasource sixReleases))
                   (config majorBehind) emptyWorld))
           (Some (releasesOf sixReleases)) GroupedSpec.Major (-1)).
  - reflexivity.
  - reflexivity.
  - lia.
  - reflexivity.
  - vm_compute. reflexivity.
  - apply consistentCheck_sound. vm_compute. reflexivity.
  - apply coherentCheck_sound. vm_compute. reflexivity.
Defined.

(** C2, as stated, fails: when the sorted filtered versions contain one that
    [isVersion] rejects, that one is not grouped.  Grouping all three sorted
    filtered versions selects 2.0.0, the maximal member of the group before
    the last; the code groups only two of them and returns 1.0.0. *)
Lemma ungrouped_version_shifts_selection :
  sortedVersionsOf Rangeish.api (config rangeBehind)
    (fetchedReleases (Some (releasesOf withRange))) = withRange ∧
  consistentCheck (sortVersions Rangeish.api) withRange = true ∧
  coherentCheck Rangeish.api withRange = true ∧
  GroupedSpec.select Rangeish.api GroupedSpec.Major (-1)
    (currentVersion rangeBehind) withRange = Some "2.0.0" ∧
  fst (getNewValueWith rangeishVersionings (constantDatasource withRange)
         rangeBehind emptyWorld) = Ok (Some "1.0.0") ∧
  fst (getNewValueWith rangeishVersionings (constantDatasource withRange)
         rangeBehind emptyWorld)
    ≠ Ok (Some (default (currentValue rangeBehind)
                  (GroupedSpec.select Rangeish.api GroupedSpec.Major (-1)
                     (currentVersion rangeBehind) withRange))).
Proof. by vm_compute. Qed.

(** * Further properties *)

(** ** Runs of the retry loop *)

Section RetryRuns.
Variable ds : Datasource.
Variable c : GetPkgReleasesConfig.
Variable cfg : option RetryConfig.

Lemma totalWait_app (d1 d2 : list Z) :
  totalWait (d1 ++ d2) = totalWait d1 + totalWait d2.
Proof. induction d1 as [|d d1 IH]; simpl; lia. Qed.

(** Whatever the datasource answers, the loop makes between one lookup and
    as many as are left, all for the same request, sleeps between them, and
    ends with the outcome of the last one. *)
Lemma retryLoop_any (remaining : nat) :
  ∀ (attempt : Z) (lastError : Thrown) (w : World),
  Z.of_nat remaining = cfgMaxAttempts cfg - attempt + 1 →
  remaining ≠ O →
  ∃ (n : nat) (w' : World),
    (n < remaining)%nat ∧
    retryLoop (getPkgReleases ds c) cfg remaining attempt lastError w
      = (surfaced (ds (length (calls w) + n)%nat c), w') ∧
    calls w' = calls w ++ replicate (S n) c ∧
    sleeps w' = sleeps w ++ map (delayAfter cfg) (seqZ attempt (Z.of_nat n)) ∧
    cache w' = cache w ∧
    now w' = now w +
             totalWait (map (delayAfter cfg) (seqZ attempt (Z.of_nat n))).
Proof.
  induction remaining as [|r IH]; intros attempt lastError w Hrem Hpos;
    [done|].
  cbn [retryLoop]. unfold tryCatch, getPkgReleases at 1.
  destruct (ds (length (calls w)) c) as [v|[|e]] eqn:Hds.
  - exists O. eexists. rewrite Nat.add_0_r, Hds.
    split; [lia|]. split; [reflexivity|]. simpl.
    rewrite app_nil_r. repeat split; lia.
  - exists O. eexists. rewrite Nat.add_0_r, Hds.
    split; [lia|]. split; [reflexivity|]. simpl.
    rewrite app_nil_r. repeat split; lia.
  - cbn [isRetryableError].
    destruct (negb (isRetryableObject e)
              || (attempt =? cfgMaxAttempts cfg))%bool
      eqn:Estop.
    + exists O. eexists. rewrite Nat.add_0_r, Hds.
      split; [lia|]. split; [reflexivity|]. simpl.
      rewrite app_nil_r. repeat split; lia.
    + apply orb_false_iff in Estop as [_ Hne]. apply Z.eqb_neq in Hne.
      unfold bind, sleep at 1.
      match goal with
      | |- context [retryLoop _ _ r _ _ ?w2] => set (w1 := w2)
      end.
      destruct (IH (attempt + 1) (ThrownError e) w1) as
        (n & w' & Hn & Hres & Hc & Hs & Hm & Ht); [lia|lia|].
      exists (S n), w'. split; [lia|].
      rewrite Hres, Hc, Hs, Hm, Ht. subst w1. simpl.
      rewrite length_app. simpl.
      replace (length (calls w) + 1 + n)%nat
        with (length (calls w) + S n)%nat by lia.
      rewrite <- !app_assoc. simpl.
      rewrite (seqZ_cons attempt) by lia. simpl.
      replace (Z.pred (Z.of_nat (S n))) with (Z.of_nat n) by lia.
      replace (Z.succ attempt) with (attempt + 1) by lia.
      repeat split; try done. lia.
Qed.
End RetryRuns.

(** X4.  With a [maxAttempts] of 0 or less the body of the loop never
    runs: no lookup is made, nothing changes, and the promise is rejected
    with [lastError], which is still [undefined]. *)
Theorem no_attempt_rejects_with_undefined (ds : Datasource)
    (c : GetPkgReleasesConfig) (cfg : RetryConfig) (w : World) :
  cfgMaxAttempts (Some cfg) ≤ 0 →
  registry_getPkgReleases ds (Some c) (Some cfg) w = (Throw ThrownUndefined, w).
Proof.
  intros Hmax. unfold registry_getPkgReleases, retryWithExponentialBackoff.
  replace (Z.to_nat (cfgMaxAttempts (Some cfg))) with O by lia. done.
Qed.

Lemma registry_run (ds : Datasource) (c : GetPkgReleasesConfig)
    (cfg : option RetryConfig) (w : World) :
  0 < cfgMaxAttempts cfg →
  ∃ (n : nat) (w' : World),
    Z.of_nat n < cfgMaxAttempts cfg ∧
    registry_getPkgReleases ds (Some c) cfg w
      = (surfaced (ds (length (calls w) + n)%nat c), w') ∧
    calls w' = calls w ++ replicate (S n) c ∧
    sleeps w' = sleeps w ++ map (delayAfter cfg) (seqZ 1 (Z.of_nat n)) ∧
    cache w' = cache w ∧
    now w' = now w + totalWait (map (delayAfter cfg) (seqZ 1 (Z.of_nat n))).
Proof.
  intros Hpos. unfold registry_getPkgReleases, retryWithExponentialBackoff.
  destruct (retryLoop_any ds c cfg (Z.to_nat (cfgMaxAttempts cfg)) 1
              ThrownUndefined w) as (n & w' & Hn & H); [lia|lia|].
  exists n, w'. split; [lia|done].
Qed.

(** X1.  Whatever the datasource answers, [registry.getPkgReleases] with a
    positive [maxAttempts] makes at least one lookup and at most
    [maxAttempts], all for the request it was given; it sleeps the backoff
    delay between two consecutive lookups and not after the last one; it
    leaves the cache alone; and it ends with the outcome of its last lookup,
    a rejection with [undefined] surfacing as the [TypeError] of reading its
    [code]. *)
Theorem registry_lookups_are_bounded (ds : Datasource)
    (c : GetPkgReleasesConfig) (cfg : option RetryConfig) (w : World) :
  0 < cfgMaxAttempts cfg →
  ∃ (n : nat) (w' : World),
    Z.of_nat n < cfgMaxAttempts cfg ∧
    registry_getPkgReleases ds (Some c) cfg w
      = (surfaced (ds (length (calls w) + n)%nat c), w') ∧
    calls w' = calls w ++ replicate (S n) c ∧
    sleeps w' = sleeps w ++ map (delayAfter cfg) (seqZ 1 (Z.of_nat n)) ∧
    cache w' = cache w.
Proof.
  intros Hpos.
  destruct (registry_run ds c cfg w Hpos) as (n & w' & ? & ? & ? & ? & ? & _).
  by exists n, w'.
Qed.

Lemma delayAfter_le (cfg : option RetryConfig) (k : Z) :
  Z.max 0 (delayAfter cfg k) ≤ Z.max 0 (cfgMaxDelay cfg).
Proof. unfold delayAfter. lia. Qed.

Lemma totalWait_bound (cfg : option RetryConfig) (ks : list Z) :
  0 ≤ totalWait (map (delayAfter cfg) ks)
    ≤ Z.of_nat (length ks) * Z.max 0 (cfgMaxDelay cfg).
Proof.
  induction ks as [|k ks IH]; simpl totalWait; simpl length; [lia|].
  pose proof (delayAfter_le cfg k). nia.
Qed.

(** X2.  The clock never goes back during [registry.getPkgReleases], and the
    time waited is at most [(maxAttempts - 1) * maxDelay], each factor taken
    as 0 when it is negative; with the default configuration it is at most
    3000 ms. *)
Theorem registry_wait_is_bounded (ds : Datasource)
    (c : GetPkgReleasesConfig) (cfg : option RetryConfig) (w : World) :
  now w ≤ now (snd (registry_getPkgReleases ds (Some c) cfg w)) ∧
  now (snd (registry_getPkgReleases ds (Some c) cfg w))
    ≤ now w + Z.max 0 (cfgMaxAttempts cfg - 1) * Z.max 0 (cfgMaxDelay cfg) ∧
  (cfg = None →
   now (snd (registry_getPkgReleases ds (Some c) cfg w)) ≤ now w + 3000).
Proof.
  destruct (Z.ltb_spec 0 (cfgMaxAttempts cfg)) as [Hpos|Hno].
  - destruct (registry_run ds c cfg w Hpos)
      as (n & w' & Hn & -> & _ & _ & _ & Ht).
    simpl. rewrite Ht.
    pose proof (totalWait_bound cfg (seqZ 1 (Z.of_nat n))) as Hb.
    rewrite length_seqZ in Hb.
    split; [lia|]. split; [nia|].
    intros ->. change (cfgMaxAttempts None) with 3 in Hn.
    assert (totalWait (map (delayAfter None) (seqZ 1 (Z.of_nat n))) ≤ 3000);
      [|lia].
    destruct n as [|[|[|n]]]; [by vm_compute..|lia].
  - unfold registry_getPkgReleases, retryWithExponentialBackoff.
    replace (Z.to_nat (cfgMaxAttempts cfg)) with O by lia. simpl.
    split; [lia|]. split; [lia|]. intros ->. done.
Qed.

(** X5.  When the first lookup is rejected with [undefined],
    [isRetryableError] throws on reading [error.code]: the call ends after
    that one lookup with a [TypeError], without waiting and without a
    retry, however many attempts are allowed. *)
Theorem undefined_rejection_surfaces_as_type_error (ds : Datasource)
    (c : GetPkgReleasesConfig) (cfg : option RetryConfig) (w : World) :
  0 < cfgMaxAttempts cfg →
  ds (length (calls w)) c = Throw ThrownUndefined →
  registry_getPkgReleases ds (Some c) cfg w
  = (Throw (ThrownError typeError),
     {| now := now w; cache := cache w; calls := calls w ++ [c];
        sleeps := sleeps w |}).
Proof.
  intros Hpos Hds. unfold registry_getPkgReleases, retryWithExponentialBackoff.
  destruct (Z.to_nat (cfgMaxAttempts cfg)) as [|r] eqn:E; [lia|].
  cbn [retryLoop]. unfold tryCatch, getPkgReleases. by rewrite Hds.
Qed.

(** ** The world after a resolution *)

Lemma fetchVersions_unnamed (ds : Datasource) (c : Config) (w : World) :
  (Js.truthyOptStr (datasource c) = false ∨
   Js.truthyOptStr (packageName c) = false) →
  fetchVersions (realRegistry ds) c w = (Throw (ThrownError typeError), w).
Proof.
  intros H. unfold fetchVersions.
  replace (negb (Js.truthyOptStr (datasource c)) ||
           negb (Js.truthyOptStr (packageName c)))%bool with true; [done|].
  destruct H as [-> | ->]; [done|]. by rewrite orb_true_r.
Qed.

(** What a fetch over the real registry leaves behind. *)
Lemma fetchVersions_world (ds : Datasource) (c : Config) (w : World) :
  ∃ (n : nat) (r : Result (option ReleaseResult)) (w' : World),
    fetchVersions (realRegistry ds) c w = (r, w') ∧
    (n ≤ 3)%nat ∧
    calls w' = calls w ++ replicate n (lookupOf c) ∧
    sleeps w' = sleeps w ++ take (n - 1) [1000; 2000] ∧
    now w ≤ now w' ≤ now w + 3000 ∧
    (cache w' = cache w ∨
     ∃ rr, hasReleases (Some rr) = true ∧ r = Ok (Some rr) ∧
       cache w' = <[(cacheNamespace, cacheKeyOf c) :=
                      {| value := rr; expiresAt := now w' + 15 * 60000 |}]>
                    (cache w)).
Proof.
  destruct (Js.truthyOptStr (datasource c)) eqn:Hd.
  2:{ exists O, (Throw (ThrownError typeError)), w.
      rewrite fetchVersions_unnamed by (by left). simpl. rewrite !app_nil_r.
      conjuncts; first [done | lia | by left]. }
  destruct (Js.truthyOptStr (packageName c)) eqn:Hp.
  2:{ exists O, (Throw (ThrownError typeError)), w.
      rewrite fetchVersions_unnamed by (by right). simpl. rewrite !app_nil_r.
      conjuncts; first [done | lia | by left]. }
  unfold fetchVersions. rewrite Hd, Hp. simpl.
  unfold bind at 1. unfold memCache.get.
  destruct (match cache w !! _ with Some _ => _ | None => _ end) as [hit|].
  { exists O, (Ok (Some hit)), w. simpl. rewrite !app_nil_r.
    conjuncts; first [done | lia | by left]. }
  unfold bind at 1. unfold realRegistry.
  destruct (registry_run ds (lookupOf c) None w) as
    (n & w0 & Hn & Hrun & Hc & Hs & Hm & Ht); [done|].
  unfold registry_getPkgReleases in Hrun. rewrite Hrun.
  change (cfgMaxAttempts None) with 3 in Hn.
  assert (Hwait : 0 ≤ totalWait (map (delayAfter None) (seqZ 1 (Z.of_nat n)))
                    ≤ 3000).
  { destruct n as [|[|[|n]]]; [by vm_compute..|lia]. }
  assert (Hsl : map (delayAfter None) (seqZ 1 (Z.of_nat n))
                = take (S n - 1) [1000; 2000]).
  { destruct n as [|[|[|n]]]; [by vm_compute..|lia]. }
  rewrite Hsl in Hs.
  exists (S n).
  destruct (surfaced _) as [[v|]|t];
    [destruct (hasReleases (Some v)) eqn:Hh|..];
    do 2 eexists; (split; [reflexivity|]); simpl;
    conjuncts; try done; try lia; [right|left..]; try done.
  exists v. by rewrite Hm.
Qed.

Lemma getNewValueWith_world (versionings : gmap string VersioningApi)
    (ds : Datasource) (a : GetNewValueConfig) (w : World) :
  snd (getNewValueWith versionings ds a w) = w ∨
  snd (getNewValueWith versionings ds a w)
    = snd (fetchVersions (realRegistry ds) (config a) w).
Proof.
  unfold getNewValueWith, getNewValue.
  destruct (get versionings _); [|by left].
  destruct (offsetRejected _); [by left|].
  destruct (offsetLevelRejected _); [by left|].
  right. destruct (fetchVersions _ _ w) as [[v|t] w1]; [done|].
  simpl. by destruct (newRegistryFetchError _ _ _).
Qed.

(** X6.  When the configuration has no datasource or no package name (or an
    empty one), [getNewValue] calls the registry without an argument; the
    registry of [lib/util/registry.ts] throws on reading [config.datasource],
    the catch block returns the current value, and nothing has happened: no
    lookup, no cache entry, no wait. *)
Theorem unnamed_package_keeps_current
    (versionings : gmap string VersioningApi) (ds : Datasource)
    (api : VersioningApi) (a : GetNewValueConfig) (w : World) :
  versionings !! versioning (config a) = Some api →
  Js.truthyOptStr (datasource (config a)) = false ∨
  Js.truthyOptStr (packageName (config a)) = false →
  getNewValueWith versionings ds a w = (Ok (Some (currentValue a)), w).
Proof.
  intros Hreg Hmissing. unfold getNewValueWith.
  rewrite (getNewValue_registered _ _ _ _ _ Hreg).
  destruct (_ || _)%bool; [done|].
  by rewrite fetchVersions_unnamed.
Qed.

(** X7.  A non-empty offset level other than major, minor and patch makes
    [getNewValue] return the current value before anything is fetched,
    whatever the offset and whatever the registry. *)
Theorem invalid_offset_level_never_fetches
    (versionings : gmap string VersioningApi)
    (registry : option GetPkgReleasesConfig → M (option ReleaseResult))
    (api : VersioningApi) (a : GetNewValueConfig) (w : World) (l : string) :
  versionings !! versioning (config a) = Some api →
  constraints (config a) ≫= offsetLevel = Some l →
  l ≠ "" → l ∉ ["major"; "minor"; "patch"] →
  getNewValue versionings registry a w = (Ok (Some (currentValue a)), w).
Proof.
  intros Hreg Hl Hne Hnot.
  rewrite (getNewValue_registered _ _ _ _ _ Hreg).
  replace (offsetLevelRejected (config a)) with true;
    [by rewrite orb_true_r|].
  unfold offsetLevelRejected. rewrite Hl.
  rewrite truthyStr_nonempty by done.
  destruct (Js.arrIncludesStr _ l) eqn:E; [|done].
  by apply arrIncludesStr_elem in E.
Qed.


(** X9.  A call of [getNewValue] changes no cache entry but the one of its
    own key, and that one only by storing a release set that is not empty,
    to expire 15 minutes after the fetch. *)
Theorem cache_changes_only_at_own_key
    (versionings : gmap string VersioningApi) (ds : Datasource)
    (a : GetNewValueConfig) (w : World) :
  (∀ k, k ≠ (cacheNamespace, cacheKeyOf (config a)) →
     cache (snd (getNewValueWith versionings ds a w)) !! k = cache w !! k) ∧
  (cachedFor (snd (getNewValueWith versionings ds a w)) (config a)
     = cachedFor w (config a) ∨
   ∃ rr, hasReleases (Some rr) = true ∧
     cachedFor (snd (getNewValueWith versionings ds a w)) (config a)
       = Some {| value := rr;
                 expiresAt := now (snd (getNewValueWith versionings ds a w))
                              + 15 * 60000 |}).
Proof.
  unfold cachedFor.
  destruct (getNewValueWith_world versionings ds a w) as [-> | ->];
    [split; [done|by left]|].
  destruct (fetchVersions_world ds (config a) w)
    as (n & r & w' & -> & _ & _ & _ & _ & [Hsame | (rr & Hh & _ & Hnew)]);
    simpl.
  - rewrite Hsame. split; [done|by left].
  - rewrite Hnew. split.
    + intros k Hk. by rewrite lookup_insert_ne.
    + right. exists rr. by rewrite lookup_insert_eq.
Qed.

(** ** Flat selection *)

Lemma falsy_level_accepted (c : Config) :
  Js.truthyOptStr (constraints c ≫= offsetLevel) = false →
  offsetLevelRejected c = false.
Proof.
  unfold offsetLevelRejected. destruct (constraints c ≫= offsetLevel); simpl;
    [|done].
  by intros ->.
Qed.

Lemma selectVersion_flat (api : VersioningApi) (a : GetNewValueConfig)
    (versions : option ReleaseResult) (n : nat) :
  Js.truthyOptStr (constraints (config a) ≫= offsetLevel) = false →
  default 0 (constraints (config a) ≫= offset) = - Z.of_nat n →
  (n < length (sortedVersionsOf api (config a)
                (fetchedReleases versions)))%nat →
  selectVersion api a versions
    = reverse (sortedVersionsOf api (config a) (fetchedReleases versions)) !! n.
Proof.
  intros Hl Ho Hn. unfold selectVersion.
  destruct (hasReleases versions) eqn:Hh; simpl.
  2:{ rewrite (no_releases_fetched _ Hh), sortedVersionsOf_nil in Hn.
      simpl in Hn. lia. }
  fold (fetchedReleases versions).
  change (Js.sort (sortVersions api)
            (filterVersions api (config a) (fetchedReleases versions)))
    with (sortedVersionsOf api (config a) (fetchedReleases versions)).
  rewrite <- (sortedVersionsOf_length api (config a)).
  set (V := sortedVersionsOf api (config a) (fetchedReleases versions)) in *.
  assert (E : (Z.of_nat (length V) =? 0) = false) by (apply Z.eqb_neq; lia).
  rewrite !E, Ho, Hl. simpl.
  rewrite reverse_lookup by done.
  destruct n as [|n].
  - simpl. rewrite last_lookup. f_equal. lia.
  - assert (E0 : (- Z.of_nat (S n) =? 0) = false) by (apply Z.eqb_neq; lia).
    rewrite E0.
    assert (E1 : ((Z.of_nat (length V) - 1 + - Z.of_nat (S n) <? 0) ||
                  (Z.of_nat (length V)
                     <=? Z.of_nat (length V) - 1 + - Z.of_nat (S n)))%bool
                 = false).
    { apply orb_false_iff. split; [apply Z.ltb_ge|apply Z.leb_gt]; lia. }
    rewrite E1. f_equal. lia.
Qed.

(** The resolver in flat mode. *)
Lemma getNewValue_flat
    (versionings : gmap string VersioningApi)
    (registry : option GetPkgReleasesConfig → M (option ReleaseResult))
    (api : VersioningApi) (a : GetNewValueConfig) (w w1 : World)
    (versions : option ReleaseResult) (n : nat) :
  versionings !! versioning (config a) = Some api →
  Js.truthyOptStr (constraints (config a) ≫= offsetLevel) = false →
  default 0 (constraints (config a) ≫= offset) = - Z.of_nat n →
  fetchVersions registry (config a) w = (Ok versions, w1) →
  (n < length (sortedVersionsOf api (config a)
                (fetchedReleases versions)))%nat →
  getNewValue versionings registry a w
  = (Ok (reverse (sortedVersionsOf api (config a) (fetchedReleases versions))
           !! n), w1).
Proof.
  intros Hreg Hl Ho Hfetch Hn.
  rewrite (getNewValue_registered _ _ _ _ _ Hreg), Hfetch.
  rewrite nonpositive_offset_accepted by lia.
  rewrite falsy_level_accepted by done. simpl.
  by rewrite (selectVersion_flat api a versions n).
Qed.

(** X10.  Without an offset level (absent, or the empty string) an offset
    [-n] with [n] less than the number of sorted versions returns the
    version [n] places before the latest. *)
Theorem flat_offset_counts_back_from_latest
    (versionings : gmap string VersioningApi)
    (registry : option GetPkgReleasesConfig → M (option ReleaseResult))
    (api : VersioningApi) (a : GetNewValueConfig) (w w1 : World)
    (versions : option ReleaseResult) (n : nat) :
  versionings !! versioning (config a) = Some api →
  Js.truthyOptStr (constraints (config a) ≫= offsetLevel) = false →
  default 0 (constraints (config a) ≫= offset) = - Z.of_nat n →
  fetchVersions registry (config a) w = (Ok versions, w1) →
  (n < length (sortedVersionsOf api (config a)
                (fetchedReleases versions)))%nat →
  ∃ r,
    reverse (sortedVersionsOf api (config a) (fetchedReleases versions)) !! n
      = Some r ∧
    getNewValue versionings registry a w = (Ok (Some r), w1).
Proof.
  intros Hreg Hl Ho Hfetch Hn.
  destruct (reverse (sortedVersionsOf api (config a) (fetchedReleases versions))
              !! n) as [r|] eqn:Hr.
  - exists r. split; [done|].
    by rewrite (getNewValue_flat _ _ api a w w1 versions n), Hr.
  - apply lookup_ge_None in Hr. rewrite length_reverse in Hr. lia.
Qed.

(** ** Order among the results *)

Lemma sorted_before_last {A} (cmp : A → A → Z) (l : list A) (x y : A) :
  consistentOn cmp l → StronglySorted (leBy cmp) l →
  x ∈ l → last l = Some y → cmp x y ≤ 0.
Proof.
  intros [Hanti _] Hs Hx Hy.
  assert (Hyl : y ∈ l) by by apply last_Some_elem_of.
  apply last_Some in Hy as [l' ->].
  apply StronglySorted_app in Hs as (Hall & _ & _).
  apply elem_of_app in Hx as [Hx|Hx].
  - apply (Hall x y Hx). left.
  - apply list_elem_of_singleton in Hx as ->.
    pose proof (Hanti y y Hyl Hyl). lia.
Qed.

Lemma sorted_lookup_le {A} (cmp : A → A → Z) (l : list A) (i j : nat)
    (x y : A) :
  consistentOn cmp l → StronglySorted (leBy cmp) l →
  (i ≤ j)%nat → l !! i = Some x → l !! j = Some y → cmp x y ≤ 0.
Proof.
  intros [Hanti _] Hs Hij Hx Hy.
  destruct (decide (i = j)) as [->|Hne].
  - assert (x = y) as -> by congruence.
    assert (Hyl : y ∈ l) by by eapply list_elem_of_lookup_2.
    pose proof (Hanti y y Hyl Hyl). lia.
  - rewrite <- (take_drop (S i) l) in Hs, Hy.
    apply StronglySorted_app in Hs as (Hall & _ & _).
    apply (Hall x y).
    + apply (list_elem_of_lookup_2 _ i). rewrite lookup_take_lt by lia. done.
    + assert (Hlen : (i < length l)%nat) by by eapply lookup_lt_Some.
      rewrite lookup_app_r in Hy by (rewrite length_take; lia).
      by eapply list_elem_of_lookup_2.
Qed.

Lemma sortedVersionsOf_sorted (api : VersioningApi) (c : Config)
    (rels : list Release) :
  consistentOn (sortVersions api) (sortedVersionsOf api c rels) →
  StronglySorted (leBy (sortVersions api)) (sortedVersionsOf api c rels).
Proof.
  intros Hcons. apply sort_sorted.
  apply (consistentOn_subseteq _ (sortedVersionsOf api c rels)); [|done].
  intros x Hx. by apply sortedVersionsOf_elem.
Qed.

(** X11.  With a comparator that is consistent on the sorted versions,
    whatever [getNewValue] returns other than the current value is not after
    the latest of them, in flat and in grouped mode. *)
Theorem result_is_not_after_latest
    (versionings : gmap string VersioningApi)
    (registry : option GetPkgReleasesConfig → M (option ReleaseResult))
    (api : VersioningApi) (a : GetNewValueConfig) (w w1 w' : World)
    (versions : option ReleaseResult) (r : string) :
  versionings !! versioning (config a) = Some api →
  fetchVersions registry (config a) w = (Ok versions, w1) →
  consistentOn (sortVersions api)
    (sortedVersionsOf api (config a) (fetchedReleases versions)) →
  getNewValue versionings registry a w = (Ok (Some r), w') →
  r ≠ currentValue a →
  ∃ latest,
    last (sortedVersionsOf api (config a) (fetchedReleases versions))
      = Some latest ∧
    sortVersions api r latest ≤ 0.
Proof.
  intros Hreg Hfetch Hcons.
  rewrite (getNewValue_registered _ _ _ _ _ Hreg), Hfetch.
  destruct (_ || _)%bool; [congruence|].
  intros [= Hsel _] Hne.
  destruct (selectVersion_cases api a versions) as [H|(v & H & Hin)];
    [congruence|].
  assert (v = r) as -> by congruence.
  destruct (last (sortedVersionsOf api (config a) (fetchedReleases versions)))
    as [latest|] eqn:Hlast.
  - exists latest. split; [done|].
    eapply sorted_before_last; eauto using sortedVersionsOf_sorted.
  - apply last_None in Hlast. rewrite Hlast in Hin.
    by apply not_elem_of_nil in Hin.
Qed.

(** X12.  In flat mode with a consistent comparator, of two offsets within
    the list the one further from 0 never gives the later version. *)
Theorem deeper_offset_is_never_newer
    (versionings : gmap string VersioningApi)
    (registry : option GetPkgReleasesConfig → M (option ReleaseResult))
    (api : VersioningApi) (a : GetNewValueConfig) (w w1 : World)
    (versions : option ReleaseResult) (n1 n2 : nat) :
  versionings !! versioning (config a) = Some api →
  Js.truthyOptStr (constraints (config a) ≫= offsetLevel) = false →
  fetchVersions registry (config a) w = (Ok versions, w1) →
  consistentOn (sortVersions api)
    (sortedVersionsOf api (config a) (fetchedReleases versions)) →
  (n1 ≤ n2)%nat →
  (n2 < length (sortedVersionsOf api (config a)
                 (fetchedReleases versions)))%nat →
  ∃ r1 r2,
    fst (getNewValue versionings registry (withOffset (- Z.of_nat n1) a) w)
      = Ok (Some r1) ∧
    fst (getNewValue versionings registry (withOffset (- Z.of_nat n2) a) w)
      = Ok (Some r2) ∧
    sortVersions api r2 r1 ≤ 0.
Proof.
  intros Hreg Hl Hfetch Hcons Hle Hlen.
  set (V := sortedVersionsOf api (config a) (fetchedReleases versions)) in *.
  assert (Hflat : ∀ n : nat, (n < length V)%nat →
    getNewValue versionings registry (withOffset (- Z.of_nat n) a) w
      = (Ok (reverse V !! n), w1)).
  { intros n Hn.
    by apply (getNewValue_flat versionings registry api
                (withOffset (- Z.of_nat n) a) w w1 versions n). }
  rewrite !Hflat by lia. simpl.
  destruct (lookup_lt_is_Some_2 (reverse V) n1) as [r1 Hr1];
    [rewrite length_reverse; lia|].
  destruct (lookup_lt_is_Some_2 (reverse V) n2) as [r2 Hr2];
    [rewrite length_reverse; lia|].
  exists r1, r2. rewrite Hr1, Hr2. split; [done|]. split; [done|].
  rewrite reverse_lookup in Hr1, Hr2 by lia.
  apply (sorted_lookup_le (sortVersions api) V (length V - S n2)
           (length V - S n1)); try done.
  - by apply sortedVersionsOf_sorted.
  - lia.
Qed.

(** ** The order of the releases *)

Lemma strictCheck_sound (cmp : string → string → Z) (l : list string) :
  strictCheck cmp l = true → strictOn cmp l.
Proof.
  unfold strictCheck. rewrite forallb_forall.
  intros H a b Ha%list_elem_of_In Hb%list_elem_of_In E.
  specialize (H a Ha). rewrite forallb_forall in H. specialize (H b Hb).
  rewrite E in H. simpl in H. by apply String.eqb_eq.
Qed.

Lemma List_filter_perm {A} (f : A → bool) (l1 l2 : list A) :
  l1 ≡ₚ l2 → List.filter f l1 ≡ₚ List.filter f l2.
Proof.
  induction 1 as [|x l1 l2 H IH|x y l|l1 l2 l3 H1 IH1 H2 IH2]; simpl.
  - done.
  - destruct (f x); by rewrite IH.
  - destruct (f x), (f y); try done. apply perm_swap.
  - by rewrite IH1.
Qed.

Lemma filterVersions_perm (api : VersioningApi) (c : Config)
    (l1 l2 : list Release) :
  l1 ≡ₚ l2 → filterVersions api c l1 ≡ₚ filterVersions api c l2.
Proof.
  intros H. unfold filterVersions.
  assert (Hk : omap (fun v => if keepVersion api v then v else None)
                 (map version l1)
               ≡ₚ omap (fun v => if keepVersion api v then v else None)
                    (map version l2)).
  { apply omap_Permutation. by apply Permutation_map. }
  destruct (match _ with Some false => false | _ => true end);
    [by apply List_filter_perm|done].
Qed.

(** With a consistent comparator under which only identical elements are
    equal, the sort does not depend on the order of its input. *)
Lemma sort_perm_eq {A} (cmp : A → A → Z) (l1 l2 : list A) :
  l1 ≡ₚ l2 → consistentOn cmp l1 → strictOn cmp l1 →
  Js.sort cmp l1 = Js.sort cmp l2.
Proof.
  intros Hp Hcons Hstrict.
  apply (StronglySorted_unique_strong (leBy cmp)).
  - intros a b Ha%sort_elem Hb%sort_elem Hab Hba. rewrite <- Hp in Hb.
    apply Hstrict; try done.
    destruct Hcons as [Hanti _]. pose proof (Hanti a b Ha Hb).
    unfold leBy in *. lia.
  - by apply sort_sorted.
  - apply sort_sorted. apply (consistentOn_subseteq cmp l1); [|done].
    intros x Hx. by rewrite Hp.
  - by rewrite !sort_perm.
Qed.

(** The selection depends on the fetched result through the sorted list
    only. *)
Lemma selectVersion_ext (api : VersioningApi) (a : GetNewValueConfig)
    (v1 v2 : option ReleaseResult) :
  sortedVersionsOf api (config a) (fetchedReleases v1)
    = sortedVersionsOf api (config a) (fetchedReleases v2) →
  selectVersion api a v1 = selectVersion api a v2.
Proof.
  assert (Hshape : ∀ v,
    selectVersion api a v =
      let V := sortedVersionsOf api (config a) (fetchedReleases v) in
      if Z.of_nat (length V) =? 0 then Some (currentValue a)
      else
        let offset := default 0 (constraints (config a) ≫= offset) in
        let offsetLevel := constraints (config a) ≫= offsetLevel in
        if offset =? 0 then last V
        else if (Js.truthyOptStr offsetLevel && negb (offset =? 0))%bool then
          match getVersionFromSemverGroups api
                  (groupVersionsBySemverLevel api V (Js.tmplStr offsetLevel))
                  offset (Js.tmplStr offsetLevel) (currentVersion a) with
          | Some r => if Js.truthyStr r then Some r else Some (currentValue a)
          | None => Some (currentValue a)
          end
        else
          let targetIndex := Z.of_nat (length V) - 1 + offset in
          if ((targetIndex <? 0) || (Z.of_nat (length V) <=? targetIndex))%bool
          then Some (currentValue a)
          else V !! Z.to_nat targetIndex).
  { intros v. unfold selectVersion.
    destruct (hasReleases v) eqn:Hh; simpl.
    2:{ by rewrite (no_releases_fetched _ Hh), sortedVersionsOf_nil. }
    fold (fetchedReleases v).
    change (Js.sort (sortVersions api)
              (filterVersions api (config a) (fetchedReleases v)))
      with (sortedVersionsOf api (config a) (fetchedReleases v)).
    rewrite <- (sortedVersionsOf_length api (config a)).
    by destruct (_ =? 0). }
  intros HV. by rewrite !Hshape, HV.
Qed.

(** X13.  With a consistent comparator under which only identical versions
    are equal, the result depends only on the versions that pass the filter:
    neither on the order in which the registry lists the releases
    ([filterVersions_perm]) nor on the releases the filter drops. *)
Theorem only_accepted_versions_matter
    (versionings : gmap string VersioningApi)
    (registry1 registry2 : option GetPkgReleasesConfig →
                           M (option ReleaseResult))
    (api : VersioningApi) (a : GetNewValueConfig) (w1 w1' w2 w2' : World)
    (v1 v2 : option ReleaseResult) :
  versionings !! versioning (config a) = Some api →
  fetchVersions registry1 (config a) w1 = (Ok v1, w1') →
  fetchVersions registry2 (config a) w2 = (Ok v2, w2') →
  filterVersions api (config a) (fetchedReleases v1)
    ≡ₚ filterVersions api (config a) (fetchedReleases v2) →
  consistentOn (sortVersions api)
    (filterVersions api (config a) (fetchedReleases v1)) →
  strictOn (sortVersions api)
    (filterVersions api (config a) (fetchedReleases v1)) →
  fst (getNewValue versionings registry1 a w1)
    = fst (getNewValue versionings registry2 a w2).
Proof.
  intros Hreg Hf1 Hf2 Hperm Hcons Hstrict.
  rewrite !(getNewValue_registered _ _ _ _ _ Hreg), Hf1, Hf2.
  destruct (_ || _)%bool; [done|]. simpl. f_equal.
  apply selectVersion_ext. unfold sortedVersionsOf.
  by apply sort_perm_eq.
Qed.

(** ** The current version *)

Lemma filterGroupKeys_anchor (api : VersioningApi) (level cur cur' : string)
    (ks : list string) :
  anchorOf api (Some level) cur = anchorOf api (Some level) cur' →
  filterGroupKeys api level cur ks = filterGroupKeys api level cur' ks.
Proof.
  unfold anchorOf, filterGroupKeys.
  destruct (String.eqb level "minor"); [by intros [= ->]|].
  destruct (String.eqb level "patch"); [by intros [= -> ->]|done].
Qed.

(** X14.  The result depends on the current version only through what
    the sibling filters read of it: its major at the minor level, its major
    and its minor at the patch level, nothing at the major level and without
    a level. *)
Theorem current_version_matters_through_its_anchor
    (versionings : gmap string VersioningApi)
    (registry : option GetPkgReleasesConfig → M (option ReleaseResult))
    (api : VersioningApi) (a : GetNewValueConfig) (cur' : string) (w : World) :
  versionings !! versioning (config a) = Some api →
  anchorOf api (constraints (config a) ≫= offsetLevel) (currentVersion a)
    = anchorOf api (constraints (config a) ≫= offsetLevel) cur' →
  getNewValue versionings registry (withCurrentVersion cur' a) w
    = getNewValue versionings registry a w.
Proof.
  intros Hreg Hanchor.
  rewrite !(getNewValue_registered _ _ _ api) by done. simpl.
  destruct (_ || _)%bool; [done|].
  destruct (fetchVersions registry (config a) w) as [[versions|t] w1]; [|done].
  f_equal. f_equal. unfold selectVersion. simpl.
  destruct (constraints (config a) ≫= offsetLevel) as [level|] eqn:Hl;
    simpl; [|done].
  unfold getVersionFromSemverGroups.
  by rewrite (filterGroupKeys_anchor api level (currentVersion a) cur').
Qed.

(** ** The placeholder registry *)

(** X16.  Over the placeholder registry, which resolves to an empty release
    list, [getNewValue] returns the current value for every configuration
    that has no cache entry, and changes nothing. *)
Theorem stub_registry_keeps_current
    (versionings : gmap string VersioningApi) (api : VersioningApi)
    (a : GetNewValueConfig) (w : World) :
  versionings !! versioning (config a) = Some api →
  cachedFor w (config a) = None →
  getNewValue versionings stubRegistry a w = (Ok (Some (currentValue a)), w).
Proof.
  intros Hreg Hcache. rewrite (getNewValue_registered _ _ _ _ _ Hreg).
  destruct (_ || _)%bool; [done|].
  unfold fetchVersions, stubRegistry.
  destruct (_ || _)%bool; [done|].
  unfold bind at 1. unfold memCache.get.
  unfold cachedFor in Hcache. by rewrite Hcache.
Qed.

(** ** Siblings that do not exist *)

Lemma selected_sibling (api : VersioningApi) (versions : list string)
    (level cur r : string) (o : Z) :
  getVersionFromSemverGroups api
    (groupVersionsBySemverLevel api versions level) o level cur = Some r →
  r ∈ versions ∧ isVersion api r = true ∧
  anchorOf api (Some level) r = anchorOf api (Some level) cur.
Proof.
  intros Hsel.
  destruct (grouped_selection api versions level cur r o Hsel)
    as (Hin & Hv & k & Hkey & Hk).
  split; [done|]. split; [done|].
  unfold anchorOf. unfold filterGroupKeys in Hk.
  destruct (String.eqb level "minor") eqn:Eminor.
  { apply String.eqb_eq in Eminor as ->.
    apply List_filter_elem in Hk as [_ Hk].
    rewrite (sameMajor_minorKey api r k _ Hkey) in Hk.
    f_equal. f_equal. lia. }
  destruct (String.eqb level "patch") eqn:Epatch; [|done].
  apply String.eqb_eq in Epatch as ->.
  apply List_filter_elem in Hk as [_ Hk].
  rewrite (sameMajorMinor_patchKey api r k _ _ Hkey) in Hk.
  apply andb_true_iff in Hk as [HM Hm]. f_equal; f_equal; lia.
Qed.

(** X15.  In grouped mode, when no sorted version that [isVersion] accepts
    shares with the current version what the level reads of it (when there is
    none at all, at the major level), the result is the current value. *)
Theorem no_sibling_keeps_current
    (versionings : gmap string VersioningApi)
    (registry : option GetPkgReleasesConfig → M (option ReleaseResult))
    (api : VersioningApi) (a : GetNewValueConfig) (w w1 : World)
    (versions : option ReleaseResult) (o : Z) (level : string) :
  versionings !! versioning (config a) = Some api →
  constraints (config a) ≫= offset = Some o → o ≠ 0 →
  constraints (config a) ≫= offsetLevel = Some level → level ≠ "" →
  fetchVersions registry (config a) w = (Ok versions, w1) →
  (∀ v, v ∈ sortedVersionsOf api (config a) (fetchedReleases versions) →
     isVersion api v = true →
     anchorOf api (Some level) v
       ≠ anchorOf api (Some level) (currentVersion a)) →
  fst (getNewValue versionings registry a w) = Ok (Some (currentValue a)).
Proof.
  intros Hreg Ho Hnz Hl Hne Hfetch Hnone.
  rewrite (getNewValue_registered _ _ _ _ _ Hreg), Hfetch.
  destruct (_ || _)%bool; [done|]. simpl.
  destruct (selectVersion_defined api a versions) as [r Hr].
  rewrite Hr. destruct (decide (r = currentValue a)) as [->|Hdiff]; [done|].
  exfalso.
  pose proof (selectVersion_grouped api a versions o level r Ho Hl Hnz
                (truthyStr_nonempty level Hne) Hr Hdiff) as Hsel.
  apply selected_sibling in Hsel as (Hin & Hv & Hanchor).
  by apply (Hnone r).
Qed.

(** ** The groups *)

Lemma pushVersion_members (groups : Groups) (k v : string) :
  concat (map snd (pushVersion groups k v)) ≡ₚ v :: concat (map snd groups).
Proof.
  unfold pushVersion. destruct (Js.objGet groups k) as [m|] eqn:Hget.
  - revert m Hget. induction groups as [|[k' m'] t IH]; intros m; simpl;
      [done|].
    destruct (String.eqb k k') eqn:E; simpl.
    + intros _. rewrite <- app_assoc. simpl. symmetry.
      apply Permutation_middle.
    + intros Hget. rewrite (IH m Hget). symmetry. apply Permutation_middle.
  - unfold Js.objAdd. rewrite map_app, concat_app. simpl.
    rewrite ?app_nil_r. symmetry. apply Permutation_cons_append.
Qed.

Lemma groupFold_members (api : VersioningApi) (l : GroupedSpec.Level)
    (vs : list string) (groups : Groups) :
  concat (map snd (fold_left (groupStep api (GroupedSpec.levelName l)) vs
                     groups))
    ≡ₚ concat (map snd groups) ++ List.filter (isVersion api) vs.
Proof.
  revert groups. induction vs as [|v vs IH]; intros groups; simpl.
  - by rewrite app_nil_r.
  - rewrite IH. unfold groupStep.
    destruct (isVersion api v); simpl; [|done].
    rewrite groupKeyOf_keyAt, pushVersion_members.
    by rewrite <- Permutation_middle.
Qed.

Lemma sortGroups_members (api : VersioningApi) (groups : Groups) :
  concat (map snd (map (fun kv => (fst kv, sortGroup api (snd kv))) groups))
    ≡ₚ concat (map snd groups).
Proof.
  induction groups as [|[k m] t IH]; simpl; [done|].
  by rewrite IH, sortGroup_perm.
Qed.

(** X17.  At each of the three levels the groups partition the versions
    that [isVersion] accepts: the keys are distinct, no group is empty, every
    member has the key of its group, and the members of all groups together
    are those versions, each as often as it is listed. *)
Theorem grouping_partitions_the_versions (api : VersioningApi)
    (level : string) (vs : list string) :
  level ∈ ["major"; "minor"; "patch"] →
  NoDup (map fst (groupVersionsBySemverLevel api vs level))
  ∧ concat (map snd (groupVersionsBySemverLevel api vs level))
      ≡ₚ List.filter (isVersion api) vs
  ∧ Forall (fun kv => kv.2 ≠ [] ∧
               Forall (fun v => groupKeyOf api level v = Some kv.1) kv.2)
      (groupVersionsBySemverLevel api vs level).
Proof.
  intros Hlevel.
  assert (Hl : ∃ l, level = GroupedSpec.levelName l).
  { repeat (apply elem_of_cons in Hlevel as [->|Hlevel];
            [by ((by exists GroupedSpec.Major) || (by exists GroupedSpec.Minor)
                 || (by exists GroupedSpec.Patch))|]).
    by apply elem_of_nil in Hlevel. }
  destruct Hl as [l ->]. split; [|split].
  - rewrite groupVersionsBySemverLevel_loop, objMap_keys.
    by destruct (groupFold_shape api l vs).
  - rewrite groupVersionsBySemverLevel_loop, sortGroups_members.
    by rewrite groupFold_members.
  - eapply Forall_impl; [apply groups_ok|].
    intros [k m] [Hne Hm]. split; [done|]. simpl in *.
    eapply Forall_impl; [exact Hm|]. simpl. by intros v (_ & _ & Hk).
Qed.

Lemma groupFold_unknown (api : VersioningApi) (level : string)
    (vs : list string) (groups : Groups) :
  level ∉ ["major"; "minor"; "patch"] →
  fold_left (groupStep api level) vs groups = groups.
Proof.
  intros Hl. induction vs as [|v vs IH]; simpl; [done|].
  assert (Hk : groupKeyOf api level v = None).
  { unfold groupKeyOf.
    destruct (String.eqb level "major") eqn:E1;
      [apply String.eqb_eq in E1 as ->; exfalso; apply Hl; set_solver|].
    destruct (String.eqb level "minor") eqn:E2;
      [apply String.eqb_eq in E2 as ->; exfalso; apply Hl; set_solver|].
    destruct (String.eqb level "patch") eqn:E3;
      [apply String.eqb_eq in E3 as ->; exfalso; apply Hl; set_solver|].
    done. }
  unfold groupStep at 2. rewrite Hk. by destruct (negb _).
Qed.

(** X18.  At a level that is none of the three every version is skipped:
    there is no group, and the lookup in the groups gives [null]. *)
Theorem unknown_level_groups_nothing (api : VersioningApi) (level : string)
    (vs : list string) (o : Z) (cur : string) :
  level ∉ ["major"; "minor"; "patch"] →
  groupVersionsBySemverLevel api vs level = [] ∧
  getVersionFromSemverGroups api (groupVersionsBySemverLevel api vs level)
    o level cur = None.
Proof.
  intros Hl.
  assert (E : groupVersionsBySemverLevel api vs level = []).
  { rewrite groupVersionsBySemverLevel_loop.
    by rewrite groupFold_unknown. }
  by rewrite E.
Qed.

(** ** The backoff delays *)

(** X3.  With an initial delay that is not negative and a multiplier of at
    least 1, the delay before a retry is never shorter than the delay before
    the previous one, and never longer than [maxDelay]. *)
Theorem backoff_delays_never_shrink (cfg : option RetryConfig) (k : Z) :
  0 ≤ cfgInitialDelay cfg → 1 ≤ cfgBackoffMultiplier cfg → 1 ≤ k →
  delayAfter cfg k ≤ delayAfter cfg (k + 1) ∧
  delayAfter cfg (k + 1) ≤ cfgMaxDelay cfg.
Proof.
  intros Hinit Hmult Hk. unfold delayAfter.
  assert (Hpow : cfgBackoffMultiplier cfg ^ (k - 1)
                   ≤ cfgBackoffMultiplier cfg ^ (k + 1 - 1))
    by (apply Z.pow_le_mono_r; lia).
  split; [|lia].
  apply Z.min_le_compat_r. by apply Z.mul_le_mono_nonneg_l.
Qed.

(** ** Order among the grouped results *)

(** X28.  In grouped mode with a consistent comparator under which
    equal versions have equal components, of two negative offsets that both
    select a version the one further from 0 never selects the later
    version. *)
Theorem deeper_group_offset_is_never_newer
    (versionings : gmap string VersioningApi)
    (registry : option GetPkgReleasesConfig → M (option ReleaseResult))
    (api : VersioningApi) (a : GetNewValueConfig) (w w1 : World)
    (versions : option ReleaseResult) (l : GroupedSpec.Level)
    (o1 o2 : Z) (r1 r2 : string) :
  versionings !! versioning (config a) = Some api →
  constraints (config a) ≫= offsetLevel = Some (GroupedSpec.levelName l) →
  fetchVersions registry (config a) w = (Ok versions, w1) →
  consistentOn (sortVersions api)
    (sortedVersionsOf api (config a) (fetchedReleases versions)) →
  coherentOn api (sortedVersionsOf api (config a) (fetchedReleases versions)) →
  o2 ≤ o1 → o1 < 0 →
  fst (getNewValue versionings registry (withOffset o1 a) w) = Ok (Some r1) →
  fst (getNewValue versionings registry (withOffset o2 a) w) = Ok (Some r2) →
  r1 ≠ currentValue a → r2 ≠ currentValue a →
  sortVersions api r2 r1 ≤ 0.
Proof.
  intros Hreg Hl Hfetch Hcons Hcoh Hle Hneg Hg1 Hg2 Hd1 Hd2.
  set (V := sortedVersionsOf api (config a) (fetchedReleases versions)) in *.
  assert (Hsorted : StronglySorted (leBy (sortVersions api)) V)
    by by apply sortedVersionsOf_sorted.
  assert (Hsel : ∀ o r, o < 0 →
    fst (getNewValue versionings registry (withOffset o a) w) = Ok (Some r) →
    r ≠ currentValue a →
    GroupedSpec.select api l o (currentVersion a) (grouped api V) = Some r).
  { intros o r Ho Hg Hd.
    assert (Hf : fetchVersions registry (config (withOffset o a)) w
                 = (Ok versions, w1)) by exact Hfetch.
    rewrite (getNewValue_registered _ _ _ api) in Hg by done.
    rewrite Hf in Hg.
    destruct (_ || _)%bool; simpl in Hg; [congruence|].
    injection Hg as Hg.
    rewrite <- (grouped_refines api l V Hcons Hsorted Hcoh).
    apply (selectVersion_grouped api (withOffset o a) versions o
             (GroupedSpec.levelName l) r);
      first [done | lia | by destruct l | exact Hl]. }
  pose proof (Hsel o1 r1 Hneg Hg1 Hd1) as H1.
  pose proof (Hsel o2 r2 ltac:(lia) Hg2 Hd2) as H2.
  set (ks := List.filter
               (GroupedSpec.sibling api l (currentVersion a) (grouped api V))
               (GroupedSpec.orderedKeys api l (grouped api V))).
  assert (Hlook : ∀ o r,
    GroupedSpec.select api l o (currentVersion a) (grouped api V) = Some r →
    0 ≤ Z.of_nat (length ks) - 1 + o ∧
    ∃ k, ks !! Z.to_nat (Z.of_nat (length ks) - 1 + o) = Some k ∧
         GroupedSpec.maximal api l (grouped api V) k = Some r).
  { intros o r. unfold GroupedSpec.select. fold ks.
    destruct (_ || _)%bool eqn:E; [done|].
    apply orb_false_iff in E as [Hlo _]. apply Z.ltb_ge in Hlo.
    destruct (ks !! _) as [k|]; simpl; [|done].
    intros Hm. split; [done|]. by exists k. }
  destruct (Hlook o1 r1 H1) as (_ & k1 & Hk1 & Hm1).
  destruct (Hlook o2 r2 H2) as (Hlo2 & k2 & Hk2 & Hm2).
  assert (Hkeys : ∀ k, k ∈ ks → k ∈ GroupedSpec.keysOf api l (grouped api V)).
  { intros k [Hk _]%List_filter_elem. by apply sort_elem in Hk. }
  assert (Hks : consistentOn
                  (GroupedSpec.compareKeys api l (grouped api V)) ks).
  { apply (consistentOn_subseteq _
             (GroupedSpec.keysOf api l (grouped api V))); [done|].
    by apply keys_consistent. }
  assert (Hsk : StronglySorted
                  (leBy (GroupedSpec.compareKeys api l (grouped api V))) ks).
  { apply filter_sorted, sort_sorted. by apply keys_consistent. }
  assert (Hidx : (Z.to_nat (Z.of_nat (length ks) - 1 + o2)
                  ≤ Z.to_nat (Z.of_nat (length ks) - 1 + o1))%nat) by lia.
  pose proof (sorted_lookup_le _ ks _ _ k2 k1 Hks Hsk Hidx Hk2 Hk1) as Hcmp.
  unfold GroupedSpec.compareKeys in Hcmp. by rewrite Hm1, Hm2 in Hcmp.
Qed.

(** ** Schemas *)

Lemma zString_faithful : faithful zString.
Proof. intros [] d; simpl; congruence. Qed.

Lemma zBoolean_faithful : faithful zBoolean.
Proof. intros [] d; simpl; congruence. Qed.

Lemma zNumber_faithful (checks : list (JsNumber → bool)) :
  faithful (zNumber checks).
Proof.
  intros [| | |[]| | |] d; simpl; try congruence;
    destruct (forallb _ _); congruence.
Qed.

Lemma zEnum_faithful (values : list string) : faithful (zEnum values).
Proof.
  intros [] d; simpl; try congruence.
  destruct (Js.arrIncludesStr _ _); congruence.
Qed.

Lemma zOptional_faithful (s : Schema) : faithful s → faithful (zOptional s).
Proof. intros Hs [] d; simpl; try apply Hs. congruence. Qed.

Lemma getProp_cons (k k' : string) (v : JsValue)
    (fields : list (string * JsValue)) :
  getProp ((k', v) :: fields) k
    = if String.eqb k k' then v else getProp fields k.
Proof. unfold getProp. simpl. by destruct (String.eqb k k'). Qed.

Lemma getProp_missing (fields : list (string * JsValue)) (k : string) :
  k ∉ map fst fields → getProp fields k = JUndefined.
Proof. intros Hk. unfold getProp. by rewrite (proj2 (objGet_None _ _) Hk). Qed.

Lemma hasProp_false (fields : list (string * JsValue)) (k : string) :
  hasProp fields k = false → getProp fields k = JUndefined.
Proof. unfold hasProp, getProp. by destruct (Js.objGet fields k). Qed.

Lemma defined_false (v : JsValue) : defined v = false → v = JUndefined.
Proof. by destruct v. Qed.

Lemma parseProp_Some (fields : list (string * JsValue)) (k : string)
    (s : Schema) (p : option (string * JsValue)) :
  parseProp fields (k, s) = Some p →
  ∃ d, s (getProp fields k) = Some d ∧
       p = if (hasProp fields k || defined d)%bool then Some (k, d) else None.
Proof.
  unfold parseProp. simpl. destruct (s (getProp fields k)) as [d|]; [|done].
  simpl. intros [= <-]. by exists d.
Qed.

Lemma parseShape_cons (k : string) (s : Schema) (shape : Shape)
    (fields data : list (string * JsValue)) :
  parseShape ((k, s) :: shape) fields = Some data →
  ∃ d rest,
    s (getProp fields k) = Some d ∧ parseShape shape fields = Some rest ∧
    data = if (hasProp fields k || defined d)%bool then (k, d) :: rest
           else rest.
Proof.
  unfold parseShape. simpl.
  destruct (parseProp fields (k, s)) as [p|] eqn:Hp; simpl; [|done].
  apply parseProp_Some in Hp as (d & Hd & ->).
  destruct (mapM (parseProp fields) shape) as [props|]; simpl; [|done].
  intros [= <-]. exists d, (omap id props).
  split; [done|]. split; [done|]. by destruct (_ || _)%bool.
Qed.

(** The data of an object: its keys are declared ones, and a declared
    property has the value that its schema returned. *)
Lemma parseShape_keys (shape : Shape) (fields data : list (string * JsValue)) :
  parseShape shape fields = Some data →
  ∀ k, k ∈ map fst data → k ∈ map fst shape.
Proof.
  revert data. induction shape as [|[k0 s0] shape IH]; intros data.
  - by intros [= <-].
  - intros (d & rest & _ & Hrest & ->)%parseShape_cons k Hk. simpl.
    destruct (_ || _)%bool; simpl in Hk.
    + apply elem_of_cons in Hk as [->|Hk]; [left|right]. by apply (IH rest).
    + right. by apply (IH rest).
Qed.

Lemma parseShape_props (shape : Shape) (fields data : list (string * JsValue)) :
  NoDup (map fst shape) → Forall (fun ks => faithful ks.2) shape →
  parseShape shape fields = Some data →
  ∀ k, k ∈ map fst shape → getProp data k = getProp fields k.
Proof.
  revert data. induction shape as [|[k0 s0] shape IH]; intros data Hnd Hf.
  - by intros _ k Hk%elem_of_nil.
  - simpl in Hnd. apply NoDup_cons in Hnd as [Hk0 Hnd].
    apply Forall_cons in Hf as [Hf0 Hf].
    intros (d & rest & Hd & Hrest & ->)%parseShape_cons k Hk.
    apply Hf0 in Hd as ->. simpl in Hk.
    destruct (String.eqb k k0) eqn:E.
    + apply String.eqb_eq in E as ->.
      destruct (hasProp fields k0 || defined (getProp fields k0))%bool
        eqn:Hkept.
      * by rewrite getProp_cons, String.eqb_refl.
      * apply orb_false_iff in Hkept as [_ ->%defined_false].
        apply getProp_missing. intros Hin. apply Hk0.
        by apply (parseShape_keys shape fields rest).
    + assert (Hne : k ≠ k0) by by apply String.eqb_neq.
      apply elem_of_cons in Hk as [->|Hk]; [done|].
      specialize (IH rest Hnd Hf Hrest k Hk).
      destruct (_ || _)%bool; [|done].
      by rewrite getProp_cons, E.
Qed.

(** Every declared property of an accepted object was accepted by its
    schema. *)
Lemma parseShape_accepts (shape : Shape)
    (fields data : list (string * JsValue)) :
  parseShape shape fields = Some data →
  Forall (fun ks => is_Some (ks.2 (getProp fields ks.1))) shape.
Proof.
  unfold parseShape.
  destruct (mapM (parseProp fields) shape) as [props|] eqn:Hprops; [|done].
  intros _. assert (Hsome : is_Some (mapM (parseProp fields) shape)) by eauto.
  apply mapM_is_Some_1 in Hsome.
  eapply Forall_impl; [exact Hsome|].
  intros [k s]. unfold compose, parseProp. simpl.
  destruct (s (getProp fields k)); [eauto|by intros [? ?]].
Qed.

Lemma unknownProps_none (shape : Shape) (fields : list (string * JsValue)) :
  unknownProps shape fields = [] →
  ∀ k, k ∈ map fst fields → k ∈ map fst shape.
Proof.
  unfold unknownProps. intros Hnone k (kv & -> & Hkv)%list_elem_of_fmap.
  destruct (Js.arrIncludesStr (map fst shape) kv.1) eqn:E.
  - by apply arrIncludesStr_elem in E.
  - assert (Hin : kv ∈ List.filter
                    (fun kv => negb (Js.arrIncludesStr (map fst shape) kv.1))
                    fields).
    { apply List_filter_elem. by rewrite E. }
    rewrite Hnone in Hin. by apply elem_of_nil in Hin.
Qed.

(** ** The constraints schema *)

Lemma constraints_shape_faithful :
  Forall (fun ks : string * Schema => faithful ks.2)
    [("allowedVersions", zOptional zString);
     ("offset", zOptional (zNumber [zInt; zMax 0]));
     ("offsetLevel", zOptional (zEnum ["major"; "minor"; "patch"]));
     ("ignorePrerelease", zOptional zBoolean)].
Proof.
  repeat constructor; simpl; apply zOptional_faithful;
    auto using zString_faithful, zBoolean_faithful, zNumber_faithful,
      zEnum_faithful.
Qed.

(** What an accepted value is made of. *)
Lemma ConstraintsSchema_accepted (v d : JsValue) :
  ConstraintsSchema v = Some d →
  ∃ fields props,
    v = JObj fields ∧ d = JObj props ∧
    (∀ k, k ∈ map fst fields → k ∈ constraintKeys) ∧
    (∀ k, getProp props k = getProp fields k) ∧
    is_Some (zOptional (zNumber [zInt; zMax 0]) (getProp fields "offset")) ∧
    is_Some (zOptional (zEnum ["major"; "minor"; "patch"])
               (getProp fields "offsetLevel")) ∧
    levelHasOffset d = true.
Proof.
  unfold ConstraintsSchema, zRefine, zObject.
  destruct v as [| | | | | |fields]; try done.
  set (shape := [("allowedVersions", _); _; _; _]).
  destruct (parseShape shape fields) as [props|] eqn:Hparse; simpl; [|done].
  destruct (unknownProps shape fields) eqn:Hunknown; simpl; [|done].
  destruct (levelHasOffset (JObj props)) eqn:Hcheck; [|done].
  intros [= <-]. exists fields, props.
  pose proof (unknownProps_none shape fields Hunknown) as Hkeys.
  split; [done|]. split; [done|]. split; [done|]. split.
  { intros k. destruct (decide (k ∈ map fst shape)) as [Hk|Hk].
    - apply (parseShape_props shape); try done.
      + by apply (bool_decide_unpack _); vm_compute.
      + apply constraints_shape_faithful.
    - rewrite !getProp_missing; try done.
      + intros Hin. by apply Hk, Hkeys.
      + intros Hin. by apply Hk, (parseShape_keys shape fields props). }
  pose proof (parseShape_accepts shape fields props Hparse) as Hacc.
  apply Forall_cons in Hacc as [_ Hacc].
  apply Forall_cons in Hacc as [Hoffset Hacc].
  apply Forall_cons in Hacc as [Hlevel _].
  done.
Qed.

(** X19.  [validateConstraints] succeeds only on an object all of whose
    keys are among allowedVersions, offset, offsetLevel and ignorePrerelease:
    a value that is not an object, or an object with any other key, is
    rejected. *)
Theorem constraints_schema_is_strict (v : JsValue) :
  success (validateConstraints v) = true →
  ∃ fields, v = JObj fields ∧ ∀ k, k ∈ map fst fields → k ∈ constraintKeys.
Proof.
  unfold validateConstraints.
  destruct (ConstraintsSchema v) as [d|] eqn:Hd; [|done]. intros _.
  apply ConstraintsSchema_accepted in Hd
    as (fields & props & -> & _ & Hkeys & _).
  by exists fields.
Qed.

(** X20.  The data that [validateConstraints] returns has, property by
    property, the values of the object it was given: nothing is coerced and
    no default is filled in (an absent ignorePrerelease stays absent). *)
Theorem validated_constraints_are_unchanged (v d : JsValue) :
  data (validateConstraints v) = Some d →
  ∀ k, prop d k = prop v k.
Proof.
  unfold validateConstraints.
  destruct (ConstraintsSchema v) as [d'|] eqn:Hd; [|done]. intros [= ->].
  apply ConstraintsSchema_accepted in Hd
    as (fields & props & -> & -> & _ & Hprops & _).
  done.
Qed.

Lemma integer_floor (q : Q) :
  isInteger (Finite q) = true → (q == inject_Z (Qfloor q))%Q.
Proof. simpl. apply Qeq_bool_iff. Qed.

Lemma at_most_zero_floor (q : Q) :
  zMax 0 (Finite q) = true → Qfloor q ≤ 0.
Proof.
  unfold zMax. simpl. rewrite negb_involutive. intros H%Qle_bool_iff.
  change 0 with (Qfloor (inject_Z 0)). by apply Qfloor_resp_le.
Qed.

Lemma nonzero_floor (q : Q) :
  isInteger (Finite q) = true → isZero (Finite q) = false → Qfloor q ≠ 0.
Proof.
  intros Hint%integer_floor Hnz Hfloor. simpl in Hnz.
  apply not_true_iff_false in Hnz. apply Hnz. apply Qeq_bool_iff.
  by rewrite Hint, Hfloor.
Qed.

Lemma optional_number_accepted (checks : list (JsNumber → bool))
    (v : JsValue) :
  is_Some (zOptional (zNumber checks) v) →
  v = JUndefined ∨
  ∃ n, v = JNum n ∧ n ≠ NaN ∧ Forall (fun check => check n = true) checks.
Proof.
  intros [x Hx]. destruct v as [| | |n| | |]; try done; [by left|right].
  exists n. split; [done|]. simpl in Hx.
  destruct n; try done;
    (destruct (forallb _ checks) eqn:E; [|done]);
    (split; [done|]); apply Forall_forall; intros check Hc;
    rewrite forallb_forall in E; by apply E, list_elem_of_In.
Qed.

Lemma optional_enum_accepted (values : list string) (v : JsValue) :
  is_Some (zOptional (zEnum values) v) →
  v = JUndefined ∨ ∃ s, v = JStr s ∧ s ∈ values.
Proof.
  intros [x Hx]. destruct v as [| | | |s| |]; try done; [by left|right].
  exists s. split; [done|]. simpl in Hx.
  destruct (Js.arrIncludesStr values s) eqn:E; [|done].
  by apply arrIncludesStr_elem.
Qed.

(** X22.  What [validateConstraints] accepts, [getNewValue] does not
    reject: neither of its two input checks fires, and an offset level is one
    of the three and comes with an offset below 0, so that it is never
    ignored. *)
Theorem accepted_constraints_pass_the_resolver (v d : JsValue) (c : Config) :
  data (validateConstraints v) = Some d →
  constraints c = Some (constraintsOf d) →
  offsetRejected c = false ∧ offsetLevelRejected c = false ∧
  ∀ l, offsetLevel (constraintsOf d) = Some l →
    l ∈ ["major"; "minor"; "patch"] ∧
    ∃ o, offset (constraintsOf d) = Some o ∧ o < 0.
Proof.
  unfold validateConstraints.
  destruct (ConstraintsSchema v) as [d'|] eqn:Hd; [|done]. intros [= ->].
  apply ConstraintsSchema_accepted in Hd
    as (fields & props & -> & -> & _ & Hprops & Hoffset & Hlevel & Hcheck).
  intros Hc.
  apply optional_number_accepted in Hoffset.
  apply optional_enum_accepted in Hlevel.
  unfold offsetRejected, offsetLevelRejected, constraintsOf, prop.
  rewrite Hc. simpl. rewrite !Hprops.
  revert Hcheck. unfold levelHasOffset, prop. rewrite !Hprops.
  destruct Hlevel as [-> | (l & -> & Hl)];
    destruct Hoffset as [-> | (n & -> & Hnan & Hchecks)]; simpl.
  - done.
  - intros _. destruct n as [q| | |]; try done.
    apply Forall_cons in Hchecks as [_ Hchecks].
    apply Forall_cons in Hchecks as [Hmax%at_most_zero_floor _].
    split; [lia|done].
  - assert (Htruthy : Js.truthyStr l = true).
    { repeat (apply elem_of_cons in Hl as [->|Hl]; [done|]).
      by apply elem_of_nil in Hl. }
    by rewrite Htruthy.
  - assert (Hthree : l = "major" ∨ l = "minor" ∨ l = "patch").
    { repeat (apply elem_of_cons in Hl as [->|Hl]; [tauto|]).
      by apply elem_of_nil in Hl. }
    destruct n as [q| | |]; try done;
      [|apply Forall_cons in Hchecks as [Hint _]; done..].
    apply Forall_cons in Hchecks as [Hint Hchecks].
    apply Forall_cons in Hchecks as [Hmax%at_most_zero_floor _].
    assert (Hgoal : Qeq_bool q 0 = false →
      (0 <? Qfloor q) = false ∧
      ∀ l', Some l = Some l' →
        l' ∈ ["major"; "minor"; "patch"] ∧
        ∃ o, Some (Qfloor q) = Some o ∧ o < 0).
    { intros Hz. split; [lia|]. intros l' [= <-]. split; [done|].
      exists (Qfloor q). split; [done|].
      pose proof (nonzero_floor q Hint Hz). lia. }
    destruct Hthree as [-> | [-> | ->]]; simpl;
      (destruct (Qeq_bool q 0); simpl; [done|]); intros _;
      destruct (Hgoal eq_refl) as [? ?]; done.
Qed.


(** ** The package rules *)

Lemma parseShape_ext (shape : Shape) (f1 f2 : list (string * JsValue)) :
  (∀ k, k ∈ map fst shape → Js.objGet f1 k = Js.objGet f2 k) →
  parseShape shape f1 = parseShape shape f2.
Proof.
  intros Hsame. unfold parseShape. f_equal.
  apply Forall_mapM_ext, Forall_forall. intros [k s] Hks.
  unfold parseProp, getProp, hasProp. simpl.
  rewrite (Hsame k); [done|]. apply list_elem_of_fmap. by exists (k, s).
Qed.

(** X24.  [PackageRuleSchema] judges a rule by the properties it
    declares: two objects that agree on these are both accepted, with the
    same data, or both rejected, whatever other properties they have. *)
Theorem rule_is_judged_by_declared_properties
    (fields1 fields2 : list (string * JsValue)) :
  (∀ k, k ∈ map fst packageRuleShape →
     Js.objGet fields1 k = Js.objGet fields2 k) →
  PackageRuleSchema (JObj fields1) = PackageRuleSchema (JObj fields2).
Proof.
  intros Hsame. unfold PackageRuleSchema, zObject.
  by rewrite (parseShape_ext packageRuleShape fields1 fields2).
Qed.

(** X25.  A rule that [PackageRuleSchema] accepts has no constraints,
    or constraints that pass both [validateConstraintsInRule] and the
    [validateConstraints] of the versioning module. *)
Theorem accepted_rule_has_valid_constraints
    (fields : list (string * JsValue)) :
  is_Some (PackageRuleSchema (JObj fields)) →
  getProp fields "constraints" = JUndefined ∨
  (success (validateConstraintsInRule (getProp fields "constraints")) = true ∧
   success (validateConstraints (getProp fields "constraints")) = true).
Proof.
  unfold PackageRuleSchema, zObject.
  destruct (parseShape packageRuleShape fields) as [props|] eqn:Hparse;
    [|by intros [? ?]].
  intros _. apply parseShape_accepts in Hparse.
  rewrite Forall_forall in Hparse.
  assert (Hin : ("constraints", zOptional ConstraintsConfigSchema)
                  ∈ packageRuleShape).
  { unfold packageRuleShape. do 18 right. left. }
  destruct (Hparse _ Hin) as [d Hd]. simpl in Hd.
  destruct (getProp fields "constraints") eqn:Hc; [by left|right..];
    unfold validateConstraintsInRule, validateConstraints;
    change ConstraintsSchema with ConstraintsConfigSchema;
    simpl in Hd; by rewrite Hd.
Qed.

Lemma mapM_cons_Some {A B} (f : A → option B) (x : A) (l : list A) (y : B) :
  f x = Some y → mapM f (x :: l) = cons y <$> mapM f l.
Proof. intros H. simpl. rewrite H. simpl. by destruct (mapM f l). Qed.

Lemma forEachRule_run (rules : list JsValue) :
  ∀ (index : Z) (errors : list (Z * ZodError)) (validated : list JsValue),
  ∃ newErrors newValidated,
    forEachRule rules index (errors, validated)
      = (errors ++ newErrors, validated ++ newValidated) ∧
    (newErrors = [] ↔ mapM PackageRuleSchema rules = Some newValidated) ∧
    (newErrors = [] ↔ is_Some (mapM PackageRuleSchema rules)) ∧
    StronglySorted Z.lt (map fst newErrors) ∧
    (∀ i, i ∈ map fst newErrors ↔
       ∃ rule, index ≤ i ∧ rules !! Z.to_nat (i - index) = Some rule ∧
               PackageRuleSchema rule = None).
Proof.
  induction rules as [|rule rules IH]; intros index errors validated.
  - exists [], []. simpl. rewrite !app_nil_r.
    split; [done|]. split; [done|]. split; [by split; eauto|].
    split; [constructor|].
    intros i. split; [by intros ?%elem_of_nil|by intros (? & _ & ? & _)].
  - cbn [forEachRule]. unfold validateRule.
    destruct (PackageRuleSchema rule) as [d|] eqn:Hrule.
    + destruct (IH (index + 1) errors (validated ++ [d]))
        as (ne & nv & -> & Hnone & Hsome & Hsorted & Hidx).
      exists ne, (d :: nv). rewrite <- app_assoc.
      split; [done|]. split; [|split; [|split; [done|]]].
      * rewrite Hnone, (mapM_cons_Some _ _ _ d Hrule).
        destruct (mapM PackageRuleSchema rules); simpl; split; congruence.
      * rewrite Hsome, (mapM_cons_Some _ _ _ d Hrule).
        destruct (mapM PackageRuleSchema rules); simpl;
          split; intros [? ?]; eauto; done.
      * intros i. rewrite Hidx. split.
        -- intros (r & Hi & Hr & Hno). exists r. split; [lia|].
           split; [|done].
           replace (Z.to_nat (i - index)) with (S (Z.to_nat (i - (index + 1))))
             by lia. done.
        -- intros (r & Hi & Hr & Hno).
           destruct (Z.to_nat (i - index)) as [|n] eqn:En; simpl in Hr;
             [congruence|].
           exists r. split; [lia|]. split; [|done].
           by replace (Z.to_nat (i - (index + 1))) with n by lia.
    + destruct (IH (index + 1) (errors ++ [(index, zodError)]) validated)
        as (ne & nv & -> & Hnone & Hsome & Hsorted & Hidx).
      exists ((index, zodError) :: ne), nv. rewrite <- app_assoc.
      split; [done|]. split; [|split; [|split]].
      * split; [done|]. cbn. by rewrite Hrule.
      * split; [done|]. cbn. rewrite Hrule. by intros [? ?].
      * cbn. constructor; [done|]. apply Forall_forall. intros i Hi.
        apply Hidx in Hi as (? & ? & _). lia.
      * intros i. cbn [map fst]. rewrite elem_of_cons, Hidx. split.
        -- intros [->|(r & Hi & Hr & Hno)].
           ++ exists rule. split; [lia|]. by rewrite Z.sub_diag.
           ++ exists r. split; [lia|]. split; [|done].
              replace (Z.to_nat (i - index))
                with (S (Z.to_nat (i - (index + 1)))) by lia. done.
        -- intros (r & Hi & Hr & Hno).
           destruct (Z.to_nat (i - index)) as [|n] eqn:En; simpl in Hr.
           ++ left. lia.
           ++ right. exists r. split; [lia|]. split; [|done].
              by replace (Z.to_nat (i - (index + 1))) with n by lia.
Qed.

(** X26.  [validatePackageRules] on an array succeeds exactly when
    every rule passes [PackageRuleSchema], and then returns the data of the
    rules in order; otherwise it reports the indices of the rules that do
    not pass, in ascending order and no others.  On a value that is not an
    array it reports the one index -1. *)
Theorem package_rules_are_validated_one_by_one (rules : list JsValue) :
  match validatePackageRules (JArr rules) with
  | {| rulesSuccess := true; rulesData := Some validated;
       rulesErrors := None |} =>
      mapM PackageRuleSchema rules = Some validated
  | {| rulesSuccess := false; rulesData := None;
       rulesErrors := Some errors |} =>
      errors ≠ [] ∧ StronglySorted Z.lt (map fst errors) ∧
      ∀ i, i ∈ map fst errors ↔
        ∃ rule, 0 ≤ i ∧ rules !! Z.to_nat i = Some rule ∧
                PackageRuleSchema rule = None
  | _ => False
  end ∧
  ∀ v, (∀ items, v ≠ JArr items) →
    validatePackageRules v
    = {| rulesSuccess := false; rulesData := None;
         rulesErrors := Some [(-1, zodError)] |}.
Proof.
  split.
  - unfold validatePackageRules.
    destruct (forEachRule_run rules 0 [] [])
      as (errors & validated & -> & Hnone & _ & Hsorted & Hidx).
    cbn [app]. destruct errors as [|e errors].
    + simpl. by apply Hnone.
    + assert (E : (0 <? Z.of_nat (length (e :: errors))) = true)
        by (apply Z.ltb_lt; simpl length; lia).
      rewrite E. split; [done|]. split; [done|].
      intros i. rewrite (Hidx i). by rewrite Z.sub_0_r.
  - intros v Hv. destruct v; try done. by destruct (Hv items).
Qed.

(** X27.  A configuration object whose packageRules is an array
    passes [ConfigWithPackageRulesSchema] exactly when [validatePackageRules]
    succeeds on that array, whatever its other properties. *)
Theorem config_schema_agrees_with_rule_validation
    (fields : list (string * JsValue)) (rules : list JsValue) :
  getProp fields "packageRules" = JArr rules →
  is_Some (ConfigWithPackageRulesSchema (JObj fields)) ↔
  rulesSuccess (validatePackageRules (JArr rules)) = true.
Proof.
  intros Hrules. unfold ConfigWithPackageRulesSchema, zObject, parseShape.
  cbn [mapM]. unfold parseProp at 1. cbn [fst snd]. rewrite Hrules.
  cbn [zOptional zArray].
  unfold validatePackageRules.
  destruct (forEachRule_run rules 0 [] [])
    as (errors & validated & -> & _ & Hsome & _ & _).
  cbn [app].
  destruct (mapM PackageRuleSchema rules) as [ds|] eqn:Hm.
  - assert (Herrors : errors = []) by (apply Hsome; eauto).
    rewrite Herrors. simpl. split; [done|]. intros _. eauto.
  - assert (Herrors : errors ≠ []).
    { intros Hnil. apply Hsome in Hnil as [? ?]. done. }
    destruct errors as [|e errors]; [done|].
    assert (E : (0 <? Z.of_nat (length (e :: errors))) = true)
      by (apply Z.ltb_lt; simpl length; lia).
    rewrite E. simpl. split; [by intros [? ?]|done].
Qed.

(** ** Constraints written as an object *)

Lemma integer_is_integer (o : Z) : zInt (Finite (inject_Z o)) = true.
Proof.
  unfold zInt, isInteger. rewrite Qfloor_Z. by apply Qeq_bool_iff.
Qed.

Lemma integer_at_most_zero (o : Z) :
  o ≤ 0 → zMax 0 (Finite (inject_Z o)) = true.
Proof.
  intros Ho. unfold zMax. simpl. rewrite negb_involutive.
  apply Qle_bool_iff. by rewrite <- Zle_Qle.
Qed.

Lemma integer_is_zero (o : Z) : isZero (Finite (inject_Z o)) = (o =? 0).
Proof.
  simpl. destruct (Z.eqb_spec o 0) as [->|Hne].
  - by apply Qeq_bool_iff.
  - apply not_true_iff_false. intros H%Qeq_bool_iff.
    apply Hne. by apply (inject_Z_injective o 0).
Qed.

(** X21.  Constraints whose offset is an integer not above 0 and whose
    level, if any, is one of the three and comes with an offset below 0,
    written as an object, pass [validateConstraints], which returns that
    object; reading the constraints back from it gives the same
    constraints. *)
Theorem well_formed_constraints_are_accepted (cs : Constraints) :
  default 0 (offset cs) ≤ 0 →
  (∀ l, offsetLevel cs = Some l →
     l ∈ ["major"; "minor"; "patch"] ∧ default 0 (offset cs) < 0) →
  validateConstraints (objectOf cs)
    = {| success := true; data := Some (objectOf cs); error := None |} ∧
  constraintsOf (objectOf cs) = cs.
Proof.
  intros Ho Hl. destruct cs as [av o l ip]. simpl in Ho, Hl.
  assert (Hlevel : l = None ∨ ∃ x, l = Some x ∧
            (x = "major" ∨ x = "minor" ∨ x = "patch") ∧ default 0 o < 0).
  { destruct l as [x|]; [right|by left]. exists x. split; [done|].
    destruct (Hl x eq_refl) as [Hx ?]. split; [|done].
    repeat (apply elem_of_cons in Hx as [->|Hx]; [tauto|]).
    by apply elem_of_nil in Hx. }
  clear Hl.
  assert (Hzero : ∀ z, z < 0 → isZero (Finite (inject_Z z)) = false).
  { intros z Hz. rewrite integer_is_zero. apply Z.eqb_neq. lia. }
  unfold validateConstraints, ConstraintsSchema, zRefine, zObject, objectOf.
  destruct Hlevel as [-> | (x & -> & Hx & Hneg)].
  - destruct av as [s|], o as [z|], ip as [b|];
      cbn -[inject_Z Qfloor zInt zMax isZero];
      rewrite ?integer_is_integer, ?integer_at_most_zero by done;
      cbn -[inject_Z Qfloor zInt zMax isZero];
      (split; [done|]); unfold constraintsOf;
      cbn -[inject_Z Qfloor]; by rewrite ?Qfloor_Z.
  - destruct o as [z|]; simpl in Hneg; [|lia].
    destruct Hx as [-> | [-> | ->]];
      destruct av as [s|], ip as [b|];
      cbn -[inject_Z Qfloor zInt zMax isZero];
      rewrite ?integer_is_integer, ?integer_at_most_zero by lia;
      cbn -[inject_Z Qfloor zInt zMax isZero];
      unfold levelHasOffset, strictlyZero, truthy, prop;
      cbn -[inject_Z Qfloor zInt zMax isZero];
      rewrite ?Hzero by done;
      cbn -[inject_Z Qfloor zInt zMax isZero];
      (split; [done|]); unfold constraintsOf;
      cbn -[inject_Z Qfloor]; by rewrite ?Qfloor_Z.
Qed.

(** ** Scenarios of the further properties *)

Lemma registry_lookups_are_bounded_witness :
  ∃ (n : nat) (w' : World),
    Z.of_nat n < cfgMaxAttempts None ∧
    registry_getPkgReleases flakyDatasource (Some npmLookup) None emptyWorld
      = (surfaced (flakyDatasource (length (calls emptyWorld) + n)%nat
                     npmLookup), w') ∧
    calls w' = calls emptyWorld ++ replicate (S n) npmLookup ∧
    sleeps w' = sleeps emptyWorld ++
                map (delayAfter None) (seqZ 1 (Z.of_nat n)) ∧
    cache w' = cache emptyWorld.
Proof.
  apply (registry_lookups_are_bounded flakyDatasource npmLookup None
           emptyWorld).
  reflexivity.
Defined.

Lemma no_attempt_rejects_with_undefined_witness :
  registry_getPkgReleases threeMajors (Some npmLookup) (Some noAttempt)
    emptyWorld = (Throw ThrownUndefined, emptyWorld).
Proof.
  apply (no_attempt_rejects_with_undefined threeMajors npmLookup noAttempt
           emptyWorld).
  vm_compute. discriminate.
Defined.

Lemma undefined_rejection_surfaces_as_type_error_witness :
  registry_getPkgReleases rejectingDatasource (Some npmLookup) None emptyWorld
  = (Throw (ThrownError typeError),
     {| now := now emptyWorld; cache := cache emptyWorld;
        calls := calls emptyWorld ++ [npmLookup];
        sleeps := sleeps emptyWorld |}).
Proof.
  apply (undefined_rejection_surfaces_as_type_error rejectingDatasource
           npmLookup None emptyWorld).
  - reflexivity.
  - reflexivity.
Defined.

Lemma unnamed_package_keeps_current_witness :
  getNewValueWith scenarioVersionings threeMajors unnamedBehind emptyWorld
  = (Ok (Some (currentValue unnamedBehind)), emptyWorld).
Proof.
  apply (unnamed_package_keeps_current scenarioVersionings threeMajors
           Semver.api unnamedBehind emptyWorld).
  - reflexivity.
  - right. reflexivity.
Defined.

Lemma invalid_offset_level_never_fetches_witness :
  getNewValue scenarioVersionings (realRegistry threeMajors) microBehind
    emptyWorld
  = (Ok (Some (currentValue microBehind)), emptyWorld).
Proof.
  apply (invalid_offset_level_never_fetches scenarioVersionings
           (realRegistry threeMajors) Semver.api microBehind emptyWorld
           "micro").
  - reflexivity.
  - reflexivity.
  - discriminate.
  - apply (bool_decide_unpack _). vm_compute. exact I.
Defined.

Lemma flat_offset_counts_back_from_latest_witness :
  ∃ r,
    reverse (sortedVersionsOf Semver.api (config behindByOne)
               (fetchedReleases (Some (releasesOf unorderedReleases)))) !! 1%nat
      = Some r ∧
    getNewValue scenarioVersionings
      (realRegistry (constantDatasource unorderedReleases)) behindByOne
      emptyWorld
    = (Ok (Some r),
       snd (fetchVersions (realRegistry (constantDatasource unorderedReleases))
              (config behindByOne) emptyWorld)).
Proof.
  apply (flat_offset_counts_back_from_latest scenarioVersionings
           (realRegistry (constantDatasource unorderedReleases)) Semver.api
           behindByOne emptyWorld).
  - reflexivity.
  - reflexivity.
  - reflexivity.
  - vm_compute. reflexivity.
  - vm_compute. lia.
Defined.

Lemma result_is_not_after_latest_witness :
  ∃ latest,
    last (sortedVersionsOf Semver.api (config behindByOne)
            (fetchedReleases (Some (releasesOf unorderedReleases))))
      = Some latest ∧
    sortVersions Semver.api "2.1.0" latest ≤ 0.
Proof.
  apply (result_is_not_after_latest scenarioVersionings
           (realRegistry (constantDatasource unorderedReleases)) Semver.api
           behindByOne emptyWorld
           (snd (fetchVersions
                   (realRegistry (constantDatasource unorderedReleases))
                   (config behindByOne) emptyWorld))
           (snd (fetchVersions
                   (realRegistry (constantDatasource unorderedReleases))
                   (config behindByOne) emptyWorld))).
  - reflexivity.
  - vm_compute. reflexivity.
  - apply consistentCheck_sound. vm_compute. reflexivity.
  - vm_compute. reflexivity.
  - vm_compute. discriminate.
Defined.

Lemma deeper_offset_is_never_newer_witness :
  ∃ r1 r2,
    fst (getNewValue scenarioVersionings
           (realRegistry (constantDatasource unorderedReleases))
           (withOffset (- Z.of_nat 0) behindByOne) emptyWorld)
      = Ok (Some r1) ∧
    fst (getNewValue scenarioVersionings
           (realRegistry (constantDatasource unorderedReleases))
           (withOffset (- Z.of_nat 2) behindByOne) emptyWorld)
      = Ok (Some r2) ∧
    sortVersions Semver.api r2 r1 ≤ 0.
Proof.
  apply (deeper_offset_is_never_newer scenarioVersionings
           (realRegistry (constantDatasource unorderedReleases)) Semver.api
           behindByOne emptyWorld
           (snd (fetchVersions
                   (realRegistry (constantDatasource unorderedReleases))
                   (config behindByOne) emptyWorld))
           (Some (releasesOf unorderedReleases)) 0 2).
  - reflexivity.
  - reflexivity.
  - vm_compute. reflexivity.
  - apply consistentCheck_sound. vm_compute. reflexivity.
  - lia.
  - vm_compute. lia.
Defined.

Lemma only_accepted_versions_matter_witness :
  fst (getNewValue scenarioVersionings
         (realRegistry (constantDatasource malformedReleases)) behindByOne
         emptyWorld)
  = fst (getNewValue scenarioVersionings
           (realRegistry (constantDatasource shuffledReleases)) behindByOne
           emptyWorld).
Proof.
  apply (only_accepted_versions_matter scenarioVersionings
           (realRegistry (constantDatasource malformedReleases))
           (realRegistry (constantDatasource shuffledReleases)) Semver.api
           behindByOne emptyWorld
           (snd (fetchVersions
                   (realRegistry (constantDatasource malformedReleases))
                   (config behindByOne) emptyWorld))
           emptyWorld
           (snd (fetchVersions
                   (realRegistry (constantDatasource shuffledReleases))
                   (config behindByOne) emptyWorld))
           (Some (releasesOf malformedReleases))
           (Some (releasesOf shuffledReleases))).
  - reflexivity.
  - vm_compute. reflexivity.
  - vm_compute. reflexivity.
  - vm_compute. symmetry.
    apply (Permutation_cons_append ["1.0.0"; "2.0.0"] "3.0.0").
  - apply consistentCheck_sound. vm_compute. reflexivity.
  - apply strictCheck_sound. vm_compute. reflexivity.
Defined.

Lemma current_version_matters_through_its_anchor_witness :
  getNewValue scenarioVersionings (realRegistry gappedMinors)
    (withCurrentVersion "2.0.0" minorBehind) emptyWorld
  = getNewValue scenarioVersionings (realRegistry gappedMinors) minorBehind
      emptyWorld.
Proof.
  apply (current_version_matters_through_its_anchor scenarioVersionings
           (realRegistry gappedMinors) Semver.api minorBehind "2.0.0"
           emptyWorld).
  - reflexivity.
  - vm_compute. reflexivity.
Defined.

Lemma no_sibling_keeps_current_witness :
  fst (getNewValue scenarioVersionings (realRegistry gappedMinors)
         orphanBehind emptyWorld)
  = Ok (Some (currentValue orphanBehind)).
Proof.
  apply (no_sibling_keeps_current scenarioVersionings
           (realRegistry gappedMinors) Semver.api orphanBehind emptyWorld
           (snd (fetchVersions (realRegistry gappedMinors)
                   (config orphanBehind) emptyWorld))
           (Some (releasesOf ["1.0.0"; "1.1.0"; "1.3.0"; "2.0.0"; "2.2.0";
                              "2.5.0"]))
           (-1) "minor").
  - reflexivity.
  - reflexivity.
  - lia.
  - reflexivity.
  - discriminate.
  - vm_compute. reflexivity.
  - apply (proj1 (Forall_forall
             (fun v => isVersion Semver.api v = true →
                       anchorOf Semver.api (Some "minor") v
                         ≠ anchorOf Semver.api (Some "minor")
                             (currentVersion orphanBehind)) _)).
    apply (bool_decide_unpack _). vm_compute. exact I.
Defined.

Lemma stub_registry_keeps_current_witness :
  getNewValue scenarioVersionings stubRegistry behindByOne emptyWorld
  = (Ok (Some (currentValue behindByOne)), emptyWorld).
Proof.
  apply (stub_registry_keeps_current scenarioVersionings Semver.api
           behindByOne emptyWorld).
  - reflexivity.
  - reflexivity.
Defined.

Lemma grouping_partitions_the_versions_witness :
  NoDup (map fst (groupVersionsBySemverLevel Semver.api sixReleases "major"))
  ∧ concat (map snd (groupVersionsBySemverLevel Semver.api sixReleases
                       "major"))
      ≡ₚ List.filter (isVersion Semver.api) sixReleases
  ∧ Forall (fun kv => kv.2 ≠ [] ∧
               Forall (fun v => groupKeyOf Semver.api "major" v = Some kv.1)
                 kv.2)
      (groupVersionsBySemverLevel Semver.api sixReleases "major").
Proof.
  apply (grouping_partitions_the_versions Semver.api "major" sixReleases).
  apply (bool_decide_unpack _). vm_compute. exact I.
Defined.

Lemma unknown_level_groups_nothing_witness :
  groupVersionsBySemverLevel Semver.api sixReleases "micro" = [] ∧
  getVersionFromSemverGroups Semver.api
    (groupVersionsBySemverLevel Semver.api sixReleases "micro")
    (-1) "micro" "3.1.0" = None.
Proof.
  apply (unknown_level_groups_nothing Semver.api "micro" sixReleases (-1)
           "3.1.0").
  apply (bool_decide_unpack _). vm_compute. exact I.
Defined.

Lemma constraints_schema_is_strict_witness :
  ∃ fields, twoMajorsBehind = JObj fields ∧
    ∀ k, k ∈ map fst fields → k ∈ constraintKeys.
Proof.
  apply (constraints_schema_is_strict twoMajorsBehind).
  vm_compute. reflexivity.
Defined.

Lemma validated_constraints_are_unchanged_witness :
  prop twoMajorsBehind "offset" = prop twoMajorsBehindShuffled "offset" ∧
  prop twoMajorsBehind "comment" = prop twoMajorsBehindShuffled "comment".
Proof.
  split;
    apply (validated_constraints_are_unchanged twoMajorsBehindShuffled
             twoMajorsBehind);
    vm_compute; reflexivity.
Defined.

Lemma accepted_constraints_pass_the_resolver_witness :
  offsetRejected (npmConfig (Some (constraintsOf twoMajorsBehind))) = false ∧
  offsetLevelRejected (npmConfig (Some (constraintsOf twoMajorsBehind)))
    = false ∧
  ∀ l, offsetLevel (constraintsOf twoMajorsBehind) = Some l →
    l ∈ ["major"; "minor"; "patch"] ∧
    ∃ o, offset (constraintsOf twoMajorsBehind) = Some o ∧ o < 0.
Proof.
  apply (accepted_constraints_pass_the_resolver twoMajorsBehind
           twoMajorsBehind
           (npmConfig (Some (constraintsOf twoMajorsBehind)))).
  - vm_compute. reflexivity.
  - reflexivity.
Defined.


Lemma well_formed_constraints_are_accepted_witness :
  validateConstraints (objectOf (offsetAt (-1) "minor"))
    = {| success := true; data := Some (objectOf (offsetAt (-1) "minor"));
         error := None |} ∧
  constraintsOf (objectOf (offsetAt (-1) "minor")) = offsetAt (-1) "minor".
Proof.
  apply (well_formed_constraints_are_accepted (offsetAt (-1) "minor")).
  - simpl. lia.
  - intros l [= <-]. split; [|simpl; lia].
    apply (bool_decide_unpack _). vm_compute. exact I.
Defined.

Lemma rule_is_judged_by_declared_properties_witness :
  PackageRuleSchema (JObj annotatedFields)
  = PackageRuleSchema (JObj reactFields).
Proof.
  apply (rule_is_judged_by_declared_properties annotatedFields reactFields).
  apply (proj1 (Forall_forall
           (fun k => Js.objGet annotatedFields k = Js.objGet reactFields k)
           _)).
  repeat constructor.
Defined.

Lemma accepted_rule_has_valid_constraints_witness :
  getProp reactFields "constraints" = JUndefined ∨
  (success (validateConstraintsInRule (getProp reactFields "constraints"))
     = true ∧
   success (validateConstraints (getProp reactFields "constraints")) = true).
Proof.
  apply (accepted_rule_has_valid_constraints reactFields).
  vm_compute. eauto.
Defined.

Lemma config_schema_agrees_with_rule_validation_witness :
  is_Some (ConfigWithPackageRulesSchema
             (JObj [("packageRules", JArr [reactRule; vueRule]);
                    ("extends", JArr [JStr "config:base"])])) ↔
  rulesSuccess (validatePackageRules (JArr [reactRule; vueRule])) = true.
Proof.
  apply (config_schema_agrees_with_rule_validation
           [("packageRules", JArr [reactRule; vueRule]);
            ("extends", JArr [JStr "config:base"])]
           [reactRule; vueRule]).
  reflexivity.
Defined.

Lemma backoff_delays_never_shrink_witness :
  delayAfter None 2 ≤ delayAfter None (2 + 1) ∧
  delayAfter None (2 + 1) ≤ cfgMaxDelay None.
Proof.
  apply (backoff_delays_never_shrink None 2).
  - vm_compute. discriminate.
  - vm_compute. discriminate.
  - lia.
Defined.

Lemma deeper_group_offset_is_never_newer_witness :
  fst (getNewValue scenarioVersionings
         (realRegistry (constantDatasource sixReleases))
         (withOffset (-1) majorBehind) emptyWorld) = Ok (Some "2.1.0") ∧
  fst (getNewValue scenarioVersionings
         (realRegistry (constantDatasource sixReleases))
         (withOffset (-2) majorBehind) emptyWorld) = Ok (Some "1.1.0") ∧
  sortVersions Semver.api "1.1.0" "2.1.0" ≤ 0.
Proof.
  split; [by vm_compute|]. split; [by vm_compute|].
  apply (deeper_group_offset_is_never_newer scenarioVersionings
           (realRegistry (constantDatasource sixReleases)) Semver.api
           majorBehind emptyWorld
           (snd (fetchVersions
                   (realRegistry (constantDatasource sixReleases))
                   (config majorBehind) emptyWorld))
           (Some (releasesOf sixReleases)) GroupedSpec.Major (-1) (-2)).
  - reflexivity.
  - reflexivity.
  - vm_compute. reflexivity.
  - apply consistentCheck_sound. vm_compute. reflexivity.
  - apply coherentCheck_sound. vm_compute. reflexivity.
  - lia.
  - lia.
  - vm_compute. reflexivity.
  - vm_compute. reflexivity.
  - discriminate.
  - discriminate.
Defined.
